(** * The query builder of the MCP server, embedded and verified

    Source: apps/mcp-server/src/mcp-server/tools/build_query_from_description/logic.ts
    and packages/data-contract/src/reader.ts (the contract's types).

    Strings are sequences of code units.  The development works with the
    code units 0..255 (the Basic Latin and Latin-1 blocks), for which
    [toLowerCase], [trim], the character classes of regular expressions
    and their case folding are written out below as ECMAScript defines
    them; text with code units above 255 is outside this model. *)

From Stdlib Require Import Strings.String Strings.Ascii.
From Stdlib Require Import Lists.List Bool.Bool Arith.PeanoNat NArith.NArith Lia.
Import ListNotations.

Local Open Scope list_scope.
Local Open Scope string_scope.

(* ================================================================== *)
(** ** Characters and the string methods the source calls             *)
(* ================================================================== *)

Module Js.

(** The code unit of a character. *)
Definition code (c : ascii) : N := N_of_ascii c.

Definition between (lo hi n : N) : bool := (lo <=? n)%N && (n <=? hi)%N.

(** Upper-case letters that have a lower-case partner 32 code units up:
    A-Z, and U+00C0..U+00DE without the multiplication sign U+00D7. *)
Definition is_upper (c : ascii) : bool :=
  between 65 90 (code c)
  || (between 192 222 (code c) && negb (code c =? 215)%N).

(** Lower-case letters whose upper-case partner is 32 code units down:
    a-z, and U+00E0..U+00FE without the division sign U+00F7. *)
Definition is_lower (c : ascii) : bool :=
  between 97 122 (code c)
  || (between 224 254 (code c) && negb (code c =? 247)%N).

Definition lower_char (c : ascii) : ascii :=
  if is_upper c then ascii_of_N (code c + 32) else c.

(** [String.prototype.toLowerCase] on the code units 0..255: there the
    lower case of a character is one character of the same range and
    does not depend on its neighbours.  (The rule that does, the final
    sigma, is about U+03A3.) *)
Fixpoint toLowerCase (s : string) : string :=
  match s with
  | EmptyString => EmptyString
  | String c s' => String (lower_char c) (toLowerCase s')
  end.

(** [Canonicalize] of a regular expression with the [i] flag and without
    the [u] flag: the character's upper case when that is one code unit,
    except that a non-ASCII character never folds to an ASCII one.  Two
    code units of the range leave it: U+00FF folds to U+0178 and U+00B5
    to U+039C. *)
Definition canonicalize (c : ascii) : N :=
  if is_lower c then (code c - 32)%N
  else if (code c =? 255)%N then 376%N
  else if (code c =? 181)%N then 924%N
  else code c.

(** White space and line terminators, the characters [\s] matches and
    [trim] strips: TAB, LF, VT, FF, CR, SP and NBSP. *)
Definition is_space (c : ascii) : bool :=
  between 9 13 (code c) || (code c =? 32)%N || (code c =? 160)%N.

(** Line terminators, the characters [.] does not match. *)
Definition is_line_terminator (c : ascii) : bool :=
  (code c =? 10)%N || (code c =? 13)%N.

(** [\d]. *)
Definition is_digit (c : ascii) : bool := between 48 57 (code c).

Fixpoint trimStart (s : string) : string :=
  match s with
  | EmptyString => EmptyString
  | String c s' => if is_space c then trimStart s' else s
  end.

Fixpoint trimEnd (s : string) : string :=
  match s with
  | EmptyString => EmptyString
  | String c s' =>
      match trimEnd s' with
      | EmptyString => if is_space c then EmptyString else String c EmptyString
      | t => String c t
      end
  end.

(** [String.prototype.trim]. *)
Definition trim (s : string) : string := trimEnd (trimStart s).

(** [s.includes(sub)]: [sub] occurs in [s] at some position. *)
Fixpoint includes (s sub : string) : bool :=
  prefix sub s
  || match s with
     | EmptyString => false
     | String _ s' => includes s' sub
     end.

(** [s.endsWith(suffix)]. *)
Definition endsWith (s suffix : string) : bool :=
  (String.length suffix <=? String.length s)%nat
  && (substring (String.length s - String.length suffix)
        (String.length suffix) s =? suffix).

(** [Array.prototype.join]. *)
Definition join (sep : string) (l : list string) : string :=
  String.concat sep l.

(** The value of a string of decimal digits, most significant first. *)
Fixpoint digits_value (acc : N) (s : string) : N :=
  match s with
  | EmptyString => acc
  | String c s' => digits_value (acc * 10 + (code c - 48))%N s'
  end.

(** A Number whose value is a whole number that is not negative, or
    positive infinity: the values [parseInt] has on decimal digits. *)
Inductive Number : Type :=
| Finite (n : N)
| Infinity.

(** The Number value for a natural number.  A Number is a double: its
    significand has 53 binary digits, the nearest double is taken, a
    tie goes to the even significand, and what reaches 2^1024 after
    rounding is infinite. *)
Definition Number_of (n : N) : Number :=
  if (N.size n <=? 53)%N then Finite n
  else
    let e := (N.size n - 53)%N in
    let q := N.shiftr n e in
    let r := (n - N.shiftl q e)%N in
    let half := N.shiftl 1 (e - 1) in
    let q' := if (r <? half)%N then q
              else if (half <? r)%N then (q + 1)%N
              else if N.even q then q else (q + 1)%N in
    let v := N.shiftl q' e in
    if (N.size v <=? 1024)%N then Finite v else Infinity.

(** [parseInt(s, 10)] on a non-empty string of decimal digits (the only
    strings the source passes): the Number value for the integer the
    digits denote, all of them significant.  (ECMAScript also lets an
    implementation read the digits after the twentieth significant one
    as zeros.) *)
Definition parseInt (s : string) : Number := Number_of (digits_value 0 s).

(** Number of occurrences of a character. *)
Fixpoint count_char (c : ascii) (s : string) : nat :=
  match s with
  | EmptyString => 0
  | String x s' => (if Ascii.eqb x c then 1 else 0) + count_char c s'
  end.

End Js.

Coercion Js.Finite : N >-> Js.Number.

(* ================================================================== *)
(** ** Regular expressions: the backtracking matcher of ECMAScript     *)
(* ================================================================== *)

Module RegExp.

(** The syntax the source's seven expressions use. *)
Inductive regex : Type :=
| Eps                                  (* the empty pattern *)
| Chr (c : ascii)                      (* a literal character *)
| Any                                  (* .   *)
| Digit                                (* \d  *)
| Space                                (* \s  *)
| Eos                                  (* $, no m flag *)
| Seq (r1 r2 : regex)
| Alt (r1 r2 : regex)                  (* r1|r2 *)
| Star (greedy : bool) (r : regex)     (* r* and r*? *)
| Group (i : nat) (r : regex).         (* the i-th capturing parenthesis *)

Definition Plus (greedy : bool) (r : regex) : regex := Seq r (Star greedy r).
Definition Opt (r : regex) : regex := Alt r Eps.        (* r? *)

(** A run of literal characters. *)
Fixpoint Lit (s : string) : regex :=
  match s with
  | EmptyString => Eps
  | String c s' => Seq (Chr c) (Lit s')
  end.

(** Captures: group number and captured text, latest binding first. *)
Definition captures : Type := list (nat * string).

Fixpoint cap (i : nat) (c : captures) : option string :=
  match c with
  | [] => None
  | (j, s) :: c' => if Nat.eqb i j then Some s else cap i c'
  end.

(** A match state is the input that is left and the captures so far. *)
Definition state : Type := (string * captures)%type.
Definition cont : Type := string -> captures -> option state.

Definition char_match (ignoreCase : bool) (a x : ascii) : bool :=
  if ignoreCase then (Js.canonicalize a =? Js.canonicalize x)%N
  else Ascii.eqb a x.

Definition orElse {A} (x : option A) (y : option A) : option A :=
  match x with Some _ => x | None => y end.

(** One character that satisfies [p]. *)
Definition one (p : ascii -> bool) (k : cont) (s : string) (c : captures)
  : option state :=
  match s with
  | String x s' => if p x then k s' c else None
  | EmptyString => None
  end.

(** The repetition of [step] with continuation [k].  An iteration that
    consumes nothing is rejected, as RepeatMatcher does, so the length
    of the input bounds the number of iterations. *)
Fixpoint repeat (greedy : bool) (step : cont -> cont) (k : cont)
    (fuel : nat) (s : string) (c : captures) {struct fuel} : option state :=
  let again :=
    match fuel with
    | 0 => None
    | S fuel' =>
        step (fun s' c' =>
                if (String.length s' <? String.length s)%nat
                then repeat greedy step k fuel' s' c'
                else None) s c
    end in
  if greedy then orElse again (k s c) else orElse (k s c) again.

(** The matcher of [r] in continuation-passing style: [m ic r k s c] is
    the first success, in backtracking order, of [r] at [s] followed by
    [k]. *)
Fixpoint m (ic : bool) (r : regex) (k : cont) (s : string) (c : captures)
    {struct r} : option state :=
  match r with
  | Eps => k s c
  | Chr a => one (char_match ic a) k s c
  | Any => one (fun x => negb (Js.is_line_terminator x)) k s c
  | Digit => one Js.is_digit k s c
  | Space => one Js.is_space k s c
  | Eos => match s with EmptyString => k s c | String _ _ => None end
  | Seq r1 r2 => m ic r1 (m ic r2 k) s c
  | Alt r1 r2 => orElse (m ic r1 k s c) (m ic r2 k s c)
  | Star greedy r1 => repeat greedy (m ic r1) k (String.length s) s c
  | Group i r1 =>
      m ic r1
        (fun s' c' =>
           k s' ((i, substring 0 (String.length s - String.length s') s) :: c'))
        s c
  end.

(** A match attempt at the start of [s]. *)
Definition match_at (ic : bool) (r : regex) (s : string) : option state :=
  m ic r (fun s' c' => Some (s', c')) s [].

(** The search of RegExpBuiltinExec: the first start position, from the
    left, at which the matcher succeeds.  The result is the number of
    code units skipped, the input left after the match and the
    captures, with the whole match as group 0. *)
Fixpoint search (ic : bool) (r : regex) (s : string)
  : option (nat * string * captures) :=
  match match_at ic r s with
  | Some (rest, c) =>
      Some (0, rest,
            (0, substring 0 (String.length s - String.length rest) s) :: c)
  | None =>
      match s with
      | EmptyString => None
      | String _ s' =>
          match search ic r s' with
          | Some (n, rest, c) => Some (S n, rest, c)
          | None => None
          end
      end
  end.

(** [str.match(re)] for an expression without the [g] flag. *)
Definition str_match (ic : bool) (r : regex) (s : string) : option captures :=
  match search ic r s with
  | Some (_, _, c) => Some c
  | None => None
  end.

(** Drop the first [n] code units. *)
Fixpoint drop (n : nat) (s : string) : string :=
  match n, s with
  | 0, _ => s
  | S n', String _ s' => drop n' s'
  | S _, EmptyString => EmptyString
  end.

(** [re.exec(str)] for an expression with the [g] flag, whose state is
    [lastIndex]: the search starts there; a success moves [lastIndex] to
    the end of the match, a failure resets it to 0. *)
Definition exec_g (ic : bool) (r : regex) (str : string) (lastIndex : nat)
  : option captures * nat :=
  if (String.length str <? lastIndex)%nat then (None, 0)
  else
    match search ic r (drop lastIndex str) with
    | Some (_, rest, c) => (Some c, String.length str - String.length rest)
    | None => (None, 0)
    end.

End RegExp.

(* ================================================================== *)
(** ** The data contract (packages/data-contract/src/reader.ts)        *)
(* ================================================================== *)

(** An object used as a dictionary is the list of its entries, with
    distinct keys, in the order [for ... in] and [Object.keys] enumerate
    them: the order of declaration, for keys that are not array
    indices. *)
Definition dict (A : Type) : Type := list (string * A).

Definition keys {A} (d : dict A) : list string := map fst d.

Module Column.
Record t : Type := mk {
  businessName : string;
  description : string;
  dataType : string;
  businessRules : option (list string)      (* businessRules?: string[] *)
}.
End Column.

Module Table.
Record t : Type := mk {
  businessName : string;
  description : string;
  columns : dict Column.t
}.
End Table.

Record DataContract : Type := {
  tables : dict Table.t;
  abbreviations : option (dict string)
}.

(* ================================================================== *)
(** ** Errors and results                                              *)
(* ================================================================== *)

(** The enumeration of types-global/BaseErrorCode, as the README of the
    server lists it. *)
Inductive BaseErrorCode : Type :=
| UNKNOWN_ERROR
| INVALID_INPUT
| UNAUTHORIZED
| FORBIDDEN
| NOT_FOUND
| INTERNAL_SERVER_ERROR
| BAD_GATEWAY
| SERVICE_UNAVAILABLE
| GATEWAY_TIMEOUT
| UNSUPPORTED_OPERATION
| INVALID_SESSION
| SESSION_NOT_FOUND
| INVALID_TRANSPORT.

(** What a call can throw: an [McpError] of the source, with its code
    and message (its third argument is always the empty object), or the
    TypeError of the runtime when a method is called on [undefined]. *)
Inductive exn : Type :=
| McpError (code : BaseErrorCode) (message : string)
| TypeError.

Inductive result (A : Type) : Type :=
| Ok (a : A)
| Throw (e : exn).
Arguments Ok {A} a.
Arguments Throw {A} e.

Definition bind {A B} (x : result A) (f : A -> result B) : result B :=
  match x with
  | Ok a => f a
  | Throw e => Throw e
  end.

Notation "x <- e1 ;; e2" := (bind e1 (fun x => e2))
  (at level 61, e1 at next level, right associativity).

(** [array.map(f)] with an [f] that may throw: left to right, the first
    exception ends the call. *)
Fixpoint mapM {A B} (f : A -> result B) (l : list A) : result (list B) :=
  match l with
  | [] => Ok []
  | a :: l' => b <- f a ;; bs <- mapM f l' ;; Ok (b :: bs)
  end.

(* ================================================================== *)
(** ** parseDescription (logic.ts, lines 26-97)                        *)
(* ================================================================== *)

Record Filter : Type := {
  column : string;
  operator : string;
  value : string
}.

Record ParsedIntent : Type := {
  target : string;
  columns : list string;
  filters : list Filter
}.

Import RegExp.

(** [matches[i]].  The entry of a group that took no part in the match
    is [undefined], and the source calls [trim] on it or uses it as a
    string: the model stops with the TypeError there.  Lemma
    [parseDescription_no_TypeError] shows that this never happens. *)
Definition group (matches : captures) (i : nat) : result string :=
  match cap i matches with
  | Some s => Ok s
  | None => Throw TypeError
  end.

Record pattern : Type := {
  regex : RegExp.regex;
  ignoreCase : bool;                                   (* the i flag *)
  entities : captures -> result ParsedIntent
}.

Fixpoint seqs (l : list RegExp.regex) : RegExp.regex :=
  match l with
  | [] => Eps
  | r :: l' => Seq r (seqs l')
  end.

Definition lazy_any : RegExp.regex := Star false Any.          (* .*?  *)
Definition digits : RegExp.regex := Plus true Digit.           (* \d+  *)
(** The group [(?:'|DQ)], DQ the double-quote character, code unit 34. *)
Definition quote : RegExp.regex := Alt (Chr "'") (Chr "034").
Definition opt_qmark : RegExp.regex := Opt (Chr "?").          (* \??  *)

Definition unsupported_message : string :=
  "That request is not supported by the query builder yet. Try rephrasing or pick from the supported set.".

(** /show me the (.*?) for the (.*?) with id (\d+)/i *)
Definition pattern_show : pattern := {|
  regex := seqs [Lit "show me the "; Group 1 lazy_any; Lit " for the ";
                 Group 2 lazy_any; Lit " with id "; Group 3 digits];
  ignoreCase := true;
  entities := fun matches =>
    m1 <- group matches 1 ;;
    m2 <- group matches 2 ;;
    m3 <- group matches 3 ;;
    Ok {| target := Js.trim m2;
          columns := [Js.trim m1];
          filters := [{| column := "id"; operator := "="; value := m3 |}] |}
|}.

(** /which sales orders are (.*?)\??$/i *)
Definition pattern_which : pattern := {|
  regex := seqs [Lit "which sales orders are "; Group 1 lazy_any;
                 opt_qmark; Eos];
  ignoreCase := true;
  entities := fun matches =>
    m1 <- group matches 1 ;;
    Ok {| target := "sales orders";
          columns := ["id"];
          filters := [{| column := "status"; operator := "=";
                         value := Js.trim m1 |}] |}
|}.

(** /list all (.*?) in the (?:'|DQ)(.*?)(?:'|DQ)/i *)
Definition pattern_list : pattern := {|
  regex := seqs [Lit "list all "; Group 1 lazy_any; Lit " in the ";
                 quote; Group 2 lazy_any; quote];
  ignoreCase := true;
  entities := fun matches =>
    m2 <- group matches 2 ;;
    Ok {| target := Js.trim m2; columns := ["*"]; filters := [] |}
|}.

(** /what is the name of the (.*?) with id (\d+)\??$/i *)
Definition pattern_name : pattern := {|
  regex := seqs [Lit "what is the name of the "; Group 1 lazy_any;
                 Lit " with id "; Group 2 digits; opt_qmark; Eos];
  ignoreCase := true;
  entities := fun matches =>
    m1 <- group matches 1 ;;
    m2 <- group matches 2 ;;
    Ok {| target := Js.trim m1;
          columns := ["name"];
          filters := [{| column := "id"; operator := "=";
                         value := Js.trim m2 |}] |}
|}.

(** /what was the quantity of each product sold in order number (\d+)\??$/i *)
Definition pattern_quantity : pattern := {|
  regex := seqs [Lit "what was the quantity of each product sold in order number ";
                 Group 1 digits; opt_qmark; Eos];
  ignoreCase := true;
  entities := fun _ =>
    Throw (McpError UNSUPPORTED_OPERATION unsupported_message)
|}.

(** /find the name of the customer who placed order number (\d+)\??$/i *)
Definition pattern_placed : pattern := {|
  regex := seqs [Lit "find the name of the customer who placed order number ";
                 Group 1 digits; opt_qmark; Eos];
  ignoreCase := true;
  entities := fun _ =>
    Throw (McpError UNSUPPORTED_OPERATION unsupported_message)
|}.

Definition supportedPatterns : list pattern :=
  [pattern_show; pattern_which; pattern_list; pattern_name;
   pattern_quantity; pattern_placed].

(** [description.match(pattern.regex)]. *)
Definition matches_of (p : pattern) (description : string) : option captures :=
  str_match (ignoreCase p) (regex p) description.

(** The [for ... of] loop over the patterns; [Ok None] is the [null]
    the function returns when the loop ends. *)
Fixpoint parse_loop (ps : list pattern) (description : string)
  : result (option ParsedIntent) :=
  match ps with
  | [] => Ok None
  | p :: ps' =>
      match matches_of p description with
      | Some matches => parsed <- entities p matches ;; Ok (Some parsed)
      | None => parse_loop ps' description
      end
  end.

Definition parseDescription (description : string)
  : result (option ParsedIntent) :=
  parse_loop supportedPatterns description.

(* ================================================================== *)
(** ** Name resolution (logic.ts, lines 99-134)                        *)
(* ================================================================== *)

(** The [for ... in] loop of [findTableByBusinessName]; the result is
    the object [{ physicalName, table }] or [null]. *)
Fixpoint findTableByBusinessName_loop (tables : dict Table.t)
    (businessName : string) : option (string * Table.t) :=
  match tables with
  | [] => None
  | (tableName, table) :: rest =>
      if Js.includes (Js.toLowerCase (Table.businessName table))
                     (Js.toLowerCase businessName)
      then Some (tableName, table)
      else findTableByBusinessName_loop rest businessName
  end.

Definition findTableByBusinessName (contract : DataContract)
    (businessName : string) : option (string * Table.t) :=
  findTableByBusinessName_loop (tables contract) businessName.

(** A [for ... in] loop over the columns that returns the first entry
    satisfying [test]. *)
Fixpoint column_loop (test : string -> Column.t -> bool)
    (cols : dict Column.t) : option (string * Column.t) :=
  match cols with
  | [] => None
  | (columnName, column) :: rest =>
      if test columnName column then Some (columnName, column)
      else column_loop test rest
  end.

Definition id_test (columnName : string) (_ : Column.t) : bool :=
  Js.endsWith columnName "_id" || (columnName =? "id").

Definition status_test (columnName : string) (_ : Column.t) : bool :=
  Js.endsWith columnName "_stat" || Js.endsWith columnName "_status".

Definition name_test (lowerBusinessName : string) (_ : string)
    (column : Column.t) : bool :=
  Js.includes (Js.toLowerCase (Column.businessName column)) lowerBusinessName.

(** The three loops of the source in their order; a guarded loop that
    is skipped or finds nothing leaves the function at the next
    statement. *)
Definition findColumnByBusinessName (table : Table.t) (businessName : string)
  : option (string * Column.t) :=
  let lowerBusinessName := Js.toLowerCase businessName in
  match (if lowerBusinessName =? "id"
         then column_loop id_test (Table.columns table) else None) with
  | Some found => Some found
  | None =>
      match (if lowerBusinessName =? "status"
             then column_loop status_test (Table.columns table)
             else None) with
      | Some found => Some found
      | None => column_loop (name_test lowerBusinessName) (Table.columns table)
      end
  end.

(* ================================================================== *)
(** ** Value mapping (logic.ts, lines 136-148)                         *)
(* ================================================================== *)

(** A parameter of the query: [string | number]. *)
Inductive JsValue : Type :=
| JStr (s : string)
| JNum (n : Js.Number).
Arguments JNum n%_N.

(** /(\d+):\s*'(.*?)'/g *)
Definition rule_regex : RegExp.regex :=
  seqs [Group 1 digits; Chr ":"; Star true Space; Chr "'";
        Group 2 lazy_any; Chr "'"].

(** The [while ((match = regex.exec(rule)) !== null)] loop, with the
    expression's [lastIndex] as its state.  [Ok None] is the end of the
    loop without a [return].  Every match of the expression is at least
    four code units long, so [lastIndex] grows at each turn and
    [fuel] bounds the number of turns (lemma [exec_loop_fuel]). *)
Fixpoint exec_loop (fuel : nat) (rule : string) (lastIndex : nat)
    (lowerValue : string) : result (option Js.Number) :=
  match fuel with
  | 0 => Ok None
  | S fuel' =>
      match exec_g false rule_regex rule lastIndex with
      | (None, _) => Ok None
      | (Some matches, lastIndex') =>
          label <- group matches 2 ;;
          if Js.toLowerCase label =? lowerValue
          then code <- group matches 1 ;; Ok (Some (Js.parseInt code))
          else exec_loop fuel' rule lastIndex' lowerValue
      end
  end.

(** The [for (const rule of column.businessRules)] loop; each rule gets
    a fresh expression, whose [lastIndex] is 0. *)
Fixpoint rules_loop (rules : list string) (lowerValue : string)
  : result (option Js.Number) :=
  match rules with
  | [] => Ok None
  | rule :: rest =>
      found <- exec_loop (S (String.length rule)) rule 0 lowerValue ;;
      match found with
      | Some n => Ok (Some n)
      | None => rules_loop rest lowerValue
      end
  end.

(** The function; [for ... of] over a missing [businessRules] is a
    TypeError, which the guard of its only caller (line 201) excludes. *)
Definition findColumnValueFromBusinessRule (column : Column.t)
    (value : string) : result JsValue :=
  let lowerValue := Js.toLowerCase value in
  match Column.businessRules column with
  | None => Throw TypeError
  | Some rules =>
      found <- rules_loop rules lowerValue ;;
      match found with
      | Some n => Ok (JNum n)
      | None => Ok (JStr value)
      end
  end.

(** Lines 199-203: the value a filter contributes to [params]. *)
Definition filterValue (column : Column.t) (value : string) : result JsValue :=
  match Column.businessRules column with
  | Some (_ :: _) => findColumnValueFromBusinessRule column value
  | Some [] | None => Ok (JStr value)
  end.

(* ================================================================== *)
(** ** buildQueryFromDescriptionLogic (logic.ts, lines 160-217)        *)
(* ================================================================== *)

Record Output : Type := {
  sql_query : string;
  params : list JsValue
}.

Definition table_not_found (target : string) : exn :=
  McpError INVALID_INPUT
    ("Could not find a table matching '" ++ target ++ "'.").

Definition column_not_found (colName physicalName : string) : exn :=
  McpError INVALID_INPUT
    ("Could not find a column matching '" ++ colName ++ "' in table '"
     ++ physicalName ++ "'.").

(** The callback of [parsed.columns.map] (lines 179-188). *)
Definition selectColumn (tableInfo : string * Table.t) (colName : string)
  : result string :=
  if colName =? "*"
  then Ok (Js.join ", " (keys (Table.columns (snd tableInfo))))
  else match findColumnByBusinessName (snd tableInfo) colName with
       | None => Throw (column_not_found colName (fst tableInfo))
       | Some colInfo => Ok (fst colInfo)
       end.

(** [parsed.filters.forEach] (lines 193-207), threading the two arrays
    the callback pushes to. *)
Fixpoint forEach_filter (tableInfo : string * Table.t) (fs : list Filter)
    (whereClauses : list string) (params : list JsValue)
  : result (list string * list JsValue) :=
  match fs with
  | [] => Ok (whereClauses, params)
  | filter :: rest =>
      match findColumnByBusinessName (snd tableInfo) (column filter) with
      | None => Throw (column_not_found (column filter) (fst tableInfo))
      | Some colInfo =>
          v <- filterValue (snd colInfo) (value filter) ;;
          let clause := fst colInfo ++ " " ++ operator filter ++ " ?" in
          forEach_filter tableInfo rest
            (whereClauses ++ [clause])%list (params ++ [v])%list
      end
  end.

(** Lines 174-216: everything after the parse. *)
Definition assembleQuery (contract : DataContract) (parsed : ParsedIntent)
  : result Output :=
  match findTableByBusinessName contract (target parsed) with
  | None => Throw (table_not_found (target parsed))
  | Some tableInfo =>
      selectColumns <- mapM (selectColumn tableInfo) (columns parsed) ;;
      wp <- forEach_filter tableInfo (filters parsed) [] [] ;;
      let sql := "SELECT " ++ Js.join ", " selectColumns
                 ++ " FROM " ++ fst tableInfo in
      let sql := match fst wp with
                 | [] => sql
                 | _ :: _ => sql ++ " WHERE " ++ Js.join " AND " (fst wp)
                 end in
      Ok {| sql_query := sql ++ ";"; params := snd wp |}
  end.

Definition buildQueryFromDescriptionLogic (contract : DataContract)
    (description : string) : result Output :=
  parsed <- parseDescription description ;;
  match parsed with
  | None => Throw (McpError UNSUPPORTED_OPERATION unsupported_message)
  | Some parsed => assembleQuery contract parsed
  end.

(* ================================================================== *)
(** ** Definitions used to state the properties                        *)
(* ================================================================== *)

(** Expressions every match of which consumes at least one code unit. *)
Fixpoint nonnull (r : RegExp.regex) : bool :=
  match r with
  | Chr _ | Any | Digit | Space => true
  | Seq r1 r2 => nonnull r1 || nonnull r2
  | Alt r1 r2 => nonnull r1 && nonnull r2
  | Group _ r1 => nonnull r1
  | Eps | Eos | Star _ _ => false
  end.

(** Groups that take part in every match of the expression. *)
Fixpoint defines (r : RegExp.regex) : list nat :=
  match r with
  | Seq r1 r2 => defines r1 ++ defines r2
  | Group i r1 => i :: defines r1
  | _ => []
  end.

(** [s'] is what is left of [s] after some prefix. *)
Definition suffix_of (s' s : string) : Prop := exists p, s = p ++ s'.

(** What a successful run of the matcher of [r] guarantees about the
    state it hands to its continuation. *)
Definition post (r : RegExp.regex) (s : string) (c : captures)
    (s' : string) (c' : captures) : Prop :=
  suffix_of s' s
  /\ (forall i, cap i c <> None -> cap i c' <> None)
  /\ (forall i, In i (defines r) -> cap i c' <> None)
  /\ (nonnull r = true -> String.length s' < String.length s).

(** The first literal character an expression has to match, if any. *)
Fixpoint head_char (r : RegExp.regex) : option ascii :=
  match r with
  | Chr a => Some a
  | Seq r1 _ => head_char r1
  | Group _ r1 => head_char r1
  | _ => None
  end.

Fixpoint all_chars (p : ascii -> bool) (s : string) : bool :=
  match s with
  | EmptyString => true
  | String x s' => p x && all_chars p s'
  end.

(** No match attempt that starts inside [p] succeeds on [p ++ s2]. *)
Fixpoint fails_inside (ic : bool) (r : RegExp.regex) (p s2 : string) : bool :=
  match p with
  | EmptyString => true
  | String _ p' =>
      match match_at ic r (p ++ s2) with
      | Some _ => false
      | None => fails_inside ic r p' s2
      end
  end.

Definition quantity_question (n : string) : string :=
  "What was the quantity of each product sold in order number " ++ n ++ "?".

Definition placed_question (n : string) : string :=
  "Find the name of the customer who placed order number " ++ n ++ ".".

Definition unsupported : exn :=
  McpError UNSUPPORTED_OPERATION unsupported_message.

(** The occurrences of the shape [<integer>: '<label>'] in a text, from
    left to right, as pairs of the integer's digits and the label: the
    leftmost match of the expression, then the occurrences in what that
    match leaves.  A match is never empty, so the length of the text
    bounds their number. *)
Fixpoint scan (fuel : nat) (s : string) : list (string * string) :=
  match fuel with
  | 0 => []
  | S fuel' =>
      match search false rule_regex s with
      | Some (_, rest, matches) =>
          match cap 1 matches, cap 2 matches with
          | Some code, Some label => (code, label) :: scan fuel' rest
          | _, _ => []
          end
      | None => []
      end
  end.

Definition occurrences (rule : string) : list (string * string) :=
  scan (S (String.length rule)) rule.

Definition rules_of (column : Column.t) : list string :=
  match Column.businessRules column with
  | Some rules => rules
  | None => []
  end.

(** The label of an occurrence equals the raw value, letter case apart. *)
Definition label_is (value : string) (occ : string * string) : bool :=
  Js.toLowerCase (snd occ) =? Js.toLowerCase value.

(** The value mapper in the words of its specification: the integer of
    the first occurrence, in rule order, whose label is the raw value;
    the raw value when there is none. *)
Definition mapValue (column : Column.t) (rawValue : string) : JsValue :=
  match find (label_is rawValue) (flat_map occurrences (rules_of column)) with
  | Some (code, _) => JNum (Js.parseInt code)
  | None => JStr rawValue
  end.

(** [name] occurs in [text], letter case apart. *)
Definition contains_ci (text name : string) : Prop :=
  exists p q, Js.toLowerCase text = p ++ Js.toLowerCase name ++ q.

Definition ends_with (s suffix : string) : Prop := exists p, s = p ++ suffix.

Definition is_id_column (columnName : string) : Prop :=
  columnName = "id" \/ ends_with columnName "_id".

Definition is_status_column (columnName : string) : Prop :=
  ends_with columnName "_stat" \/ ends_with columnName "_status".

(** [r] is the first entry of [d], in its order, that satisfies [P];
    [None] when no entry does. *)
Definition first_with {A} (P : string -> A -> Prop) (d : dict A)
    (r : option (string * A)) : Prop :=
  match r with
  | Some e =>
      exists d1 d2, d = (d1 ++ e :: d2)%list /\ P (fst e) (snd e)
                    /\ Forall (fun e' => ~ P (fst e') (snd e')) d1
  | None => Forall (fun e' => ~ P (fst e') (snd e')) d
  end.

(** The generic rule of column resolution. *)
Definition by_business_name (name : string) (cols : dict Column.t)
    (found : option (string * Column.t)) : Prop :=
  first_with (fun _ c => contains_ci (Column.businessName c) name) cols found.

(** A special rule on physical names ahead of the generic rule: the
    first column the special rule accepts; when it accepts none, the
    result of the generic rule. *)
Definition special_then_generic (special : string -> Prop) (name : string)
    (cols : dict Column.t) (found : option (string * Column.t)) : Prop :=
  (exists hit, found = Some hit
               /\ first_with (fun k _ => special k) cols (Some hit))
  \/ (first_with (fun k _ => special k) cols None
      /\ by_business_name name cols found).

(** The entry of the select list that a requested column yields: the
    comma-joined keys of the table's columns for the wildcard, the
    physical name of the resolved column otherwise. *)
Definition select_item (table : Table.t) (colName item : string) : Prop :=
  (colName = "*" /\ item = Js.join ", " (keys (Table.columns table)))
  \/ (colName <> "*"
      /\ exists colInfo, findColumnByBusinessName table colName = Some colInfo
                         /\ item = fst colInfo).

(** The column a filter resolves to. *)
Definition filter_column (table : Table.t) (f : Filter)
    (colInfo : string * Column.t) : Prop :=
  findColumnByBusinessName table (column f) = Some colInfo.

Definition clause_of (fc : Filter * (string * Column.t)) : string :=
  fst (snd fc) ++ " " ++ operator (fst fc) ++ " ?".

Definition param_of (fc : Filter * (string * Column.t)) : JsValue :=
  mapValue (snd (snd fc)) (value (fst fc)).

(** The statement text: constant keywords around the select list, the
    table name and the clauses. *)
Definition sql_text (tableName : string) (selectColumns clauses : list string)
  : string :=
  let sql := "SELECT " ++ Js.join ", " selectColumns ++ " FROM " ++ tableName in
  match clauses with
  | [] => sql
  | _ :: _ => sql ++ " WHERE " ++ Js.join " AND " clauses
  end ++ ";".

(** A name of the parsed intent that the resolved table cannot resolve:
    a requested column other than the wildcard, or a filter column. *)
Definition unresolved (table : Table.t) (parsed : ParsedIntent)
    (name : string) : Prop :=
  ((In name (columns parsed) /\ name <> "*")
   \/ In name (map column (filters parsed)))
  /\ findColumnByBusinessName table name = None.

(** [term] occurs in [message]. *)
Definition names (message term : string) : Prop :=
  exists p q, message = p ++ term ++ q.

(** No physical table or column name of the contract contains [c]. *)
Definition identifiers_without (c : ascii) (contract : DataContract) : bool :=
  forallb
    (fun entry : string * Table.t =>
       (Js.count_char c (fst entry) =? 0)%nat
       && forallb (fun col : string * Column.t =>
                     (Js.count_char c (fst col) =? 0)%nat)
            (Table.columns (snd entry)))
    (tables contract).

(** The clause of a filter on the physical column [c]. *)
Definition equality_clause (c : string) : string := c ++ " = ?".

(** Two texts of the same length whose characters agree up to the case
    folding of the [i] flag. *)
Fixpoint same_modulo_case (s1 s2 : string) : Prop :=
  match s1, s2 with
  | EmptyString, EmptyString => True
  | String x1 s1', String x2 s2' =>
      Js.canonicalize x1 = Js.canonicalize x2 /\ same_modulo_case s1' s2'
  | _, _ => False
  end.

(** All 256 characters. *)
Definition all_ascii : list ascii := map ascii_of_nat (seq 0 256).

(** Characters with one folding are in the same classes, and lower-casing
    a character keeps its folding: checked on every character. *)
Definition folding_respects_classes : bool :=
  forallb (fun x1 =>
    forallb (fun x2 =>
      implb (Js.canonicalize x1 =? Js.canonicalize x2)%N
        (Bool.eqb (Js.is_digit x1) (Js.is_digit x2)
         && Bool.eqb (Js.is_space x1) (Js.is_space x2)
         && Bool.eqb (Js.is_line_terminator x1) (Js.is_line_terminator x2)))
      all_ascii) all_ascii.

Definition lower_keeps_folding : bool :=
  forallb (fun x => (Js.canonicalize (Js.lower_char x) =? Js.canonicalize x)%N)
    all_ascii.

(** Two continuations agree on every text no longer than [n]. *)
Definition agree_upto (n : nat) (k1 k2 : cont) : Prop :=
  forall s c, String.length s <= n -> k1 s c = k2 s c.

(* ================================================================== *)
(** ** Contracts and descriptions of the scenarios                     *)
(* ================================================================== *)

(** The reference contract; [text] supplies the fields the scenarios
    leave open (descriptions, data types and the business names of the
    two columns of [so_hdr]). *)
Definition reference_contract (text : nat -> string) : DataContract := {|
  tables :=
    [("cust_mst",
      Table.mk "Customer" (text 0)
        [("c_id", Column.mk "id" (text 1) (text 2) None);
         ("c_name", Column.mk "Customer Name" (text 3) (text 4) None)]);
     ("so_hdr",
      Table.mk "sales orders" (text 5)
        [("ord_stat",
          Column.mk (text 6) (text 7) (text 8) (Some ["5: 'cancelled'"]));
         ("ord_id", Column.mk (text 9) (text 10) (text 11) None)])];
  abbreviations := None
|}.

Definition plain_contract : DataContract := reference_contract (fun _ => "").

(** The contract of the unit test of the function
    (tests/mcp-server/tools/build_query_from_description.test.ts). *)
Definition mockContract : DataContract := {|
  tables :=
    [("CUST_MST",
      Table.mk "Customer" "Stores master information about customers."
        [("c_id",
          Column.mk "Customer ID" "Unique identifier for a customer."
            "INTEGER" (Some []));
         ("c_name",
          Column.mk "Customer Name" "Full name of the customer."
            "VARCHAR(100)" (Some []))])];
  abbreviations := Some []
|}.

Definition customer_question : string :=
  "Show me the Customer Name for the customer with ID 4.".

Definition cancelled_question : string := "Which sales orders are cancelled?".

(** A table without an id-like column, one of whose business names
    contains the letters of the logical name. *)
Definition payments_table : Table.t :=
  Table.mk "Payments" ""
    [("amount", Column.mk "Paid amount" "" "DECIMAL" None);
     ("payer", Column.mk "Payer" "" "VARCHAR(40)" None)].

(** A contract with a question mark in a physical column name. *)
Definition flags_contract : DataContract := {|
  tables :=
    [("acct", Table.mk "Accounts" ""
                [("active?", Column.mk "Active" "" "BOOLEAN" None)])];
  abbreviations := None
|}.

(** A pattern matches the full description: its expression, anchored at
    both ends, has a match. *)
Definition full_match (p : pattern) (description : string) : bool :=
  match m (ignoreCase p) (regex p)
          (fun s' c' =>
             match s' with
             | EmptyString => Some (s', c')
             | String _ _ => None
             end)
          description [] with
  | Some _ => true
  | None => false
  end.

(** Two intents that differ in the literal values of their filters
    only. *)
Definition same_request (p1 p2 : ParsedIntent) : Prop :=
  target p1 = target p2
  /\ columns p1 = columns p2
  /\ map column (filters p1) = map column (filters p2)
  /\ map operator (filters p1) = map operator (filters p2).

(** The four shapes of a parsed intent. *)
Inductive intent_shape : ParsedIntent -> Prop :=
| shape_show m1 m2 m3 :
    intent_shape
      {| target := Js.trim m2; columns := [Js.trim m1];
         filters := [{| column := "id"; operator := "="; value := m3 |}] |}
| shape_which m1 :
    intent_shape
      {| target := "sales orders"; columns := ["id"];
         filters := [{| column := "status"; operator := "=";
                        value := Js.trim m1 |}] |}
| shape_list m2 :
    intent_shape {| target := Js.trim m2; columns := ["*"]; filters := [] |}
| shape_name m1 m2 :
    intent_shape
      {| target := Js.trim m1; columns := ["name"];
         filters := [{| column := "id"; operator := "=";
                        value := Js.trim m2 |}] |}.

(** Two continuations fail together on texts equal up to case. *)
Definition fail_together (k1 k2 : cont) : Prop :=
  forall s1 s2 c1 c2, same_modulo_case s1 s2 ->
    (k1 s1 c1 = None <-> k2 s2 c2 = None).

(** The matches of an expression, without their order: [run ic r s c s'
    c'] when [r] can consume the part of [s] before [s'], changing the
    captures from [c] to [c']. *)
Inductive run (ic : bool) : RegExp.regex -> string -> captures ->
                            string -> captures -> Prop :=
| run_Eps s c : run ic Eps s c s c
| run_Chr a x s c : char_match ic a x = true -> run ic (Chr a) (String x s) c s c
| run_Any x s c :
    Js.is_line_terminator x = false -> run ic Any (String x s) c s c
| run_Digit x s c : Js.is_digit x = true -> run ic Digit (String x s) c s c
| run_Space x s c : Js.is_space x = true -> run ic Space (String x s) c s c
| run_Eos c : run ic Eos "" c "" c
| run_Seq r1 r2 s c s1 c1 s2 c2 :
    run ic r1 s c s1 c1 -> run ic r2 s1 c1 s2 c2 ->
    run ic (Seq r1 r2) s c s2 c2
| run_Alt_l r1 r2 s c s' c' : run ic r1 s c s' c' -> run ic (Alt r1 r2) s c s' c'
| run_Alt_r r1 r2 s c s' c' : run ic r2 s c s' c' -> run ic (Alt r1 r2) s c s' c'
| run_Star_end g r s c : run ic (Star g r) s c s c
| run_Star_more g r s c s1 c1 s2 c2 :
    run ic r s c s1 c1 -> run ic (Star g r) s1 c1 s2 c2 ->
    run ic (Star g r) s c s2 c2
| run_Group i r s c s' c' :
    run ic r s c s' c' ->
    run ic (Group i r) s c s'
      ((i, substring 0 (String.length s - String.length s') s) :: c').

(** A text has the shape [<integer>: '<label>'], with [code] the digits
    of the integer: digits, a colon, optional white space, and the label
    between single quotes on one line. *)
Definition rule_shape (code label text : string) : Prop :=
  exists ws,
    code <> ""
    /\ all_chars Js.is_digit code = true
    /\ all_chars Js.is_space ws = true
    /\ all_chars (fun x => negb (Js.is_line_terminator x)) label = true
    /\ text = code ++ ":" ++ ws ++ "'" ++ label ++ "'".

(* ================================================================== *)
(** ** Further definitions: outcomes of a call                         *)
(* ================================================================== *)

(** Every name of the parsed intent resolves in the table. *)
Definition all_resolved (table : Table.t) (parsed : ParsedIntent) : Prop :=
  forall name, ~ unresolved table parsed name.

(* ================================================================== *)
(** ** Further definitions: what the parser extracts                   *)
(* ================================================================== *)

(** A non-empty string of decimal digits. *)
Definition decimal (s : string) : Prop :=
  s <> "" /\ all_chars Js.is_digit s = true.

(** Every group [i] of the expression encloses an expression whose
    matches all satisfy [P]. *)
Fixpoint groups_satisfy (ic : bool) (P : string -> Prop) (i : nat)
    (r : RegExp.regex) : Prop :=
  match r with
  | Group j r1 =>
      (j = i ->
       forall s c s' c', run ic r1 s c s' c' ->
         P (substring 0 (String.length s - String.length s') s))
      /\ groups_satisfy ic P i r1
  | Seq r1 r2 | Alt r1 r2 => groups_satisfy ic P i r1 /\ groups_satisfy ic P i r2
  | Star _ r1 => groups_satisfy ic P i r1
  | _ => True
  end.

(** The first character of a text, if any, is not white space. *)
Definition head_clean (s : string) : Prop :=
  match s with
  | EmptyString => True
  | String x _ => Js.is_space x = false
  end.

(* ================================================================== *)
(** ** Further definitions: the letter case of a description           *)
(* ================================================================== *)

Definition lower_caps (c : captures) : captures :=
  map (fun e => (fst e, Js.toLowerCase (snd e))) c.

Definition lower_state (st : option state) : option state :=
  option_map (fun st => (Js.toLowerCase (fst st), lower_caps (snd st))) st.

(** The intent with its extracted texts in lower case. *)
Definition lower_intent (parsed : ParsedIntent) : ParsedIntent := {|
  target := Js.toLowerCase (target parsed);
  columns := map Js.toLowerCase (columns parsed);
  filters := map (fun f => {| column := column f; operator := operator f;
                              value := Js.toLowerCase (value f) |})
               (filters parsed)
|}.

(** The result of the parser with the texts of its intent, if it has
    one, in lower case. *)
Definition lower_parse (r : result (option ParsedIntent))
  : result (option ParsedIntent) :=
  match r with
  | Ok (Some parsed) => Ok (Some (lower_intent parsed))
  | Ok None => Ok None
  | Throw e => Throw e
  end.

(** Lower-casing a lower-case character changes nothing, and the only
    character whose lower case is the asterisk is the asterisk: checked
    on every character. *)
Definition lower_char_idempotent : bool :=
  forallb (fun x => Ascii.eqb (Js.lower_char (Js.lower_char x)) (Js.lower_char x))
    all_ascii.

Definition lower_char_star : bool :=
  forallb (fun x => Bool.eqb (Ascii.eqb (Js.lower_char x) "*") (Ascii.eqb x "*"))
    all_ascii.

(** The text with the letters A-Z replaced by a-z: two texts with the
    same image differ in the case of these letters only. *)
Definition ascii_lower_char (c : ascii) : ascii :=
  if Js.between 65 90 (Js.code c) then ascii_of_N (Js.code c + 32) else c.

Fixpoint ascii_lower (s : string) : string :=
  match s with
  | EmptyString => EmptyString
  | String c s' => String (ascii_lower_char c) (ascii_lower s')
  end.

(** [toLowerCase] does to the letters A-Z what [ascii_lower] does:
    checked on every character. *)
Definition lower_char_after_ascii : bool :=
  forallb (fun x => Ascii.eqb (Js.lower_char (ascii_lower_char x))
                      (Js.lower_char x))
    all_ascii.

(** Two parameters that are the same number, or strings equal up to
    letter case. *)
Definition same_param (v1 v2 : JsValue) : Prop :=
  match v1, v2 with
  | JNum n1, JNum n2 => n1 = n2
  | JStr s1, JStr s2 => Js.toLowerCase s1 = Js.toLowerCase s2
  | _, _ => False
  end.

(** Two errors of the same kind: the same code, whatever the message. *)
Definition same_error (e1 e2 : exn) : Prop :=
  match e1, e2 with
  | McpError code1 _, McpError code2 _ => code1 = code2
  | TypeError, TypeError => True
  | _, _ => False
  end.

(** Two results related by [R], or two errors of the same kind. *)
Definition result_rel {A} (R : A -> A -> Prop) (r1 r2 : result A) : Prop :=
  match r1, r2 with
  | Ok a1, Ok a2 => R a1 a2
  | Throw e1, Throw e2 => same_error e1 e2
  | _, _ => False
  end.

(** Two outcomes with the same statement: two queries with the same
    sql_query and parameters equal up to letter case, or two errors
    with the same code. *)
Definition same_statement (r1 r2 : result Output) : Prop :=
  result_rel (fun o1 o2 =>
                sql_query o1 = sql_query o2
                /\ Forall2 same_param (params o1) (params o2))
    r1 r2.

(** The filter with its value in lower case. *)
Definition lower_filter (f : Filter) : Filter :=
  {| column := column f; operator := operator f;
     value := Js.toLowerCase (value f) |}.

(** A continuation on lower-case text that mirrors one on the text. *)
Definition mirrors (k1 k2 : cont) : Prop :=
  forall s c, k2 (Js.toLowerCase s) (lower_caps c) = lower_state (k1 s c).

(* ================================================================== *)
(** ** Further definitions: rules the value mapper understands         *)
(* ================================================================== *)

(** The text does not start with a character of the class [p]. *)
Definition head_outside (p : ascii -> bool) (s : string) : Prop :=
  match s with
  | EmptyString => True
  | String x _ => p x = false
  end.

(** A character a label can contain: no line terminator and no single
    quote. *)
Definition label_char (x : ascii) : bool :=
  negb (Js.is_line_terminator x) && negb (Ascii.eqb x "'").

(** A rule with one well-formed entry: text without digits, the digits
    of the code, a colon, white space, the label between single quotes,
    and any text after it. *)
Definition entry_rule (before code ws label after : string) : string :=
  before ++ code ++ ":" ++ ws ++ "'" ++ label ++ "'" ++ after.

(* ================================================================== *)
(** ** The lookup tools                                                *)
(** explain_column_meaning/logic.ts, expand_abbreviations/logic.ts,
    explore_table_structure/logic.ts and the contract helpers of the
    documentation generator.                                           *)
(* ================================================================== *)

(** The property names every object inherits from [Object.prototype]. *)
Definition object_prototype_keys : list string :=
  ["constructor"; "__defineGetter__"; "__defineSetter__"; "hasOwnProperty";
   "__lookupGetter__"; "__lookupSetter__"; "isPrototypeOf";
   "propertyIsEnumerable"; "toString"; "valueOf"; "__proto__";
   "toLocaleString"].

(** The own property [k] of a dictionary. *)
Fixpoint own {A} (d : dict A) (k : string) : option A :=
  match d with
  | [] => None
  | (k', v) :: d' => if k' =? k then Some v else own d' k
  end.

(** The value of [d[k]]: an own property of the dictionary, a member of
    [Object.prototype] (a function or, for [__proto__], the prototype
    itself: truthy, and without any of the contract's fields), or
    [undefined]. *)
Inductive property (A : Type) : Type :=
| Own (a : A)
| Inherited
| Undefined.
Arguments Own {A} a.
Arguments Inherited {A}.
Arguments Undefined {A}.

Definition lookup {A} (d : dict A) (k : string) : property A :=
  match own d k with
  | Some a => Own a
  | None =>
      if existsb (String.eqb k) object_prototype_keys
      then Inherited else Undefined
  end.

(** [getDataContractTable]: [contract.tables[tableName]]. *)
Definition getDataContractTable (contract : DataContract)
    (tableName : string) : property Table.t :=
  lookup (tables contract) tableName.

Module Explain.
(** The output of explain_column_meaning; a field read from a member of
    [Object.prototype] is [undefined]. *)
Record Output : Type := mk {
  businessName : option string;
  description : option string;
  businessRules : list string
}.
End Explain.

(** [explainColumnMeaningLogic].  Reading [columns] from a member of
    [Object.prototype] gives [undefined], and indexing that throws the
    TypeError. *)
Definition explainColumnMeaningLogic (contract : DataContract)
    (tableName columnName : string) : result Explain.Output :=
  match lookup (tables contract) tableName with
  | Undefined =>
      Throw (McpError NOT_FOUND ("Table not found: " ++ tableName))
  | Inherited => Throw TypeError
  | Own table =>
      match lookup (Table.columns table) columnName with
      | Undefined =>
          Throw (McpError NOT_FOUND
                   ("Column not found: " ++ columnName ++ " in table "
                    ++ tableName))
      | Inherited => Ok (Explain.mk None None [])
      | Own column =>
          Ok (Explain.mk (Some (Column.businessName column))
                (Some (Column.description column))
                (match Column.businessRules column with
                 | Some rules => rules
                 | None => []
                 end))
      end
  end.

Module ExploreColumn.
Record t : Type := mk {
  name : string;
  type : string;
  description : string
}.
End ExploreColumn.

Module Explore.
Record Output : Type := mk {
  tableName : string;
  businessName : string;
  description : string;
  columns : list ExploreColumn.t
}.
End Explore.

(** [exploreTableStructureLogic]; [Object.entries] of the [undefined]
    that a member of [Object.prototype] has for [columns] throws the
    TypeError. *)
Definition exploreTableStructureLogic (contract : DataContract)
    (tableName : string) : result Explore.Output :=
  match lookup (tables contract) tableName with
  | Undefined =>
      Throw (McpError NOT_FOUND ("Table not found: " ++ tableName))
  | Inherited => Throw TypeError
  | Own table =>
      let columnsAsArray :=
        map (fun entry : string * Column.t =>
               ExploreColumn.mk (fst entry) (Column.dataType (snd entry))
                 (Column.description (snd entry)))
          (Table.columns table) in
      Ok (Explore.mk tableName (Table.businessName table)
            (Table.description table) columnsAsArray)
  end.

(** The expansion a call returns: the string of the contract or, for a
    name of [Object.prototype], the inherited member. *)
Inductive Expansion : Type :=
| ExpansionString (s : string)
| ExpansionInherited.

(** [expandAbbreviationsLogic]: [contract.abbreviations?.[abbreviation]],
    rejected when falsy: [undefined] or the empty string. *)
Definition expandAbbreviationsLogic (contract : DataContract)
    (abbreviation : string) : result Expansion :=
  let not_found :=
    Throw (McpError NOT_FOUND ("Abbreviation not found: " ++ abbreviation)) in
  match abbreviations contract with
  | None => not_found
  | Some d =>
      match lookup d abbreviation with
      | Own EmptyString => not_found
      | Own expansion => Ok (ExpansionString expansion)
      | Inherited => Ok ExpansionInherited
      | Undefined => not_found
      end
  end.

(* ================================================================== *)
(** ** The state a call can see: regular expression objects           *)
(* ================================================================== *)

(** The objects with mutable state that the source creates and uses are
    its regular expressions: every [exec] reads the property
    [lastIndex] of the expression, and the [exec] of an expression with
    the [g] flag writes it.  The contract and the description are only
    read.  The store below holds the expression objects that exist, with
    those that earlier calls and other code left behind; a reference is
    a position in it, and a computation takes the store and returns its
    result, or the exception thrown, with the store it leaves. *)

Module Stateful.

Record RegExpObject : Type := {
  source : RegExp.regex;
  flag_i : bool;
  flag_g : bool;
  lastIndex : nat
}.

Definition store : Type := list RegExpObject.
Definition ref : Type := nat.

Definition M (A : Type) : Type := store -> result A * store.

Definition ret {A} (a : A) : M A := fun h => (Ok a, h).

(** A step that touches no object. *)
Definition lift {A} (r : result A) : M A := fun h => (r, h).

Definition bindM {A B} (x : M A) (f : A -> M B) : M B :=
  fun h =>
    match x h with
    | (Ok a, h') => f a h'
    | (Throw e, h') => (Throw e, h')
    end.

Notation "x <-- e1 ;; e2" := (bindM e1 (fun x => e2))
  (at level 61, e1 at next level, right associativity).

(** The evaluation of a regular expression literal: a new object at
    every evaluation, with [lastIndex] 0. *)
Definition literal (r : RegExp.regex) (i g : bool) : M ref :=
  fun h =>
    (Ok (List.length h),
     (h ++ [{| source := r; flag_i := i; flag_g := g; lastIndex := 0 |}])%list).

(** The assignment to [lastIndex] of the object at [R]. *)
Fixpoint set_lastIndex (R : ref) (e : nat) (h : store) : store :=
  match h, R with
  | [], _ => []
  | o :: h', 0 =>
      {| source := source o; flag_i := flag_i o; flag_g := flag_g o;
         lastIndex := e |} :: h'
  | o :: h', S R' => o :: set_lastIndex R' e h'
  end.

(** RegExpBuiltinExec for an expression without the [y] flag: the
    search starts at [lastIndex] when the expression has the [g] flag
    and at 0 when it has not; only with the [g] flag is [lastIndex]
    written, with the end of the match or, after a failure, with 0.
    A reference is the result of [literal], so it names an object. *)
Definition RegExp_exec (R : ref) (str : string) : M (option captures) :=
  fun h =>
    match nth_error h R with
    | None => (Throw TypeError, h)
    | Some o =>
        let start := if flag_g o then lastIndex o else 0 in
        let (matches, e) := exec_g (flag_i o) (source o) str start in
        (Ok matches, if flag_g o then set_lastIndex R e h else h)
    end.

(** [str.match(R)] for an expression without the [g] flag, the only
    kind the source passes: it is [R.exec(str)]. *)
Definition String_match (str : string) (R : ref) : M (option captures) :=
  RegExp_exec R str.

(** The array literal of [parseDescription] (lines 27-87): its six
    expression literals are evaluated, in their order, at every call.
    An element is the reference to the expression and the function
    [entities]. *)
Fixpoint array_literal (ps : list pattern)
  : M (list (ref * (captures -> result ParsedIntent))) :=
  match ps with
  | [] => ret []
  | p :: ps' =>
      R <-- literal (regex p) (ignoreCase p) false ;;
      rest <-- array_literal ps' ;;
      ret ((R, entities p) :: rest)
  end.

(** The loop of lines 89-94. *)
Fixpoint parse_loop (ps : list (ref * (captures -> result ParsedIntent)))
    (description : string) : M (option ParsedIntent) :=
  match ps with
  | [] => ret None
  | (R, entities) :: ps' =>
      matches <-- String_match description R ;;
      match matches with
      | Some matches => parsed <-- lift (entities matches) ;; ret (Some parsed)
      | None => parse_loop ps' description
      end
  end.

Definition parseDescription (description : string) : M (option ParsedIntent) :=
  patterns <-- array_literal supportedPatterns ;;
  parse_loop patterns description.

(** The [while] loop of lines 141-145 on the expression [regex]. *)
Fixpoint exec_loop (fuel : nat) (regex : ref) (rule lowerValue : string)
  : M (option Js.Number) :=
  match fuel with
  | 0 => ret None
  | S fuel' =>
      found <-- RegExp_exec regex rule ;;
      match found with
      | None => ret None
      | Some matches =>
          label <-- lift (group matches 2) ;;
          if Js.toLowerCase label =? lowerValue
          then code <-- lift (group matches 1) ;; ret (Some (Js.parseInt code))
          else exec_loop fuel' regex rule lowerValue
      end
  end.

(** The [for ... of] loop of lines 138-146: the literal of line 139 is
    evaluated once for every rule. *)
Fixpoint rules_loop (rules : list string) (lowerValue : string)
  : M (option Js.Number) :=
  match rules with
  | [] => ret None
  | rule :: rest =>
      regex <-- literal rule_regex false true ;;
      found <-- exec_loop (S (String.length rule)) regex rule lowerValue ;;
      match found with
      | Some n => ret (Some n)
      | None => rules_loop rest lowerValue
      end
  end.

Definition findColumnValueFromBusinessRule (column : Column.t)
    (value : string) : M JsValue :=
  let lowerValue := Js.toLowerCase value in
  match Column.businessRules column with
  | None => lift (Throw TypeError)
  | Some rules =>
      found <-- rules_loop rules lowerValue ;;
      match found with
      | Some n => ret (JNum n)
      | None => ret (JStr value)
      end
  end.

Definition filterValue (column : Column.t) (value : string) : M JsValue :=
  match Column.businessRules column with
  | Some (_ :: _) => findColumnValueFromBusinessRule column value
  | Some [] | None => ret (JStr value)
  end.

Fixpoint forEach_filter (tableInfo : string * Table.t) (fs : list Filter)
    (whereClauses : list string) (params : list JsValue)
  : M (list string * list JsValue) :=
  match fs with
  | [] => ret (whereClauses, params)
  | filter :: rest =>
      match findColumnByBusinessName (snd tableInfo) (column filter) with
      | None => lift (Throw (column_not_found (column filter) (fst tableInfo)))
      | Some colInfo =>
          v <-- filterValue (snd colInfo) (value filter) ;;
          let clause := fst colInfo ++ " " ++ operator filter ++ " ?" in
          forEach_filter tableInfo rest
            (whereClauses ++ [clause])%list (params ++ [v])%list
      end
  end.

Definition assembleQuery (contract : DataContract) (parsed : ParsedIntent)
  : M Output :=
  match findTableByBusinessName contract (target parsed) with
  | None => lift (Throw (table_not_found (target parsed)))
  | Some tableInfo =>
      selectColumns <-- lift (mapM (selectColumn tableInfo) (columns parsed)) ;;
      wp <-- forEach_filter tableInfo (filters parsed) [] [] ;;
      let sql := "SELECT " ++ Js.join ", " selectColumns
                 ++ " FROM " ++ fst tableInfo in
      let sql := match fst wp with
                 | [] => sql
                 | _ :: _ => sql ++ " WHERE " ++ Js.join " AND " (fst wp)
                 end in
      ret {| sql_query := sql ++ ";"; params := snd wp |}
  end.

Definition buildQueryFromDescriptionLogic (contract : DataContract)
    (description : string) : M Output :=
  parsed <-- parseDescription description ;;
  match parsed with
  | None => lift (Throw (McpError UNSUPPORTED_OPERATION unsupported_message))
  | Some parsed => assembleQuery contract parsed
  end.

(** Calls one after the other: each starts in the store that the calls
    before it left.  The result is the list of their outcomes. *)
Fixpoint session (calls : list (DataContract * string)) (h : store)
  : list (result Output) * store :=
  match calls with
  | [] => ([], h)
  | (contract, description) :: rest =>
      let (outcome, h') :=
        buildQueryFromDescriptionLogic contract description h in
      let (outcomes, h'') := session rest h' in
      (outcome :: outcomes, h'')
  end.

End Stateful.

(** The object a pattern's literal creates. *)
Definition object_of (p : pattern) : Stateful.RegExpObject :=
  {| Stateful.source := regex p; Stateful.flag_i := ignoreCase p;
     Stateful.flag_g := false; Stateful.lastIndex := 0 |}.

(** The object of the literal of line 139, with its [lastIndex]. *)
Definition rule_object (lastIndex : nat) : Stateful.RegExpObject :=
  {| Stateful.source := rule_regex; Stateful.flag_i := false;
     Stateful.flag_g := true; Stateful.lastIndex := lastIndex |}.

(** A store other code left behind: an expression with the [g] flag in
    the middle of a scan. *)
Definition used_store : Stateful.store :=
  [rule_object 7; object_of pattern_which].

(* ================================================================== *)
(** ** Strings                                                         *)
(* ================================================================== *)

Lemma append_nil_r (s : string) : s ++ "" = s.
Proof. induction s as [|a s IH]; simpl; [reflexivity | now rewrite IH]. Qed.

Lemma append_assoc (s1 s2 s3 : string) : (s1 ++ s2) ++ s3 = s1 ++ (s2 ++ s3).
Proof. induction s1 as [|a s1 IH]; simpl; [reflexivity | now rewrite IH]. Qed.

Lemma length_append (s1 s2 : string) :
  String.length (s1 ++ s2) = String.length s1 + String.length s2.
Proof. induction s1 as [|a s1 IH]; simpl; [reflexivity | now rewrite IH]. Qed.

Lemma suffix_of_refl (s : string) : suffix_of s s.
Proof. now exists "". Qed.

Lemma suffix_of_trans (s1 s2 s3 : string) :
  suffix_of s1 s2 -> suffix_of s2 s3 -> suffix_of s1 s3.
Proof.
  intros [p ->] [q ->]. exists (q ++ p). now rewrite append_assoc.
Qed.

Lemma suffix_of_length (s' s : string) :
  suffix_of s' s -> String.length s' <= String.length s.
Proof. intros [p ->]. rewrite length_append. lia. Qed.

Lemma suffix_of_cons (x : ascii) (s : string) : suffix_of s (String x s).
Proof. now exists (String x ""). Qed.

(* ================================================================== *)
(** ** The matcher                                                     *)
(* ================================================================== *)

Lemma orElse_Some {A} (x y : option A) (a : A) :
  orElse x y = Some a -> x = Some a \/ (x = None /\ y = Some a).
Proof. destruct x; simpl; intros H; [now left | now right]. Qed.

Lemma one_Some (p : ascii -> bool) (k : cont) s c res :
  one p k s c = Some res ->
  exists x s', s = String x s' /\ p x = true /\ k s' c = Some res.
Proof.
  destruct s as [|x s']; simpl; [discriminate|].
  destruct (p x) eqn:E; [|discriminate]. intros H. now exists x, s'.
Qed.

Lemma post_refl r s c : defines r = [] -> nonnull r = false -> post r s c s c.
Proof.
  intros Hd Hn. repeat split.
  - apply suffix_of_refl.
  - auto.
  - rewrite Hd. intros i [].
  - rewrite Hn. discriminate.
Qed.

Lemma post_one r x s c :
  defines r = [] -> post r (String x s) c s c.
Proof.
  intros Hd. repeat split.
  - apply suffix_of_cons.
  - auto.
  - rewrite Hd. intros i [].
  - simpl. lia.
Qed.

Lemma cap_cons_neq_None i j t c :
  cap i c <> None -> cap i ((j, t) :: c) <> None.
Proof. simpl. destruct (Nat.eqb i j); [discriminate | auto]. Qed.

(** The iteration of a step that satisfies the invariant keeps it. *)
Lemma repeat_post greedy (step : cont -> cont) :
  (forall k s c res, step k s c = Some res ->
     exists s' c', k s' c' = Some res /\ suffix_of s' s
                   /\ (forall i, cap i c <> None -> cap i c' <> None)) ->
  forall fuel k s c res,
    repeat greedy step k fuel s c = Some res ->
    exists s' c', k s' c' = Some res /\ suffix_of s' s
                  /\ (forall i, cap i c <> None -> cap i c' <> None).
Proof.
  intros Hstep fuel. induction fuel as [|fuel IH]; intros k s c res H.
  - simpl in H. destruct greedy; simpl in H.
    + exists s, c. auto using suffix_of_refl.
    + apply orElse_Some in H. destruct H as [H | [_ H]]; [|discriminate].
      exists s, c. auto using suffix_of_refl.
  - simpl in H.
    assert (Hagain : forall res,
      step (fun s' c' =>
              if (String.length s' <? String.length s)%nat
              then repeat greedy step k fuel s' c' else None) s c = Some res ->
      exists s' c', k s' c' = Some res /\ suffix_of s' s
                    /\ (forall i, cap i c <> None -> cap i c' <> None)).
    { intros res0 H0. apply Hstep in H0.
      destruct H0 as (s1 & c1 & H1 & Hs1 & Hc1).
      destruct (String.length s1 <? String.length s)%nat; [|discriminate].
      apply IH in H1. destruct H1 as (s2 & c2 & H2 & Hs2 & Hc2).
      exists s2, c2. split; [assumption|]. split.
      - eapply suffix_of_trans; eassumption.
      - auto. }
    destruct greedy; apply orElse_Some in H.
    + destruct H as [H | [_ H]]; [now apply Hagain|].
      exists s, c. auto using suffix_of_refl.
    + destruct H as [H | [_ H]]; [|now apply Hagain].
      exists s, c. auto using suffix_of_refl.
Qed.

(** A successful run of the matcher of [r] reaches its continuation in
    a state that satisfies [post r]. *)
Lemma m_post ic r : forall k s c res,
  m ic r k s c = Some res ->
  exists s' c', k s' c' = Some res /\ post r s c s' c'.
Proof.
  induction r as [ |a| | | | |r1 IH1 r2 IH2|r1 IH1 r2 IH2|g r1 IH1|i r1 IH1];
    intros k s c res H; simpl in H.
  - exists s, c. split; [assumption|]. now apply post_refl.
  - apply one_Some in H. destruct H as (x & s' & -> & _ & H).
    exists s', c. split; [assumption|]. now apply post_one.
  - apply one_Some in H. destruct H as (x & s' & -> & _ & H).
    exists s', c. split; [assumption|]. now apply post_one.
  - apply one_Some in H. destruct H as (x & s' & -> & _ & H).
    exists s', c. split; [assumption|]. now apply post_one.
  - apply one_Some in H. destruct H as (x & s' & -> & _ & H).
    exists s', c. split; [assumption|]. now apply post_one.
  - destruct s; [|discriminate].
    exists "", c. split; [assumption|]. now apply post_refl.
  - apply IH1 in H. destruct H as (s1 & c1 & H & Hs1 & Hc1 & Hd1 & Hn1).
    apply IH2 in H. destruct H as (s2 & c2 & H & Hs2 & Hc2 & Hd2 & Hn2).
    exists s2, c2. split; [assumption|].
    split; [|split; [|split]].
    + eapply suffix_of_trans; eassumption.
    + auto.
    + simpl. intros i Hi. apply in_app_or in Hi. destruct Hi; auto.
    + simpl. intros Hn. apply orb_true_iff in Hn.
      apply suffix_of_length in Hs1, Hs2.
      destruct Hn as [Hn | Hn]; [apply Hn1 in Hn | apply Hn2 in Hn]; lia.
  - apply orElse_Some in H. destruct H as [H | [_ H]].
    + apply IH1 in H. destruct H as (s1 & c1 & H & Hs1 & Hc1 & _ & Hn1).
      exists s1, c1. split; [assumption|].
      split; [assumption|]. split; [assumption|]. split; [intros i []|].
      simpl. intros Hn. apply andb_true_iff in Hn. now apply Hn1.
    + apply IH2 in H. destruct H as (s1 & c1 & H & Hs1 & Hc1 & _ & Hn1).
      exists s1, c1. split; [assumption|].
      split; [assumption|]. split; [assumption|]. split; [intros i []|].
      simpl. intros Hn. apply andb_true_iff in Hn. now apply Hn1.
  - apply repeat_post in H.
    + destruct H as (s1 & c1 & H & Hs1 & Hc1).
      exists s1, c1. split; [assumption|].
      split; [assumption|]. split; [assumption|]. split; [intros i []|].
      discriminate.
    + intros k0 s0 c0 res0 H0. apply IH1 in H0.
      destruct H0 as (s1 & c1 & H0 & Hs1 & Hc1 & _).
      now exists s1, c1.
  - apply IH1 in H. destruct H as (s1 & c1 & H & Hs1 & Hc1 & Hd1 & Hn1).
    eexists s1, _. split; [eassumption|].
    split; [assumption|]. split; [|split; [|assumption]].
    + intros j Hj. now apply cap_cons_neq_None, Hc1.
    + simpl. intros j [<- | Hj].
      * rewrite Nat.eqb_refl. discriminate.
      * now apply cap_cons_neq_None, Hd1.
Qed.

Lemma match_at_post ic r s rest c :
  match_at ic r s = Some (rest, c) -> post r s [] rest c.
Proof.
  unfold match_at. intros H. apply m_post in H.
  destruct H as (s' & c' & H & Hpost). now inversion H; subst.
Qed.

(** A successful search leaves a suffix of the input, has set group 0
    and every group of [defines r], and has consumed input when [r]
    cannot match the empty string. *)
Lemma search_post ic r : forall s n rest c,
  search ic r s = Some (n, rest, c) ->
  suffix_of rest s
  /\ (forall i, i = 0 \/ In i (defines r) -> cap i c <> None)
  /\ (nonnull r = true -> String.length rest < String.length s).
Proof.
  induction s as [|x s IH]; intros n rest c H; simpl in H.
  - destruct (match_at ic r "") as [[rest0 c0]|] eqn:E; [|discriminate].
    inversion H; subst; clear H. apply match_at_post in E.
    destruct E as (Hs & _ & Hd & Hn). split; [assumption|]. split; [|assumption].
    intros i [-> | Hi]; [simpl; discriminate|].
    now apply cap_cons_neq_None, Hd.
  - destruct (match_at ic r (String x s)) as [[rest0 c0]|] eqn:E.
    + inversion H; subst; clear H. apply match_at_post in E.
      destruct E as (Hs & _ & Hd & Hn). split; [assumption|].
      split; [|assumption].
      intros i [-> | Hi]; [simpl; discriminate|].
      now apply cap_cons_neq_None, Hd.
    + destruct (search ic r s) as [[[n0 rest0] c0]|] eqn:E0; [|discriminate].
      inversion H; subst; clear H.
      destruct (IH _ _ _ eq_refl) as (Hs & Hd & Hn).
      split; [|split; [assumption|]].
      * eapply suffix_of_trans; [eassumption | apply suffix_of_cons].
      * intros Hr. apply Hn in Hr. simpl. lia.
Qed.

Lemma str_match_defines ic r s c i :
  str_match ic r s = Some c -> In i (defines r) -> cap i c <> None.
Proof.
  unfold str_match. destruct (search ic r s) as [[[n rest] c0]|] eqn:E;
    [|discriminate].
  intros H Hi. inversion H; subst. apply search_post in E.
  destruct E as (_ & Hd & _). auto.
Qed.

Lemma group_Ok matches i :
  cap i matches <> None -> exists s, group matches i = Ok s.
Proof.
  unfold group. destruct (cap i matches) as [s|]; [now exists s | congruence].
Qed.

(* ================================================================== *)
(** ** parseDescription                                                *)
(* ================================================================== *)

(** The outcomes of [parseDescription]: no intent, the error of the two
    join-shaped patterns, or an intent of one of the four shapes. *)
Lemma parseDescription_outcomes description :
  parseDescription description = Ok None
  \/ parseDescription description
     = Throw (McpError UNSUPPORTED_OPERATION unsupported_message)
  \/ exists parsed,
       parseDescription description = Ok (Some parsed) /\ intent_shape parsed.
Proof.
  unfold parseDescription, supportedPatterns. simpl.
  destruct (matches_of pattern_show description) as [c|] eqn:E1.
  { right; right. unfold matches_of in E1.
    destruct (group_Ok c 1) as [m1 H1];
      [eapply str_match_defines; [exact E1 | simpl; tauto]|].
    destruct (group_Ok c 2) as [m2 H2];
      [eapply str_match_defines; [exact E1 | simpl; tauto]|].
    destruct (group_Ok c 3) as [m3 H3];
      [eapply str_match_defines; [exact E1 | simpl; tauto]|].
    simpl. rewrite H1, H2, H3. simpl. eexists. split; [reflexivity|].
    constructor. }
  destruct (matches_of pattern_which description) as [c|] eqn:E2.
  { right; right. unfold matches_of in E2.
    destruct (group_Ok c 1) as [m1 H1];
      [eapply str_match_defines; [exact E2 | simpl; tauto]|].
    simpl. rewrite H1. simpl. eexists. split; [reflexivity|]. constructor. }
  destruct (matches_of pattern_list description) as [c|] eqn:E3.
  { right; right. unfold matches_of in E3.
    destruct (group_Ok c 2) as [m2 H2];
      [eapply str_match_defines; [exact E3 | simpl; tauto]|].
    simpl. rewrite H2. simpl. eexists. split; [reflexivity|]. constructor. }
  destruct (matches_of pattern_name description) as [c|] eqn:E4.
  { right; right. unfold matches_of in E4.
    destruct (group_Ok c 1) as [m1 H1];
      [eapply str_match_defines; [exact E4 | simpl; tauto]|].
    destruct (group_Ok c 2) as [m2 H2];
      [eapply str_match_defines; [exact E4 | simpl; tauto]|].
    simpl. rewrite H1, H2. simpl. eexists. split; [reflexivity|].
    constructor. }
  destruct (matches_of pattern_quantity description) as [c|] eqn:E5.
  { right; left. reflexivity. }
  destruct (matches_of pattern_placed description) as [c|] eqn:E6.
  { right; left. reflexivity. }
  left. reflexivity.
Qed.

(** No group of a pattern is [undefined] after a match: the parser
    never ends in a TypeError. *)
Lemma parseDescription_no_TypeError description :
  parseDescription description <> Throw TypeError.
Proof.
  destruct (parseDescription_outcomes description) as [H | [H | (p & H & _)]];
    rewrite H; discriminate.
Qed.

Lemma intent_shape_operator parsed :
  intent_shape parsed ->
  Forall (fun f => operator f = "=") (filters parsed).
Proof. destruct 1; simpl; repeat constructor. Qed.

(* ================================================================== *)
(** ** Descriptions that no pattern can match                          *)
(* ================================================================== *)

Lemma head_char_mismatch ic r a : head_char r = Some a ->
  forall k x s c, char_match ic a x = false -> m ic r k (String x s) c = None.
Proof.
  induction r; simpl; try discriminate; intros Hh k x s c0 Hx.
  - inversion Hh; subst. now rewrite Hx.
  - now apply IHr1.
  - now apply IHr.
Qed.

Lemma head_char_empty ic r a : head_char r = Some a ->
  forall k c, m ic r k "" c = None.
Proof.
  induction r; simpl; try discriminate; intros Hh k c0.
  - reflexivity.
  - now apply IHr1.
  - now apply IHr.
Qed.

(** A search through characters that all differ from the first literal
    of the expression fails. *)
Lemma search_head_mismatch ic r a : head_char r = Some a ->
  forall s, all_chars (fun x => negb (char_match ic a x)) s = true ->
  search ic r s = None.
Proof.
  intros Hh. induction s as [|x s IH]; simpl; intros Hs.
  - unfold match_at. now rewrite (head_char_empty ic r a Hh).
  - apply andb_true_iff in Hs. destruct Hs as [Hx Hs].
    apply negb_true_iff in Hx.
    unfold match_at. rewrite (head_char_mismatch ic r a Hh _ _ _ _ Hx).
    now rewrite IH.
Qed.

Lemma search_fails_inside ic r s2 : forall p,
  fails_inside ic r p s2 = true ->
  search ic r s2 = None -> search ic r (p ++ s2) = None.
Proof.
  induction p as [|x p IH]; intros Hp Hs; [assumption|].
  simpl in Hp. change (String x p ++ s2) with (String x (p ++ s2)) in *.
  simpl. destruct (match_at ic r (String x (p ++ s2))); [discriminate|].
  now rewrite IH.
Qed.

Lemma all_chars_app p s1 s2 :
  all_chars p (s1 ++ s2) = all_chars p s1 && all_chars p s2.
Proof.
  induction s1 as [|x s1 IH]; simpl; [reflexivity|].
  now rewrite IH, andb_assoc.
Qed.

Lemma all_chars_impl (p q : ascii -> bool) s :
  (forall x, p x = true -> q x = true) ->
  all_chars p s = true -> all_chars q s = true.
Proof.
  intros Hpq. induction s as [|x s IH]; simpl; [reflexivity|].
  intros H. apply andb_true_iff in H. destruct H as [Hx Hs].
  now rewrite (Hpq _ Hx), IH.
Qed.

Ltac bool_N :=
  repeat match goal with
         | H : context [(?u <=? ?v)%N] |- _ =>
             destruct (N.leb_spec u v); simpl in H
         | H : context [(?u =? ?v)%N] |- _ =>
             destruct (N.eqb_spec u v); simpl in H
         | |- context [(?u <=? ?v)%N] =>
             destruct (N.leb_spec u v); simpl
         | |- context [(?u =? ?v)%N] =>
             destruct (N.eqb_spec u v); simpl
         end;
  try discriminate; try reflexivity; try lia.

(** A digit folds to itself. *)
Lemma canonicalize_digit x :
  Js.is_digit x = true -> Js.canonicalize x = Js.code x.
Proof.
  unfold Js.is_digit, Js.canonicalize, Js.is_lower, Js.between.
  generalize (Js.code x). intros n H. bool_N.
Qed.

(** So it matches no literal that folds outside 0-9. *)
Lemma digit_mismatch a x :
  Js.between 48 57 (Js.canonicalize a) = false ->
  Js.is_digit x = true -> negb (char_match true a x) = true.
Proof.
  intros Ha Hx. unfold char_match. rewrite (canonicalize_digit x Hx).
  apply negb_true_iff. apply N.eqb_neq. intros E. rewrite E in Ha.
  unfold Js.is_digit in Hx. congruence.
Qed.

(** On the two reference questions no pattern that starts with a letter
    other than the question's own can match: the literal prefix of the
    question admits no match attempt, and what follows are digits and
    one punctuation mark. *)
Lemma no_match_in_question (p : pattern) (a : ascii) (q n t : string) :
  ignoreCase p = true ->
  head_char (regex p) = Some a ->
  Js.between 48 57 (Js.canonicalize a) = false ->
  all_chars (fun x => negb (char_match true a x)) t = true ->
  (forall rest, fails_inside true (regex p) q rest = true) ->
  all_chars Js.is_digit n = true ->
  matches_of p (q ++ n ++ t) = None.
Proof.
  intros Hic Hh Ha Ht Hq Hn. unfold matches_of, str_match. rewrite Hic.
  rewrite search_fails_inside; [reflexivity | apply Hq |].
  apply (search_head_mismatch true _ a Hh).
  rewrite all_chars_app, Ht, andb_true_r.
  eapply all_chars_impl; [|exact Hn]. intros x. now apply digit_mismatch.
Qed.

(* ================================================================== *)
(** ** What a match consists of                                        *)
(* ================================================================== *)

Lemma repeat_run ic greedy r :
  (forall k s c res, m ic r k s c = Some res ->
     exists s' c', run ic r s c s' c' /\ k s' c' = Some res) ->
  forall fuel k s c res,
    repeat greedy (m ic r) k fuel s c = Some res ->
    exists s' c', run ic (Star greedy r) s c s' c' /\ k s' c' = Some res.
Proof.
  intros Hstep fuel. induction fuel as [|fuel IH]; intros k s c res H.
  - simpl in H. destruct greedy; simpl in H.
    + exists s, c. split; [constructor | assumption].
    + apply orElse_Some in H. destruct H as [H | [_ H]]; [|discriminate].
      exists s, c. split; [constructor | assumption].
  - simpl in H.
    assert (Hagain : forall res,
      m ic r (fun s' c' =>
                if (String.length s' <? String.length s)%nat
                then repeat greedy (m ic r) k fuel s' c' else None) s c
      = Some res ->
      exists s' c', run ic (Star greedy r) s c s' c' /\ k s' c' = Some res).
    { intros res0 H0. apply Hstep in H0.
      destruct H0 as (s1 & c1 & Hrun & H1).
      destruct (String.length s1 <? String.length s)%nat; [|discriminate].
      apply IH in H1. destruct H1 as (s2 & c2 & Hrun2 & H2).
      exists s2, c2. split; [|assumption].
      eapply run_Star_more; eassumption. }
    destruct greedy; apply orElse_Some in H.
    + destruct H as [H | [_ H]]; [now apply Hagain|].
      exists s, c. split; [constructor | assumption].
    + destruct H as [H | [_ H]]; [|now apply Hagain].
      exists s, c. split; [constructor | assumption].
Qed.

(** Every success of the matcher is a match of the expression. *)
Lemma m_run ic r : forall k s c res,
  m ic r k s c = Some res ->
  exists s' c', run ic r s c s' c' /\ k s' c' = Some res.
Proof.
  induction r as [ |a| | | | |r1 IH1 r2 IH2|r1 IH1 r2 IH2|g r1 IH1|i r1 IH1];
    intros k s c res H; simpl in H.
  - exists s, c. split; [constructor | assumption].
  - apply one_Some in H. destruct H as (x & s' & -> & Hx & H).
    exists s', c. split; [now constructor | assumption].
  - apply one_Some in H. destruct H as (x & s' & -> & Hx & H).
    exists s', c. split; [|assumption].
    constructor. now apply negb_true_iff.
  - apply one_Some in H. destruct H as (x & s' & -> & Hx & H).
    exists s', c. split; [now constructor | assumption].
  - apply one_Some in H. destruct H as (x & s' & -> & Hx & H).
    exists s', c. split; [now constructor | assumption].
  - destruct s; [|discriminate].
    exists "", c. split; [constructor | assumption].
  - apply IH1 in H. destruct H as (s1 & c1 & Hrun1 & H).
    apply IH2 in H. destruct H as (s2 & c2 & Hrun2 & H).
    exists s2, c2. split; [|assumption]. econstructor; eassumption.
  - apply orElse_Some in H. destruct H as [H | [_ H]].
    + apply IH1 in H. destruct H as (s1 & c1 & Hrun & H).
      exists s1, c1. split; [now apply run_Alt_l | assumption].
    + apply IH2 in H. destruct H as (s1 & c1 & Hrun & H).
      exists s1, c1. split; [now apply run_Alt_r | assumption].
  - now apply repeat_run in H.
  - apply IH1 in H. destruct H as (s1 & c1 & Hrun & H).
    eexists s1, _. split; [|eassumption]. now constructor.
Qed.

Lemma substring_prefix (w s : string) :
  substring 0 (String.length (w ++ s) - String.length s) (w ++ s) = w.
Proof.
  rewrite length_append.
  replace (String.length w + String.length s - String.length s)
    with (String.length w) by lia.
  induction w as [|x w IH]; simpl; [now destruct s | now rewrite IH].
Qed.

(** The repetition of a character class consumes characters of the
    class and leaves the captures alone. *)
Lemma run_Star_class ic g r (p : ascii -> bool) :
  (forall s c s' c', run ic r s c s' c' ->
     exists x, s = String x s' /\ p x = true /\ c' = c) ->
  forall s c s' c', run ic (Star g r) s c s' c' ->
    exists w, s = w ++ s' /\ all_chars p w = true /\ c' = c.
Proof.
  intros Hr s c s' c' H.
  remember (Star g r) as r0 eqn:E.
  induction H; inversion E; subst.
  - now exists "".
  - apply Hr in H. destruct H as (x & -> & Hx & ->).
    destruct (IHrun2 eq_refl) as (w & -> & Hw & ->).
    exists (String x w). simpl. now rewrite Hx, Hw.
Qed.

Lemma run_Digit_inv ic s c s' c' :
  run ic Digit s c s' c' ->
  exists x, s = String x s' /\ Js.is_digit x = true /\ c' = c.
Proof. inversion 1; subst. now exists x. Qed.

Lemma run_Space_inv ic s c s' c' :
  run ic Space s c s' c' ->
  exists x, s = String x s' /\ Js.is_space x = true /\ c' = c.
Proof. inversion 1; subst. now exists x. Qed.

Lemma run_Any_inv ic s c s' c' :
  run ic Any s c s' c' ->
  exists x, s = String x s'
            /\ negb (Js.is_line_terminator x) = true /\ c' = c.
Proof.
  inversion 1; subst. exists x. repeat split. now apply negb_true_iff.
Qed.

Lemma run_Chr_inv a s c s' c' :
  run false (Chr a) s c s' c' -> s = String a s' /\ c' = c.
Proof.
  inversion 1; subst. unfold char_match in *.
  match goal with H : Ascii.eqb _ _ = true |- _ =>
    apply Ascii.eqb_eq in H; subst end.
  auto.
Qed.

(** A match of the expression of the rules has the shape
    [<integer>: '<label>'], and its groups are the integer's digits and
    the label. *)
Lemma rule_regex_run s s' c' :
  run false rule_regex s [] s' c' ->
  exists code label text,
    s = text ++ s'
    /\ rule_shape code label text
    /\ cap 1 c' = Some code /\ cap 2 c' = Some label.
Proof.
  unfold rule_regex, seqs, digits, lazy_any, Plus. intros H.
  repeat match goal with
         | H : run _ (Seq _ _) _ _ _ _ |- _ => inversion H; subst; clear H
         | H : run _ (Group _ _) _ _ _ _ |- _ => inversion H; subst; clear H
         | H : run _ Eps _ _ _ _ |- _ => inversion H; subst; clear H
         | H : run _ (Chr _) _ _ _ _ |- _ =>
             apply run_Chr_inv in H; destruct H as [? ?]; subst
         | H : run _ Digit _ _ _ _ |- _ =>
             apply run_Digit_inv in H; destruct H as (d & ? & Hd & ?); subst
         | H : run _ (Star _ Digit) _ _ _ _ |- _ =>
             apply (run_Star_class false true Digit Js.is_digit
                      (run_Digit_inv false)) in H;
             destruct H as (ds & ? & Hds & ?); subst
         | H : run _ (Star _ Space) _ _ _ _ |- _ =>
             apply (run_Star_class false true Space Js.is_space
                      (run_Space_inv false)) in H;
             destruct H as (ws & ? & Hws & ?); subst
         | H : run _ (Star _ Any) _ _ _ _ |- _ =>
             apply (run_Star_class false false Any
                      (fun x => negb (Js.is_line_terminator x))
                      (run_Any_inv false)) in H;
             destruct H as (label & ? & Hlabel & ?); subst
         end.
  exists (String d ds), label,
    (String d ds ++ ":" ++ ws ++ "'" ++ label ++ "'").
  split; [|split; [|split]].
  - simpl. repeat (rewrite append_assoc; simpl). reflexivity.
  - exists ws. repeat split; try assumption; try discriminate.
    simpl. now rewrite Hd, Hds.
  - cbn [cap Nat.eqb]. f_equal.
    apply (substring_prefix (String d ds)).
  - cbn [cap Nat.eqb]. f_equal. apply substring_prefix.
Qed.

Lemma match_at_run ic r s rest c :
  match_at ic r s = Some (rest, c) -> run ic r s [] rest c.
Proof.
  unfold match_at. intros H. apply m_run in H.
  destruct H as (s' & c' & Hrun & H). now inversion H; subst.
Qed.

(** A successful search has skipped a part of the input and then found
    a match of the expression. *)
Lemma search_run ic r : forall s n rest c,
  search ic r s = Some (n, rest, c) ->
  exists skipped from c0,
    s = skipped ++ from /\ run ic r from [] rest c0
    /\ cap 1 c = cap 1 c0 /\ cap 2 c = cap 2 c0.
Proof.
  induction s as [|x s IH]; intros n rest c H; simpl in H.
  - destruct (match_at ic r "") as [[rest0 c0]|] eqn:E; [|discriminate].
    inversion H; subst; clear H. apply match_at_run in E.
    now exists "", "", c0.
  - destruct (match_at ic r (String x s)) as [[rest0 c0]|] eqn:E.
    + inversion H; subst; clear H. apply match_at_run in E.
      now exists "", (String x s), c0.
    + destruct (search ic r s) as [[[n0 rest0] c0]|] eqn:E0; [|discriminate].
      inversion H; subst; clear H.
      destruct (IH _ _ _ eq_refl) as (skipped & from & c1 & -> & Hrun & H1 & H2).
      now exists (String x skipped), from, c1.
Qed.

(** Every occurrence the scan reports is a part of the text of the
    shape [<integer>: '<label>']. *)
Lemma scan_shape : forall fuel s code label,
  In (code, label) (scan fuel s) ->
  exists p text q, s = p ++ text ++ q /\ rule_shape code label text.
Proof.
  induction fuel as [|fuel IH]; intros s code label Hin; [destruct Hin|].
  simpl in Hin.
  destruct (search false rule_regex s) as [[[n rest] c]|] eqn:E;
    [|destruct Hin].
  apply search_run in E.
  destruct E as (skipped & from & c0 & -> & Hrun & H1 & H2).
  apply rule_regex_run in Hrun.
  destruct Hrun as (code0 & label0 & text & -> & Hshape & Hc1 & Hc2).
  rewrite H1, Hc1, H2, Hc2 in Hin. destruct Hin as [Heq | Hin].
  - inversion Heq; subst. now exists skipped, text, rest.
  - apply IH in Hin. destruct Hin as (p & text' & q & -> & Hshape').
    exists (skipped ++ text ++ p), text', q. split; [|assumption].
    now rewrite !append_assoc.
Qed.

(* ================================================================== *)
(** ** The value mapper                                                *)
(* ================================================================== *)

Lemma drop_append (p s : string) : drop (String.length p) (p ++ s) = s.
Proof. induction p as [|x p IH]; simpl; [now destruct s | assumption]. Qed.

Lemma drop_suffix (s rule : string) :
  suffix_of s rule ->
  drop (String.length rule - String.length s) rule = s.
Proof.
  intros [p ->]. rewrite length_append.
  replace (String.length p + String.length s - String.length s)
    with (String.length p) by lia.
  apply drop_append.
Qed.

(** [re.exec] at the [lastIndex] that a suffix of the rule determines
    is the search in that suffix. *)
Lemma exec_g_suffix (s rule : string) :
  suffix_of s rule ->
  exec_g false rule_regex rule (String.length rule - String.length s)
  = match search false rule_regex s with
    | Some (_, rest, c) => (Some c, String.length rule - String.length rest)
    | None => (None, 0)
    end.
Proof.
  intros Hs. unfold exec_g. rewrite (drop_suffix _ _ Hs).
  destruct (Nat.ltb_spec (String.length rule)
              (String.length rule - String.length s)); [lia | reflexivity].
Qed.

Lemma rule_regex_search s n rest c :
  search false rule_regex s = Some (n, rest, c) ->
  suffix_of rest s /\ String.length rest < String.length s
  /\ exists code label, cap 1 c = Some code /\ cap 2 c = Some label.
Proof.
  intros H. apply search_post in H. destruct H as (Hs & Hd & Hn).
  split; [assumption|]. split; [now apply Hn|].
  assert (H1 : cap 1 c <> None) by (apply Hd; simpl; tauto).
  assert (H2 : cap 2 c <> None) by (apply Hd; simpl; tauto).
  destruct (cap 1 c) as [code|]; [|congruence].
  destruct (cap 2 c) as [label|]; [|congruence].
  now exists code, label.
Qed.

(** More fuel than the length of the text changes nothing. *)
Lemma scan_fuel : forall fuel1 fuel2 s,
  String.length s < fuel1 -> String.length s < fuel2 ->
  scan fuel1 s = scan fuel2 s.
Proof.
  induction fuel1 as [|fuel1 IH]; intros fuel2 s H1 H2; [lia|].
  destruct fuel2 as [|fuel2]; [lia|]. simpl.
  destruct (search false rule_regex s) as [[[n rest] c]|] eqn:E;
    [|reflexivity].
  apply rule_regex_search in E.
  destruct E as (_ & Hlen & code & label & -> & ->).
  f_equal. apply IH; lia.
Qed.

(** The loop over the matches returns the integer of the first
    occurrence with the label. *)
Lemma exec_loop_scan value rule : forall fuel s,
  suffix_of s rule ->
  exec_loop fuel rule (String.length rule - String.length s)
    (Js.toLowerCase value)
  = Ok (option_map (fun occ => Js.parseInt (fst occ))
          (find (label_is value) (scan fuel s))).
Proof.
  induction fuel as [|fuel IH]; intros s Hs; [reflexivity|].
  simpl. rewrite (exec_g_suffix _ _ Hs).
  destruct (search false rule_regex s) as [[[n rest] c]|] eqn:E;
    [|reflexivity].
  apply rule_regex_search in E.
  destruct E as (Hrest & Hlen & code & label & H1 & H2).
  unfold group. rewrite H1, H2. simpl. unfold label_is at 1. simpl.
  destruct (Js.toLowerCase label =? Js.toLowerCase value); [reflexivity|].
  apply IH. eapply suffix_of_trans; eassumption.
Qed.

(** The loop of the source ends because the matches run out: any
    bound above the length of the rule gives the same result. *)
Lemma exec_loop_fuel value rule fuel :
  String.length rule < fuel ->
  exec_loop fuel rule 0 (Js.toLowerCase value)
  = exec_loop (S (String.length rule)) rule 0 (Js.toLowerCase value).
Proof.
  intros Hfuel.
  pose proof (exec_loop_scan value rule fuel rule (suffix_of_refl rule)) as H1.
  pose proof (exec_loop_scan value rule (S (String.length rule)) rule
                (suffix_of_refl rule)) as H2.
  rewrite Nat.sub_diag in H1, H2. rewrite H1, H2.
  now rewrite (scan_fuel fuel (S (String.length rule)) rule) by lia.
Qed.

Lemma find_app {A} (f : A -> bool) (l1 l2 : list A) :
  find f (l1 ++ l2)%list
  = match find f l1 with Some x => Some x | None => find f l2 end.
Proof.
  induction l1 as [|a l1 IH]; simpl; [reflexivity|].
  now destruct (f a).
Qed.

Lemma rules_loop_occurrences value : forall rules,
  rules_loop rules (Js.toLowerCase value)
  = Ok (option_map (fun occ => Js.parseInt (fst occ))
          (find (label_is value) (flat_map occurrences rules))).
Proof.
  induction rules as [|rule rules IH]; [reflexivity|].
  cbn [rules_loop flat_map]. rewrite find_app.
  pose proof (exec_loop_scan value rule (S (String.length rule)) rule
                (suffix_of_refl rule)) as H.
  rewrite Nat.sub_diag in H. rewrite H. unfold occurrences.
  destruct (find (label_is value) (scan (S (String.length rule)) rule));
    simpl; [reflexivity | apply IH].
Qed.

(** The value a filter contributes is [mapValue] of its column and raw
    value; it is never an exception. *)
Lemma filterValue_mapValue column value :
  filterValue column value = Ok (mapValue column value).
Proof.
  unfold filterValue, mapValue, rules_of, findColumnValueFromBusinessRule.
  destruct (Column.businessRules column) as [[|rule rules]|];
    [reflexivity | | reflexivity].
  rewrite rules_loop_occurrences. simpl.
  destruct (find _ _) as [[code label]|]; reflexivity.
Qed.

(* ================================================================== *)
(** ** The string tests of name resolution                             *)
(* ================================================================== *)

Lemma prefix_spec (sub s : string) :
  prefix sub s = true <-> exists q, s = sub ++ q.
Proof.
  revert s. induction sub as [|a sub IH]; intros s.
  - destruct s; simpl; split; intros _; eauto.
  - destruct s as [|b s]; simpl.
    + split; [discriminate | intros [q H]; discriminate].
    + destruct (ascii_dec a b) as [->|Hab].
      * rewrite IH. split; intros [q H]; exists q; [now rewrite H|].
        now inversion H.
      * split; [discriminate|]. intros [q H]. inversion H. congruence.
Qed.

(** [includes] is the occurrence of the argument somewhere in the
    text. *)
Lemma includes_spec (s sub : string) :
  Js.includes s sub = true <-> exists p q, s = p ++ sub ++ q.
Proof.
  induction s as [|a s IH].
  - change (Js.includes "" sub) with (prefix sub "" || false).
    rewrite orb_false_r, prefix_spec. split.
    + intros [q H]. now exists "", q.
    + intros (p & q & H). destruct p; [now exists q|discriminate].
  - change (Js.includes (String a s) sub)
      with (prefix sub (String a s) || Js.includes s sub).
    rewrite orb_true_iff, prefix_spec, IH. split.
    + intros [[q H] | (p & q & H)].
      * now exists "", q.
      * exists (String a p), q. simpl. now rewrite H.
    + intros (p & q & H). destruct p as [|b p].
      * left. now exists q.
      * right. inversion H. now exists p, q.
Qed.

Lemma substring_append (p s : string) :
  substring (String.length p) (String.length s) (p ++ s) = s.
Proof.
  induction p as [|a p IH]; simpl; [|assumption].
  induction s as [|b s IHs]; simpl; [reflexivity | now rewrite IHs].
Qed.

Lemma substring_split : forall n (s : string),
  n <= String.length s ->
  s = substring 0 n s ++ substring n (String.length s - n) s.
Proof.
  induction n as [|n IH]; intros s Hn.
  - rewrite Nat.sub_0_r. simpl.
    replace (substring 0 0 s) with "" by now destruct s.
    pose proof (substring_append "" s) as H. simpl in H. now rewrite H.
  - destruct s as [|a s]; simpl in *; [lia|].
    f_equal. apply IH. lia.
Qed.

(** [endsWith] is the decomposition of the text into a prefix and the
    argument. *)
Lemma endsWith_spec (s suffix : string) :
  Js.endsWith s suffix = true <-> ends_with s suffix.
Proof.
  unfold Js.endsWith, ends_with. rewrite andb_true_iff, Nat.leb_le, String.eqb_eq.
  split.
  - intros [Hlen H].
    exists (substring 0 (String.length s - String.length suffix) s).
    pose proof (substring_split (String.length s - String.length suffix) s)
      as Hsplit.
    replace (String.length s - (String.length s - String.length suffix))
      with (String.length suffix) in Hsplit by lia.
    rewrite H in Hsplit. apply Hsplit. lia.
  - intros [p ->]. rewrite length_append. split; [lia|].
    replace (String.length p + String.length suffix - String.length suffix)
      with (String.length p) by lia.
    apply substring_append.
Qed.

Lemma id_test_spec columnName column :
  id_test columnName column = true <-> is_id_column columnName.
Proof.
  unfold id_test, is_id_column.
  rewrite orb_true_iff, endsWith_spec, String.eqb_eq. tauto.
Qed.

Lemma status_test_spec columnName column :
  status_test columnName column = true <-> is_status_column columnName.
Proof.
  unfold status_test, is_status_column.
  now rewrite orb_true_iff, !endsWith_spec.
Qed.

Lemma name_test_spec name columnName column :
  name_test (Js.toLowerCase name) columnName column = true
  <-> contains_ci (Column.businessName column) name.
Proof. unfold name_test, contains_ci. apply includes_spec. Qed.

(* ================================================================== *)
(** ** Name resolution                                                 *)
(* ================================================================== *)

Lemma first_with_cons_skip {A} (P : string -> A -> Prop) e d r :
  ~ P (fst e) (snd e) -> first_with P d r -> first_with P (e :: d) r.
Proof.
  intros He. destruct r as [hit|]; simpl.
  - intros (d1 & d2 & -> & Hhit & Hd1).
    exists (e :: d1), d2. repeat split; auto.
  - intros Hd. now constructor.
Qed.

Lemma first_with_cons_hit {A} (P : string -> A -> Prop) e d :
  P (fst e) (snd e) -> first_with P (e :: d) (Some e).
Proof. intros He. exists [], d. repeat split; auto. Qed.

Lemma column_loop_first (test : string -> Column.t -> bool)
    (P : string -> Column.t -> Prop) :
  (forall k c, test k c = true <-> P k c) ->
  forall cols, first_with P cols (column_loop test cols).
Proof.
  intros Htest. induction cols as [|[k c] cols IH]; simpl.
  - constructor.
  - destruct (test k c) eqn:E.
    + apply (first_with_cons_hit P (k, c)). now apply Htest.
    + apply first_with_cons_skip; [|assumption].
      simpl. rewrite <- Htest. congruence.
Qed.

Lemma findTableByBusinessName_first contract name :
  first_with (fun _ t => contains_ci (Table.businessName t) name)
    (tables contract) (findTableByBusinessName contract name).
Proof.
  unfold findTableByBusinessName.
  induction (tables contract) as [|[k t] ts IH]; simpl.
  - constructor.
  - destruct (Js.includes _ _) eqn:E.
    + apply (first_with_cons_hit _ (k, t)). simpl. now apply includes_spec.
    + apply first_with_cons_skip; [|assumption].
      simpl. unfold contains_ci. rewrite <- includes_spec. congruence.
Qed.

Lemma first_with_In {A} (P : string -> A -> Prop) d e :
  first_with P d (Some e) -> In e d.
Proof. intros (d1 & d2 & -> & _). apply in_elt. Qed.

Lemma column_loop_In test cols found :
  column_loop test cols = Some found -> In found cols.
Proof.
  induction cols as [|[k c] cols IH]; simpl; [discriminate|].
  destruct (test k c); [|auto]. intros H. inversion H. now left.
Qed.

Lemma findColumnByBusinessName_In table name found :
  findColumnByBusinessName table name = Some found ->
  In found (Table.columns table).
Proof.
  unfold findColumnByBusinessName.
  destruct (Js.toLowerCase name =? "id").
  - destruct (column_loop id_test _) eqn:E1.
    + intros H; inversion H; subst. eapply column_loop_In; eassumption.
    + destruct (Js.toLowerCase name =? "status").
      * destruct (column_loop status_test _) eqn:E2.
        -- intros H; inversion H; subst. eapply column_loop_In; eassumption.
        -- apply column_loop_In.
      * apply column_loop_In.
  - destruct (Js.toLowerCase name =? "status").
    + destruct (column_loop status_test _) eqn:E2.
      * intros H; inversion H; subst. eapply column_loop_In; eassumption.
      * apply column_loop_In.
    + apply column_loop_In.
Qed.

Lemma findTableByBusinessName_In contract name found :
  findTableByBusinessName contract name = Some found ->
  In found (tables contract).
Proof.
  intros H. pose proof (findTableByBusinessName_first contract name) as F.
  rewrite H in F. eapply first_with_In; eassumption.
Qed.

(* ================================================================== *)
(** ** The assembly of the query                                       *)
(* ================================================================== *)

Lemma mapM_Ok {A B} (f : A -> result B) : forall l bs,
  mapM f l = Ok bs -> Forall2 (fun a b => f a = Ok b) l bs.
Proof.
  induction l as [|a l IH]; simpl; intros bs H.
  - inversion H. constructor.
  - destruct (f a) as [b|e] eqn:Ea; simpl in H; [|discriminate].
    destruct (mapM f l) as [bs'|e]; simpl in H; [|discriminate].
    inversion H; subst. constructor; auto.
Qed.

Lemma mapM_Throw {A B} (f : A -> result B) : forall l e,
  mapM f l = Throw e -> exists a, In a l /\ f a = Throw e.
Proof.
  induction l as [|a l IH]; simpl; intros e H; [discriminate|].
  destruct (f a) as [b|e'] eqn:Ea; simpl in H.
  - destruct (mapM f l) as [bs|e'] eqn:El; simpl in H; [discriminate|].
    inversion H; subst. destruct (IH e eq_refl) as (a' & Hin & Ha').
    exists a'. auto.
  - inversion H; subst. exists a. auto.
Qed.

Lemma Forall2_In_l {A B} (R : A -> B -> Prop) l1 l2 a :
  Forall2 R l1 l2 -> In a l1 -> exists b, In b l2 /\ R a b.
Proof.
  induction 1 as [|x y l1 l2 Hxy H IH]; intros Hin; [destruct Hin|].
  destruct Hin as [<- | Hin].
  - exists y. split; [now left | assumption].
  - destruct (IH Hin) as (b & Hb & Hab). exists b. split; [now right | auto].
Qed.

(** The two outcomes of the callback of [parsed.columns.map]. *)
Lemma selectColumn_Ok tableInfo colName item :
  selectColumn tableInfo colName = Ok item <->
  select_item (snd tableInfo) colName item.
Proof.
  unfold selectColumn, select_item.
  destruct (String.eqb_spec colName "*") as [->|Hne].
  - split.
    + intros H. inversion H. now left.
    + intros [[_ ->] | [Hne _]]; [reflexivity | congruence].
  - destruct (findColumnByBusinessName (snd tableInfo) colName) as [ci|].
    + split.
      * intros H. inversion H. right. split; [assumption|]. now exists ci.
      * intros [[-> _] | (_ & ci' & Hci & ->)]; congruence.
    + split; [discriminate|].
      intros [[-> _] | (_ & ci' & Hci & _)]; congruence.
Qed.

Lemma selectColumn_Throw tableInfo colName e :
  selectColumn tableInfo colName = Throw e <->
  colName <> "*"
  /\ findColumnByBusinessName (snd tableInfo) colName = None
  /\ e = column_not_found colName (fst tableInfo).
Proof.
  unfold selectColumn.
  destruct (String.eqb_spec colName "*") as [->|Hne].
  - split; [discriminate | intros [H _]; congruence].
  - destruct (findColumnByBusinessName (snd tableInfo) colName) as [ci|].
    + split; [discriminate | intros (_ & H & _); discriminate].
    + split.
      * intros H. inversion H. auto.
      * intros (_ & _ & ->). reflexivity.
Qed.

(** A successful [forEach] has resolved every filter column, and has
    pushed one clause and one parameter per filter, in filter order. *)
Lemma forEach_filter_Ok tableInfo : forall fs w p w' p',
  forEach_filter tableInfo fs w p = Ok (w', p') ->
  exists resolved,
    Forall2 (filter_column (snd tableInfo)) fs resolved
    /\ w' = (w ++ map clause_of (combine fs resolved))%list
    /\ p' = (p ++ map param_of (combine fs resolved))%list.
Proof.
  induction fs as [|f fs IH]; simpl; intros w p w' p' H.
  - inversion H; subst. exists []. rewrite !app_nil_r.
    repeat split. constructor.
  - destruct (findColumnByBusinessName (snd tableInfo) (column f))
      as [ci|] eqn:E; [|discriminate].
    rewrite filterValue_mapValue in H. simpl in H.
    apply IH in H. destruct H as (resolved & HF & -> & ->).
    exists (ci :: resolved). split; [now constructor|].
    simpl. now rewrite <- !app_assoc.
Qed.

(** A [forEach] that throws has met a filter column it cannot resolve;
    the value mapper never throws. *)
Lemma forEach_filter_Throw tableInfo : forall fs w p e,
  forEach_filter tableInfo fs w p = Throw e ->
  exists f, In f fs
            /\ findColumnByBusinessName (snd tableInfo) (column f) = None
            /\ e = column_not_found (column f) (fst tableInfo).
Proof.
  induction fs as [|f fs IH]; simpl; intros w p e H; [discriminate|].
  destruct (findColumnByBusinessName (snd tableInfo) (column f))
    as [ci|] eqn:E.
  - rewrite filterValue_mapValue in H. simpl in H.
    apply IH in H. destruct H as (f' & Hin & Hf').
    exists f'. auto.
  - inversion H; subst. exists f. auto.
Qed.

(** The decomposition of a successful assembly. *)
Lemma assembleQuery_Ok contract parsed out :
  assembleQuery contract parsed = Ok out ->
  exists tableInfo selectColumns resolved,
    findTableByBusinessName contract (target parsed) = Some tableInfo
    /\ Forall2 (select_item (snd tableInfo)) (columns parsed) selectColumns
    /\ Forall2 (filter_column (snd tableInfo)) (filters parsed) resolved
    /\ sql_query out
       = sql_text (fst tableInfo) selectColumns
           (map clause_of (combine (filters parsed) resolved))
    /\ params out = map param_of (combine (filters parsed) resolved).
Proof.
  unfold assembleQuery.
  destruct (findTableByBusinessName contract (target parsed))
    as [tableInfo|]; [|discriminate].
  destruct (mapM (selectColumn tableInfo) (columns parsed))
    as [sel|e] eqn:Esel; simpl; [|discriminate].
  destruct (forEach_filter tableInfo (filters parsed) [] [])
    as [[w p]|e] eqn:Ef; simpl; [|discriminate].
  intros H. inversion H; subst; clear H. simpl.
  apply forEach_filter_Ok in Ef. destruct Ef as (resolved & HF & -> & ->).
  exists tableInfo, sel, resolved. split; [reflexivity|].
  split.
  { apply mapM_Ok in Esel. eapply Forall2_impl; [|exact Esel].
    intros a b Hab. now apply selectColumn_Ok. }
  split; [assumption|]. split; [|reflexivity].
  unfold sql_text. simpl. now destruct (map clause_of _).
Qed.

(** The assembly fails only on a name it cannot resolve. *)
Lemma assembleQuery_Throw contract parsed e :
  assembleQuery contract parsed = Throw e ->
  (findTableByBusinessName contract (target parsed) = None
   /\ e = table_not_found (target parsed))
  \/ exists tableInfo name,
       findTableByBusinessName contract (target parsed) = Some tableInfo
       /\ unresolved (snd tableInfo) parsed name
       /\ e = column_not_found name (fst tableInfo).
Proof.
  unfold assembleQuery.
  destruct (findTableByBusinessName contract (target parsed))
    as [tableInfo|].
  2: { intros H. inversion H. now left. }
  intros H. right. exists tableInfo.
  destruct (mapM (selectColumn tableInfo) (columns parsed))
    as [sel|e'] eqn:Esel; simpl in H.
  - destruct (forEach_filter tableInfo (filters parsed) [] [])
      as [[w p]|e'] eqn:Ef; simpl in H; [discriminate|].
    inversion H; subst; clear H.
    apply forEach_filter_Throw in Ef. destruct Ef as (f & Hin & Hf & ->).
    exists (column f). split; [reflexivity|]. split; [|reflexivity].
    split; [|assumption]. right. now apply in_map.
  - inversion H; subst; clear H.
    apply mapM_Throw in Esel. destruct Esel as (a & Hin & Ha).
    apply selectColumn_Throw in Ha. destruct Ha as (Hne & Hf & ->).
    exists a. split; [reflexivity|]. split; [|reflexivity].
    split; [|assumption]. now left.
Qed.

(** An unresolved name makes the assembly fail. *)
Lemma unresolved_not_Ok contract parsed tableInfo name out :
  findTableByBusinessName contract (target parsed) = Some tableInfo ->
  unresolved (snd tableInfo) parsed name ->
  assembleQuery contract parsed <> Ok out.
Proof.
  intros Ht [Hname Hnone] H. apply assembleQuery_Ok in H.
  destruct H as (ti & sel & resolved & Ht' & Hsel & Hres & _).
  rewrite Ht in Ht'. inversion Ht'; subst ti; clear Ht'.
  destruct Hname as [[Hin Hne] | Hin].
  - destruct (Forall2_In_l _ _ _ _ Hsel Hin) as (item & _ & Hitem).
    destruct Hitem as [[-> _] | (_ & ci & Hci & _)]; congruence.
  - apply in_map_iff in Hin. destruct Hin as (f & <- & Hin).
    destruct (Forall2_In_l _ _ _ _ Hres Hin) as (ci & _ & Hci).
    unfold filter_column in Hci. congruence.
Qed.

Lemma buildQuery_Ok contract description out :
  buildQueryFromDescriptionLogic contract description = Ok out ->
  exists parsed,
    parseDescription description = Ok (Some parsed)
    /\ intent_shape parsed
    /\ assembleQuery contract parsed = Ok out.
Proof.
  unfold buildQueryFromDescriptionLogic.
  destruct (parseDescription_outcomes description)
    as [H | [H | (parsed & H & Hshape)]]; rewrite H; simpl;
    try discriminate.
  intros Hout. now exists parsed.
Qed.

(** With the constant operator every clause is an equality on the
    physical column. *)
Lemma clauses_equality table : forall fs resolved,
  Forall (fun f => operator f = "=") fs ->
  Forall2 (filter_column table) fs resolved ->
  map clause_of (combine fs resolved)
  = map equality_clause (map fst resolved).
Proof.
  intros fs resolved Hop HF. induction HF as [|f ci fs resolved Hf HF IH].
  - reflexivity.
  - inversion Hop; subst. simpl. rewrite IH by assumption.
    unfold clause_of at 1, equality_clause at 2. simpl.
    now replace (operator f) with "=".
Qed.

Lemma Forall2_length_eq {A B} (R : A -> B -> Prop) l1 l2 :
  Forall2 R l1 l2 -> List.length l1 = List.length l2.
Proof. induction 1; simpl; congruence. Qed.

Lemma resolved_In table : forall fs resolved,
  Forall2 (filter_column table) fs resolved ->
  Forall (fun c => In c (keys (Table.columns table))) (map fst resolved).
Proof.
  intros fs resolved HF. induction HF as [|f ci fs resolved Hf HF IH];
    simpl; constructor; [|assumption].
  apply in_map. eapply findColumnByBusinessName_In. exact Hf.
Qed.

Lemma params_mapped table : forall fs resolved,
  Forall2 (filter_column table) fs resolved ->
  Forall2 (fun f v => exists colInfo,
             findColumnByBusinessName table (column f) = Some colInfo
             /\ v = mapValue (snd colInfo) (value f))
    fs (map param_of (combine fs resolved)).
Proof.
  intros fs resolved HF. induction HF as [|f ci fs resolved Hf HF IH];
    simpl; constructor; [|assumption].
  exists ci. split; [exact Hf | reflexivity].
Qed.

(* ================================================================== *)
(** ** Counting a character in the statement                           *)
(* ================================================================== *)

Lemma count_char_append c s1 s2 :
  Js.count_char c (s1 ++ s2) = Js.count_char c s1 + Js.count_char c s2.
Proof.
  induction s1 as [|x s1 IH]; simpl; [reflexivity|]. rewrite IH. lia.
Qed.

(** Joining with a separator free of [c] adds up the counts. *)
Lemma count_char_join c sep : Js.count_char c sep = 0 ->
  forall l, Js.count_char c (Js.join sep l)
            = list_sum (map (Js.count_char c) l).
Proof.
  intros Hsep. unfold Js.join. induction l as [|s l IH]; [reflexivity|].
  destruct l as [|s' l].
  - simpl. lia.
  - change (String.concat sep (s :: s' :: l))
      with (s ++ sep ++ String.concat sep (s' :: l)).
    rewrite !count_char_append, Hsep, IH. simpl. lia.
Qed.

Lemma list_sum_const {A} (f : A -> nat) n : forall l,
  Forall (fun a => f a = n) l -> list_sum (map f l) = List.length l * n.
Proof.
  induction 1 as [|a l Ha Hl IH]; simpl; [reflexivity|].
  rewrite IH, Ha. lia.
Qed.

Lemma identifiers_without_table c contract tableInfo :
  identifiers_without c contract = true ->
  In tableInfo (tables contract) ->
  Js.count_char c (fst tableInfo) = 0
  /\ Forall (fun k => Js.count_char c k = 0)
       (keys (Table.columns (snd tableInfo))).
Proof.
  unfold identifiers_without. rewrite forallb_forall. intros H Hin.
  apply H in Hin. apply andb_true_iff in Hin. destruct Hin as [Ht Hc].
  apply Nat.eqb_eq in Ht. split; [assumption|].
  rewrite forallb_forall in Hc. unfold keys. apply Forall_forall.
  intros k Hk. apply in_map_iff in Hk. destruct Hk as (col & <- & Hcol).
  apply Nat.eqb_eq. now apply Hc.
Qed.

(** In the statement text, a character that no identifier contains
    occurs as often as the keywords and the clauses have it. *)
Lemma count_qmark_sql_text tableName sel cols :
  Js.count_char "?" tableName = 0 ->
  Forall (fun item => Js.count_char "?" item = 0) sel ->
  Forall (fun k => Js.count_char "?" k = 0) cols ->
  Js.count_char "?" (sql_text tableName sel (map equality_clause cols))
  = List.length cols.
Proof.
  intros Ht Hsel Hcols. unfold sql_text.
  assert (Hs : Js.count_char "?" (Js.join ", " sel) = 0).
  { rewrite count_char_join by reflexivity.
    rewrite (list_sum_const _ 0) by assumption. lia. }
  assert (Hc : Js.count_char "?" (Js.join " AND " (map equality_clause cols))
               = List.length cols).
  { rewrite count_char_join by reflexivity.
    rewrite (list_sum_const _ 1).
    - rewrite length_map. lia.
    - apply Forall_map. eapply Forall_impl; [|exact Hcols].
      intros k Hk. unfold equality_clause.
      rewrite count_char_append, Hk. reflexivity. }
  destruct (map equality_clause cols) as [|cl cls] eqn:E.
  - destruct cols; [|discriminate]. cbv beta iota zeta.
    rewrite !count_char_append, Hs, Ht. reflexivity.
  - cbv beta iota zeta.
    rewrite !count_char_append, Hs, Ht, Hc. simpl. lia.
Qed.

(* ================================================================== *)
(** ** The [i] flag: matching does not depend on letter case           *)
(* ================================================================== *)

Lemma In_all_ascii (x : ascii) : In x all_ascii.
Proof.
  unfold all_ascii. rewrite <- (ascii_nat_embedding x).
  apply in_map. apply in_seq. pose proof (nat_ascii_bounded x). lia.
Qed.

Lemma folding_classes x1 x2 :
  Js.canonicalize x1 = Js.canonicalize x2 ->
  Js.is_digit x1 = Js.is_digit x2
  /\ Js.is_space x1 = Js.is_space x2
  /\ Js.is_line_terminator x1 = Js.is_line_terminator x2.
Proof.
  intros H.
  assert (C : folding_respects_classes = true) by (vm_compute; reflexivity).
  unfold folding_respects_classes in C. rewrite forallb_forall in C.
  specialize (C x1 (In_all_ascii x1)). rewrite forallb_forall in C.
  specialize (C x2 (In_all_ascii x2)).
  rewrite H, N.eqb_refl in C. simpl in C.
  apply andb_true_iff in C. destruct C as [C C3].
  apply andb_true_iff in C. destruct C as [C1 C2].
  apply Bool.eqb_prop in C1, C2, C3. auto.
Qed.

Lemma canonicalize_lower_char x :
  Js.canonicalize (Js.lower_char x) = Js.canonicalize x.
Proof.
  assert (C : lower_keeps_folding = true) by (vm_compute; reflexivity).
  unfold lower_keeps_folding in C. rewrite forallb_forall in C.
  apply N.eqb_eq. apply C. apply In_all_ascii.
Qed.

Lemma same_modulo_case_lower s : same_modulo_case (Js.toLowerCase s) s.
Proof.
  induction s as [|x s IH]; simpl; [exact I|].
  split; [apply canonicalize_lower_char | assumption].
Qed.

Lemma same_modulo_case_length : forall s1 s2,
  same_modulo_case s1 s2 -> String.length s1 = String.length s2.
Proof.
  induction s1 as [|x1 s1 IH]; destruct s2 as [|x2 s2]; simpl;
    try tauto. intros [_ H]. f_equal. auto.
Qed.

Lemma orElse_None {A B} (x y : option A) (x' y' : option B) :
  (x = None <-> x' = None) -> (y = None <-> y' = None) ->
  (orElse x y = None <-> orElse x' y' = None).
Proof.
  destruct x, x'; simpl; intros [H1 H2] H3; try assumption;
    try (split; discriminate).
  - specialize (H2 eq_refl). discriminate.
  - specialize (H1 eq_refl). discriminate.
Qed.

Lemma one_fail_together (p : ascii -> bool) k1 k2 :
  (forall x1 x2, Js.canonicalize x1 = Js.canonicalize x2 -> p x1 = p x2) ->
  fail_together k1 k2 -> fail_together (one p k1) (one p k2).
Proof.
  intros Hp Hk s1 s2 c1 c2 Hs.
  destruct s1 as [|x1 s1], s2 as [|x2 s2]; simpl in *; try tauto.
  destruct Hs as [Hx Hs]. rewrite (Hp _ _ Hx).
  destruct (p x2); [now apply Hk | tauto].
Qed.

Lemma repeat_fail_together greedy (step1 step2 : cont -> cont) :
  (forall k1 k2, fail_together k1 k2 -> fail_together (step1 k1) (step2 k2)) ->
  forall k1 k2, fail_together k1 k2 ->
  forall fuel, fail_together (repeat greedy step1 k1 fuel)
                             (repeat greedy step2 k2 fuel).
Proof.
  intros Hstep k1 k2 Hk fuel.
  induction fuel as [|fuel IH]; intros s1 s2 c1 c2 Hs.
  - simpl. destruct greedy; simpl.
    + now apply Hk.
    + apply orElse_None; [now apply Hk | tauto].
  - simpl.
    assert (Hagain :
      step1 (fun s' c' => if (String.length s' <? String.length s1)%nat
                          then repeat greedy step1 k1 fuel s' c' else None)
            s1 c1 = None
      <-> step2 (fun s' c' => if (String.length s' <? String.length s2)%nat
                              then repeat greedy step2 k2 fuel s' c' else None)
                s2 c2 = None).
    { apply Hstep; [|assumption].
      intros s1' s2' c1' c2' Hs'.
      rewrite (same_modulo_case_length _ _ Hs),
              (same_modulo_case_length _ _ Hs').
      destruct (String.length s2' <? String.length s2)%nat; [|tauto].
      now apply IH. }
    destruct greedy; apply orElse_None; try assumption; now apply Hk.
Qed.

Lemma m_fail_together r : forall k1 k2,
  fail_together k1 k2 -> fail_together (m true r k1) (m true r k2).
Proof.
  induction r as [ |a| | | | |r1 IH1 r2 IH2|r1 IH1 r2 IH2|g r1 IH1|i r1 IH1];
    intros k1 k2 Hk; simpl.
  - assumption.
  - apply one_fail_together; [|assumption].
    intros x1 x2 Hx. unfold char_match. now rewrite Hx.
  - apply one_fail_together; [|assumption].
    intros x1 x2 Hx. f_equal. now apply folding_classes.
  - apply one_fail_together; [|assumption].
    intros x1 x2 Hx. now apply folding_classes.
  - apply one_fail_together; [|assumption].
    intros x1 x2 Hx. now apply folding_classes.
  - intros s1 s2 c1 c2 Hs.
    destruct s1, s2; simpl in Hs; try tauto. now apply Hk.
  - apply IH1, IH2, Hk.
  - intros s1 s2 c1 c2 Hs. apply orElse_None; [apply IH1 | apply IH2]; auto.
  - intros s1 s2 c1 c2 Hs. rewrite (same_modulo_case_length _ _ Hs).
    apply repeat_fail_together; auto.
  - intros s1 s2 c1 c2 Hs. apply IH1; [|assumption].
    intros s1' s2' c1' c2' Hs'. now apply Hk.
Qed.

Lemma search_fail_together r : forall s1 s2,
  same_modulo_case s1 s2 ->
  (search true r s1 = None <-> search true r s2 = None).
Proof.
  assert (Hat : forall s1 s2, same_modulo_case s1 s2 ->
            (match_at true r s1 = None <-> match_at true r s2 = None)).
  { intros s1 s2 Hs. unfold match_at. apply m_fail_together; [|assumption].
    intros ? ? ? ? _. split; discriminate. }
  induction s1 as [|x1 s1 IH]; destruct s2 as [|x2 s2]; intros Hs;
    try (simpl in Hs; tauto).
  specialize (Hat _ _ Hs). cbn [search]. simpl in Hs. destruct Hs as [_ Hs].
  specialize (IH _ Hs).
  destruct (match_at true r (String x1 s1)) as [[? ?]|],
           (match_at true r (String x2 s2)) as [[? ?]|].
  - split; discriminate.
  - destruct Hat as [_ Hat]. specialize (Hat eq_refl). discriminate.
  - destruct Hat as [Hat _]. specialize (Hat eq_refl). discriminate.
  - destruct (search true r s1) as [[[? ?] ?]|],
             (search true r s2) as [[[? ?] ?]|].
    + split; discriminate.
    + destruct IH as [_ IH]. specialize (IH eq_refl). discriminate.
    + destruct IH as [IH _]. specialize (IH eq_refl). discriminate.
    + tauto.
Qed.

(** A pattern matches a description exactly when it matches the
    description in lower case. *)
Lemma matches_of_lower (p : pattern) (description : string) :
  ignoreCase p = true ->
  (matches_of p description = None
   <-> matches_of p (Js.toLowerCase description) = None).
Proof.
  intros Hic. unfold matches_of, str_match. rewrite Hic.
  pose proof (search_fail_together (regex p) _ _
                (same_modulo_case_lower description)) as H.
  destruct (search true (regex p) description) as [[[? ?] ?]|],
           (search true (regex p) (Js.toLowerCase description))
             as [[[? ?] ?]|]; try tauto; split; try discriminate.
  - destruct H as [H _]. specialize (H eq_refl). discriminate.
  - destruct H as [_ H]. specialize (H eq_refl). discriminate.
Qed.

(* ================================================================== *)
(** ** The bound on the iterations of a repetition is never reached    *)
(* ================================================================== *)

Lemma one_local p k1 k2 s c :
  agree_upto (String.length s) k1 k2 -> one p k1 s c = one p k2 s c.
Proof.
  intros Hk. destruct s as [|x s]; simpl; [reflexivity|].
  destruct (p x); [|reflexivity]. apply Hk. simpl. lia.
Qed.

Lemma repeat_local greedy (step : cont -> cont) :
  (forall k1 k2 s c, agree_upto (String.length s) k1 k2 ->
                     step k1 s c = step k2 s c) ->
  forall fuel k1 k2 s c, agree_upto (String.length s) k1 k2 ->
    repeat greedy step k1 fuel s c = repeat greedy step k2 fuel s c.
Proof.
  intros Hstep. induction fuel as [|fuel IH]; intros k1 k2 s c Hk; simpl.
  - now rewrite (Hk s c (le_n _)).
  - rewrite (Hk s c (le_n _)).
    rewrite (Hstep _ (fun s' c' =>
                        if (String.length s' <? String.length s)%nat
                        then repeat greedy step k2 fuel s' c' else None));
      [reflexivity|].
    intros s' c' Hs'.
    destruct (Nat.ltb_spec (String.length s') (String.length s));
      [|reflexivity].
    apply IH. intros s'' c'' Hs''. apply Hk. lia.
Qed.

(** The matcher calls its continuation on what is left of the input
    only. *)
Lemma m_local ic r : forall k1 k2 s c,
  agree_upto (String.length s) k1 k2 -> m ic r k1 s c = m ic r k2 s c.
Proof.
  induction r as [ |a| | | | |r1 IH1 r2 IH2|r1 IH1 r2 IH2|g r1 IH1|i r1 IH1];
    intros k1 k2 s c Hk; simpl; try (now apply one_local).
  - apply Hk, le_n.
  - destruct s; [apply Hk, le_n | reflexivity].
  - apply IH1. intros s' c' Hs'. apply IH2.
    intros s'' c'' Hs''. apply Hk. lia.
  - now rewrite (IH1 k1 k2), (IH2 k1 k2).
  - now apply repeat_local.
  - apply IH1. intros s' c' Hs'. now apply Hk.
Qed.

Lemma m_no_continuation ic r s c : m ic r (fun _ _ => None) s c = None.
Proof.
  destruct (m ic r (fun _ _ => None) s c) eqn:E; [|reflexivity].
  apply m_post in E. destruct E as (s' & c' & E & _). discriminate.
Qed.

(** Any bound at least as large as the input gives the same result:
    the recursion of [repeat] ends because the input does, never because
    of its bound. *)
Lemma repeat_fuel ic greedy r k : forall fuel1 fuel2 s c,
  String.length s <= fuel1 -> String.length s <= fuel2 ->
  repeat greedy (m ic r) k fuel1 s c = repeat greedy (m ic r) k fuel2 s c.
Proof.
  assert (Hzero : forall fuel s c, String.length s = 0 ->
            repeat greedy (m ic r) k fuel s c
            = repeat greedy (m ic r) k 0 s c).
  { intros [|fuel] s c Hs; [reflexivity|]. simpl.
    rewrite (m_local ic r _ (fun _ _ => None)).
    - now rewrite m_no_continuation.
    - intros s' c' _. rewrite Hs. reflexivity. }
  induction fuel1 as [|fuel1 IH]; intros fuel2 s c H1 H2.
  - symmetry. apply Hzero. lia.
  - destruct fuel2 as [|fuel2]; [apply Hzero; lia|]. simpl.
    rewrite (m_local ic r _
               (fun s' c' =>
                  if (String.length s' <? String.length s)%nat
                  then repeat greedy (m ic r) k fuel2 s' c' else None));
      [reflexivity|].
    intros s' c' Hs'.
    destruct (Nat.ltb_spec (String.length s') (String.length s));
      [|reflexivity].
    apply IH; lia.
Qed.

(* ================================================================== *)
(** ** The properties of the specification                             *)
(* ================================================================== *)

(** The two unit tests of the function. *)
Example test_supported_description :
  buildQueryFromDescriptionLogic mockContract
    "show me the customer name for the customer with id 123"
  = Ok {| sql_query := "SELECT c_name FROM CUST_MST WHERE c_id = ?;";
          params := [JStr "123"] |}.
Proof. vm_compute. reflexivity. Qed.

Example test_unsupported_description :
  buildQueryFromDescriptionLogic mockContract "This is not a supported query."
  = Throw (McpError UNSUPPORTED_OPERATION unsupported_message).
Proof. vm_compute. reflexivity. Qed.

(** The text of a successful call: keywords around physical names of
    the contract, with one equality clause per filter. *)
Lemma buildQuery_text contract description out :
  buildQueryFromDescriptionLogic contract description = Ok out ->
  exists parsed tableInfo selectColumns resolved,
    parseDescription description = Ok (Some parsed)
    /\ intent_shape parsed
    /\ findTableByBusinessName contract (target parsed) = Some tableInfo
    /\ Forall2 (select_item (snd tableInfo)) (columns parsed) selectColumns
    /\ Forall2 (filter_column (snd tableInfo)) (filters parsed) resolved
    /\ sql_query out
       = sql_text (fst tableInfo) selectColumns
           (map equality_clause (map fst resolved))
    /\ params out = map param_of (combine (filters parsed) resolved).
Proof.
  intros H. apply buildQuery_Ok in H. destruct H as (parsed & Hp & Hshape & H).
  apply assembleQuery_Ok in H.
  destruct H as (ti & sel & resolved & Ht & Hsel & Hres & Hsql & Hpar).
  exists parsed, ti, sel, resolved. repeat (split; [assumption|]).
  split; [|assumption]. rewrite Hsql. f_equal.
  apply (clauses_equality (snd ti)); [|assumption].
  now apply intent_shape_operator.
Qed.

Lemma select_item_In table colName item :
  select_item table colName item ->
  In item (keys (Table.columns table))
  \/ item = Js.join ", " (keys (Table.columns table)).
Proof.
  intros [[_ ->] | (_ & ci & Hci & ->)]; [now right | left].
  apply in_map. eapply findColumnByBusinessName_In. exact Hci.
Qed.

Lemma select_item_functional table : forall cols sel1 sel2,
  Forall2 (select_item table) cols sel1 ->
  Forall2 (select_item table) cols sel2 -> sel1 = sel2.
Proof.
  intros cols sel1 sel2 H1. revert sel2.
  induction H1 as [|a b cols sel1 Hab H1 IH]; intros sel2 H2;
    inversion H2; subst; [reflexivity|].
  f_equal; [|now apply IH].
  destruct Hab as [[-> ->] | (Hne & ci & Hci & ->)];
    match goal with
    | H : select_item _ _ _ |- _ =>
        destruct H as [[? ->] | (? & ci' & Hci' & ->)]
    end; congruence.
Qed.

(** The clauses depend on the columns and operators of the filters, not
    on their values. *)
Lemma clauses_same_request table : forall fs1 resolved1 fs2 resolved2,
  map column fs1 = map column fs2 ->
  map operator fs1 = map operator fs2 ->
  Forall2 (filter_column table) fs1 resolved1 ->
  Forall2 (filter_column table) fs2 resolved2 ->
  map clause_of (combine fs1 resolved1) = map clause_of (combine fs2 resolved2).
Proof.
  intros fs1 resolved1 fs2 resolved2 Hc Ho H1. revert fs2 resolved2 Hc Ho.
  induction H1 as [|f1 c1 fs1 resolved1 Hf1 H1 IH];
    intros fs2 resolved2 Hc Ho H2.
  - destruct fs2; [|discriminate]. inversion H2; subst. reflexivity.
  - destruct fs2 as [|f2 fs2]; [discriminate|].
    inversion H2; subst. simpl in Hc, Ho. inversion Hc. inversion Ho.
    simpl. f_equal.
    + unfold clause_of, filter_column in *. simpl.
      replace (operator f2) with (operator f1) by assumption.
      replace y with c1 by congruence. reflexivity.
    + now apply IH.
Qed.

(** C1. Whenever buildQueryFromDescriptionLogic succeeds, the statement
    is the fixed keywords around identifiers of the contract: the table
    name is a key of contract.tables, every entry of the select list is
    a key of the resolved table's columns or, for the wildcard, the
    comma-joined list of all of them, and every WHERE clause is a key of
    the resolved table's columns followed by the constant [ = ?].  No
    filter value reaches the statement: an intent with the same target,
    columns, filter columns and operators, whatever its filter values,
    assembles to the same statement. *)
Theorem literals_only_in_params contract description out :
  buildQueryFromDescriptionLogic contract description = Ok out ->
  exists parsed tableInfo selectColumns filterColumns,
    parseDescription description = Ok (Some parsed)
    /\ In tableInfo (tables contract)
    /\ Forall (fun item =>
                 In item (keys (Table.columns (snd tableInfo)))
                 \/ item = Js.join ", " (keys (Table.columns (snd tableInfo))))
         selectColumns
    /\ Forall (fun c => In c (keys (Table.columns (snd tableInfo))))
         filterColumns
    /\ List.length filterColumns = List.length (filters parsed)
    /\ sql_query out
       = sql_text (fst tableInfo) selectColumns
           (map equality_clause filterColumns)
    /\ forall parsed' out',
         same_request parsed parsed' ->
         assembleQuery contract parsed' = Ok out' ->
         sql_query out' = sql_query out.
Proof.
  intros H. pose proof H as Hbuild. apply buildQuery_text in H.
  destruct H as (parsed & ti & sel & resolved & Hp & Hshape & Ht & Hsel
                 & Hres & Hsql & Hpar).
  exists parsed, ti, sel, (map fst resolved).
  split; [assumption|].
  split; [eapply findTableByBusinessName_In; eassumption|].
  split.
  { clear - Hsel. induction Hsel; constructor; auto.
    eapply select_item_In; eassumption. }
  split; [eapply resolved_In; eassumption|].
  split; [rewrite length_map; symmetry;
          eapply Forall2_length_eq; eassumption|].
  split; [assumption|].
  intros parsed' out' (Htar & Hcols & Hfc & Hfo) H'.
  apply assembleQuery_Ok in H'.
  destruct H' as (ti' & sel' & resolved' & Ht' & Hsel' & Hres' & Hsql' & _).
  rewrite <- Htar, Ht in Ht'. inversion Ht'; subst ti'; clear Ht'.
  rewrite <- Hcols in Hsel'.
  rewrite (select_item_functional _ _ _ _ Hsel' Hsel) in Hsql'.
  rewrite Hsql', Hsql. f_equal.
  rewrite <- (clauses_equality (snd ti) (filters parsed) resolved);
    [|now apply intent_shape_operator | assumption].
  apply (clauses_same_request (snd ti)); auto.
Qed.

Lemma literals_only_in_params_witness :
  exists parsed tableInfo selectColumns filterColumns,
    parseDescription customer_question = Ok (Some parsed)
    /\ In tableInfo (tables plain_contract)
    /\ Forall (fun item =>
                 In item (keys (Table.columns (snd tableInfo)))
                 \/ item = Js.join ", " (keys (Table.columns (snd tableInfo))))
         selectColumns
    /\ Forall (fun c => In c (keys (Table.columns (snd tableInfo))))
         filterColumns
    /\ List.length filterColumns = List.length (filters parsed)
    /\ "SELECT c_name FROM cust_mst WHERE c_id = ?;"
       = sql_text (fst tableInfo) selectColumns
           (map equality_clause filterColumns)
    /\ forall parsed' out',
         same_request parsed parsed' ->
         assembleQuery plain_contract parsed' = Ok out' ->
         sql_query out' = "SELECT c_name FROM cust_mst WHERE c_id = ?;".
Proof.
  apply (literals_only_in_params plain_contract customer_question
           {| sql_query := "SELECT c_name FROM cust_mst WHERE c_id = ?;";
              params := [JStr "4"] |}).
  vm_compute. reflexivity.
Defined.

(** C2, as the claim states it, fails: on a contract with a question
    mark in a physical column name the statement of a successful call
    has one question mark and no parameter. *)
Lemma placeholder_parity_fails_with_qmark_identifier :
  exists out,
    buildQueryFromDescriptionLogic flags_contract
      "List all accounts in the 'Accounts'" = Ok out
    /\ sql_query out = "SELECT active? FROM acct;"
    /\ params out = []
    /\ Js.count_char "?" (sql_query out) <> List.length (params out).
Proof.
  eexists. split; [vm_compute; reflexivity|].
  split; [reflexivity|]. split; [reflexivity|]. simpl. discriminate.
Qed.

(** C2, amended. For every contract none of whose physical table and
    column names contains a question mark, and every description on
    which buildQueryFromDescriptionLogic succeeds, the number of
    question marks in sql_query equals params.length, and the i-th
    element of params is the mapped value of the i-th filter: the value
    [mapValue] gives for the column the filter resolves to and the
    filter's raw value. *)
Theorem placeholder_parity contract description out :
  identifiers_without "?" contract = true ->
  buildQueryFromDescriptionLogic contract description = Ok out ->
  Js.count_char "?" (sql_query out) = List.length (params out)
  /\ exists parsed tableInfo,
       parseDescription description = Ok (Some parsed)
       /\ findTableByBusinessName contract (target parsed) = Some tableInfo
       /\ Forall2 (fun f v =>
                     exists colInfo,
                       findColumnByBusinessName (snd tableInfo) (column f)
                       = Some colInfo
                       /\ v = mapValue (snd colInfo) (value f))
            (filters parsed) (params out).
Proof.
  intros Hid H. apply buildQuery_text in H.
  destruct H as (parsed & ti & sel & resolved & Hp & Hshape & Ht & Hsel
                 & Hres & Hsql & Hpar).
  pose proof (findTableByBusinessName_In _ _ _ Ht) as Hin.
  destruct (identifiers_without_table _ _ _ Hid Hin) as [Hname Hkeys].
  rewrite Forall_forall in Hkeys.
  split.
  - rewrite Hsql, Hpar, count_qmark_sql_text.
    + rewrite !length_map, length_combine.
      apply Forall2_length_eq in Hres. lia.
    + assumption.
    + clear - Hsel Hkeys. induction Hsel as [|a b l l' Hab Hsel IH];
        constructor; [|assumption].
      destruct (select_item_In _ _ _ Hab) as [Hb | ->]; [now apply Hkeys|].
      rewrite count_char_join by reflexivity.
      rewrite (list_sum_const _ 0); [lia|].
      apply Forall_forall. exact Hkeys.
    + pose proof (resolved_In _ _ _ Hres) as HF.
      eapply Forall_impl; [|exact HF]. intros k Hk. now apply Hkeys.
  - exists parsed, ti. split; [assumption|]. split; [assumption|].
    rewrite Hpar. now apply params_mapped.
Qed.

Lemma placeholder_parity_witness :
  identifiers_without "?" plain_contract = true
  /\ buildQueryFromDescriptionLogic plain_contract cancelled_question
     = Ok {| sql_query := "SELECT ord_id FROM so_hdr WHERE ord_stat = ?;";
             params := [JNum 5] |}
  /\ Js.count_char "?" "SELECT ord_id FROM so_hdr WHERE ord_stat = ?;" = 1.
Proof.
  assert (Hid : identifiers_without "?" plain_contract = true)
    by (vm_compute; reflexivity).
  assert (Hout : buildQueryFromDescriptionLogic plain_contract
                   cancelled_question
                 = Ok {| sql_query :=
                           "SELECT ord_id FROM so_hdr WHERE ord_stat = ?;";
                         params := [JNum 5] |})
    by (vm_compute; reflexivity).
  split; [exact Hid|]. split; [exact Hout|].
  exact (proj1 (placeholder_parity plain_contract cancelled_question _
                  Hid Hout)).
Defined.

(** C3. On the reference contract, whatever its descriptions, data
    types and the business names of ord_stat and ord_id, the question
    for the customer name yields [SELECT c_name FROM cust_mst WHERE
    c_id = ?;] with the string 4 as its parameter, and the question for
    the cancelled orders yields [SELECT ord_id FROM so_hdr WHERE
    ord_stat = ?;] with the number 5 as its parameter. *)
Theorem reference_scenarios (text : nat -> string) :
  buildQueryFromDescriptionLogic (reference_contract text)
    "Show me the Customer Name for the customer with ID 4."
  = Ok {| sql_query := "SELECT c_name FROM cust_mst WHERE c_id = ?;";
          params := [JStr "4"] |}
  /\ buildQueryFromDescriptionLogic (reference_contract text)
       "Which sales orders are cancelled?"
     = Ok {| sql_query := "SELECT ord_id FROM so_hdr WHERE ord_stat = ?;";
             params := [JNum 5] |}.
Proof. split; vm_compute; reflexivity. Qed.

(** C10. Every filter of a parsed intent has the operator [=]; so in
    every successful output each WHERE clause is a key of the resolved
    table's columns followed by [ = ?], one clause per filter. *)
Theorem operator_is_equality description parsed :
  parseDescription description = Ok (Some parsed) ->
  Forall (fun f => operator f = "=") (filters parsed)
  /\ forall contract out,
       buildQueryFromDescriptionLogic contract description = Ok out ->
       exists tableInfo selectColumns filterColumns,
         In tableInfo (tables contract)
         /\ Forall (fun c => In c (keys (Table.columns (snd tableInfo))))
              filterColumns
         /\ List.length filterColumns = List.length (filters parsed)
         /\ sql_query out
            = sql_text (fst tableInfo) selectColumns
                (map equality_clause filterColumns).
Proof.
  intros Hp. split.
  - destruct (parseDescription_outcomes description)
      as [H | [H | (parsed' & H & Hshape)]]; rewrite H in Hp;
      try discriminate.
    inversion Hp; subst. now apply intent_shape_operator.
  - intros contract out H. apply buildQuery_text in H.
    destruct H as (parsed' & ti & sel & resolved & Hp' & _ & Ht & _
                   & Hres & Hsql & _).
    rewrite Hp in Hp'. inversion Hp'; subst parsed'; clear Hp'.
    exists ti, sel, (map fst resolved).
    split; [eapply findTableByBusinessName_In; eassumption|].
    split; [eapply resolved_In; eassumption|].
    split; [|assumption].
    rewrite length_map. symmetry. eapply Forall2_length_eq; eassumption.
Qed.

Lemma operator_is_equality_witness :
  Forall (fun f => operator f = "=")
    [{| column := "status"; operator := "="; value := "cancelled" |}]
  /\ forall contract out,
       buildQueryFromDescriptionLogic contract cancelled_question = Ok out ->
       exists tableInfo selectColumns filterColumns,
         In tableInfo (tables contract)
         /\ Forall (fun c => In c (keys (Table.columns (snd tableInfo))))
              filterColumns
         /\ List.length filterColumns = 1
         /\ sql_query out
            = sql_text (fst tableInfo) selectColumns
                (map equality_clause filterColumns).
Proof.
  apply (operator_is_equality cancelled_question
           {| target := "sales orders"; columns := ["id"];
              filters := [{| column := "status"; operator := "=";
                             value := "cancelled" |}] |}).
  vm_compute. reflexivity.
Defined.

(** C4, as the claim states it, fails: no pattern matches the full text
    of the first reference question, whose final full stop no
    expression can consume, and the parser still returns an intent for
    it and not its no-intent result. *)
Lemma no_full_match_yet_parsed :
  Forall (fun p => full_match p customer_question = false) supportedPatterns
  /\ parseDescription customer_question
     = Ok (Some {| target := "customer";
                   columns := ["Customer Name"];
                   filters := [{| column := "id"; operator := "=";
                                  value := "4" |}] |})
  /\ parseDescription customer_question <> Ok None.
Proof.
  split; [repeat constructor|].
  split; [vm_compute; reflexivity|].
  vm_compute. discriminate.
Qed.

(** C4, amended. parseDescription evaluates its six patterns in their
    source order and returns the extraction of the first one whose
    expression matches somewhere in the description (the expressions
    are searched, not anchored to the start of the description): the
    patterns before it do not match and no later pattern has a part in
    the result; when no pattern matches, the result is no intent.
    Matching is case-insensitive: every pattern has the i flag, and it
    matches a description exactly when it matches the description in
    lower case. *)
Theorem parseDescription_first_match description :
  supportedPatterns
  = [pattern_show; pattern_which; pattern_list; pattern_name;
     pattern_quantity; pattern_placed]
  /\ (forall before p after matches,
        supportedPatterns = (before ++ p :: after)%list ->
        Forall (fun q => matches_of q description = None) before ->
        matches_of p description = Some matches ->
        parseDescription description
        = (parsed <- entities p matches ;; Ok (Some parsed)))
  /\ (Forall (fun q => matches_of q description = None) supportedPatterns ->
      parseDescription description = Ok None)
  /\ Forall (fun p =>
               ignoreCase p = true
               /\ (matches_of p description = None
                   <-> matches_of p (Js.toLowerCase description) = None))
       supportedPatterns.
Proof.
  split; [reflexivity|].
  assert (Hloop : forall ps before p after matches,
            ps = (before ++ p :: after)%list ->
            Forall (fun q => matches_of q description = None) before ->
            matches_of p description = Some matches ->
            parse_loop ps description
            = (parsed <- entities p matches ;; Ok (Some parsed))).
  { intros ps before. revert ps.
    induction before as [|q before IH]; intros ps p after matches -> Hb Hp.
    - simpl. now rewrite Hp.
    - inversion Hb; subst. simpl.
      replace (matches_of q description) with (@None captures) by auto.
      eapply IH; eauto. }
  split; [intros before p after matches; apply Hloop|].
  split.
  - unfold parseDescription.
    induction supportedPatterns as [|q ps IH]; intros H; [reflexivity|].
    inversion H; subst. simpl.
    replace (matches_of q description) with (@None captures) by auto. auto.
  - repeat constructor; now apply matches_of_lower.
Qed.

Lemma parseDescription_first_match_witness :
  parseDescription "WHICH sales orders are Open?"
  = Ok (Some {| target := "sales orders";
                columns := ["id"];
                filters := [{| column := "status"; operator := "=";
                               value := "Open" |}] |}).
Proof.
  destruct (parseDescription_first_match "WHICH sales orders are Open?")
    as (_ & Hfirst & _).
  apply (Hfirst [pattern_show] pattern_which
           [pattern_list; pattern_name; pattern_quantity; pattern_placed]
           [(0, "WHICH sales orders are Open?"); (1, "Open")]).
  - reflexivity.
  - repeat constructor.
  - vm_compute. reflexivity.
Defined.

(** C5, as the claim states it, fails: for the logical name id a table
    without an id-like physical name still resolves, to the first
    column whose business name contains the letters i, d. *)
Lemma id_falls_through_to_business_name :
  exists found,
    findColumnByBusinessName payments_table "id" = Some found
    /\ fst found = "amount"
    /\ ~ is_id_column (fst found).
Proof.
  eexists. split; [vm_compute; reflexivity|]. split; [reflexivity|].
  simpl. rewrite <- (id_test_spec "amount" (Column.mk "" "" "" None)).
  vm_compute. discriminate.
Qed.

(** C5, amended. findTableByBusinessName returns the first table, in
    the order of the contract, whose businessName contains the requested
    name as a case-insensitive substring.  findColumnByBusinessName, for
    a name that is id up to letter case, returns the first column whose
    physical name equals id or ends with _id and, when the table has no
    such column, falls through to the generic rule; for a name that is
    status up to letter case, the first column whose physical name ends
    with _stat or _status and, when there is none, the generic rule; for
    any other name, the generic rule: the first column whose
    businessName contains the name as a case-insensitive substring. *)
Theorem name_resolution :
  (forall contract name,
     first_with (fun _ t => contains_ci (Table.businessName t) name)
       (tables contract) (findTableByBusinessName contract name))
  /\ (forall table name,
        let cols := Table.columns table in
        let found := findColumnByBusinessName table name in
        if Js.toLowerCase name =? "id"
        then special_then_generic is_id_column name cols found
        else if Js.toLowerCase name =? "status"
        then special_then_generic is_status_column name cols found
        else by_business_name name cols found).
Proof.
  split; [apply findTableByBusinessName_first|].
  intros table name cols found. subst cols found.
  unfold findColumnByBusinessName, special_then_generic, by_business_name.
  pose proof (column_loop_first id_test (fun k _ => is_id_column k)
                id_test_spec (Table.columns table)) as Hid.
  pose proof (column_loop_first status_test (fun k _ => is_status_column k)
                status_test_spec (Table.columns table)) as Hst.
  pose proof (column_loop_first (name_test (Js.toLowerCase name))
                (fun _ c => contains_ci (Column.businessName c) name)
                (name_test_spec name) (Table.columns table)) as Hgen.
  destruct (String.eqb_spec (Js.toLowerCase name) "id") as [E|E].
  - rewrite E in *. simpl (("id" =? "status")%string).
    destruct (column_loop id_test (Table.columns table)) as [hit|].
    + left. now exists hit.
    + right. auto.
  - destruct (Js.toLowerCase name =? "status").
    + destruct (column_loop status_test (Table.columns table)) as [hit|].
      * left. now exists hit.
      * right. auto.
    + assumption.
Qed.

(** Integers below 2^53 are Numbers: [parseInt] returns them exactly. *)
Lemma Number_of_exact (n : N) : (n < 2 ^ 53)%N -> Js.Number_of n = Js.Finite n.
Proof.
  intros H. unfold Js.Number_of.
  assert (Hsize : (N.size n <= 53)%N).
  { destruct (N.eq_dec n 0) as [->|Hn]; [vm_compute; discriminate|].
    rewrite N.size_log2 by assumption.
    apply N.le_succ_l, N.log2_lt_pow2; [lia | assumption]. }
  apply N.leb_le in Hsize. now rewrite Hsize.
Qed.

(** Above 2^53 the nearest double is returned, and infinity from
    2^1024 - 2^970 on. *)
Remark parseInt_rounds :
  Js.parseInt "9007199254740993" = Js.Finite 9007199254740992
  /\ Js.parseInt "9007199254740995" = Js.Finite 9007199254740996
  /\ Js.parseInt (String.concat "" (List.repeat "9" 309)) = Js.Infinity.
Proof. repeat split; vm_compute; reflexivity. Qed.

(** C6. The value a filter contributes is never an exception.  For a
    column without business rules it is the raw value.  Otherwise the
    rules are scanned in their order for occurrences of the shape
    [<integer>: '<label>']: the first occurrence whose label is the raw
    value up to letter case gives its integer, as a number, which is
    what [parseInt] returns for the digits: the integer itself when it
    is below 2^53.  When no occurrence has the label, the value is the
    raw value, unchanged.  Every occurrence is a part of one of the
    rules that consists of digits, a colon, optional white space and
    the label between single quotes. *)
Theorem value_mapping column rawValue :
  filterValue column rawValue = Ok (mapValue column rawValue)
  /\ (rules_of column = [] -> mapValue column rawValue = JStr rawValue)
  /\ (forall before code label after,
        flat_map occurrences (rules_of column)
        = (before ++ (code, label) :: after)%list ->
        Forall (fun occ => Js.toLowerCase (snd occ)
                           <> Js.toLowerCase rawValue) before ->
        Js.toLowerCase label = Js.toLowerCase rawValue ->
        mapValue column rawValue = JNum (Js.parseInt code)
        /\ ((Js.digits_value 0 code < 2 ^ 53)%N ->
            mapValue column rawValue = JNum (Js.digits_value 0 code)))
  /\ (Forall (fun occ => Js.toLowerCase (snd occ) <> Js.toLowerCase rawValue)
        (flat_map occurrences (rules_of column)) ->
      mapValue column rawValue = JStr rawValue)
  /\ (forall code label,
        In (code, label) (flat_map occurrences (rules_of column)) ->
        exists rule p text q,
          In rule (rules_of column)
          /\ rule = p ++ text ++ q /\ rule_shape code label text).
Proof.
  split; [apply filterValue_mapValue|].
  unfold mapValue. split; [intros ->; reflexivity|].
  split; [|split].
  3: { intros code label Hin. apply in_flat_map in Hin.
       destruct Hin as (rule & Hrule & Hin). apply scan_shape in Hin.
       destruct Hin as (p & text & q & Heq & Hshape).
       now exists rule, p, text, q. }
  - intros before code label after -> Hb Hl. rewrite find_app.
    assert (Hnone : find (label_is rawValue) before = None).
    { clear - Hb. induction Hb as [|occ before Hocc Hb IH]; [reflexivity|].
      simpl. unfold label_is at 1.
      destruct (String.eqb_spec (Js.toLowerCase (snd occ))
                  (Js.toLowerCase rawValue)); [contradiction | exact IH]. }
    rewrite Hnone. cbn [find]. unfold label_is. cbn [snd fst].
    rewrite Hl, String.eqb_refl. split; [reflexivity|].
    intros Hsmall. unfold Js.parseInt. now rewrite Number_of_exact.
  - intros Hall.
    induction Hall as [|occ l Hocc Hall IH]; [reflexivity|].
    simpl. unfold label_is at 1.
    destruct (String.eqb_spec (Js.toLowerCase (snd occ))
                (Js.toLowerCase rawValue)); [contradiction | exact IH].
Qed.

Lemma value_mapping_witness :
  mapValue
    (Column.mk "Order status" "" "INTEGER"
       (Some ["1: 'open', 2: 'shipped'"; "5: 'cancelled'"]))
    "Cancelled"
  = JNum 5.
Proof.
  destruct (value_mapping
              (Column.mk "Order status" "" "INTEGER"
                 (Some ["1: 'open', 2: 'shipped'"; "5: 'cancelled'"]))
              "Cancelled") as (_ & _ & Hfirst & _).
  apply (Hfirst [("1", "open"); ("2", "shipped")] "5" "cancelled" []).
  - vm_compute. reflexivity.
  - repeat constructor; vm_compute; discriminate.
  - vm_compute. reflexivity.
  - vm_compute. reflexivity.
Defined.

Lemma buildQuery_unsupported contract description :
  parseDescription description = Ok None
  \/ parseDescription description = Throw unsupported ->
  buildQueryFromDescriptionLogic contract description = Throw unsupported.
Proof.
  unfold buildQueryFromDescriptionLogic. intros [-> | ->]; reflexivity.
Qed.

(** When the four patterns that resolve to a query do not match, the
    outcome of the parser is no intent or the error of the two
    join-shaped patterns. *)
Lemma parse_without_query_patterns description :
  matches_of pattern_show description = None ->
  matches_of pattern_which description = None ->
  matches_of pattern_list description = None ->
  matches_of pattern_name description = None ->
  parseDescription description = Ok None
  \/ parseDescription description = Throw unsupported.
Proof.
  intros H1 H2 H3 H4. unfold parseDescription, supportedPatterns. simpl.
  rewrite H1, H2, H3, H4.
  destruct (matches_of pattern_quantity description); [now right|].
  destruct (matches_of pattern_placed description); [now right | now left].
Qed.

Ltac no_match p a :=
  apply (no_match_in_question p a);
  [ reflexivity | reflexivity | reflexivity | reflexivity
  | intros rest; vm_compute; reflexivity
  | assumption ].

(** C7. For every contract and every number N, written in decimal
    digits, the two join-shaped reference questions raise
    UnsupportedOperation; and a description that no pattern matches
    raises the same error. *)
Theorem unsupported_questions contract (n : string) :
  all_chars Js.is_digit n = true ->
  buildQueryFromDescriptionLogic contract
    ("What was the quantity of each product sold in order number "
     ++ n ++ "?")
  = Throw (McpError UNSUPPORTED_OPERATION unsupported_message)
  /\ buildQueryFromDescriptionLogic contract
       ("Find the name of the customer who placed order number "
        ++ n ++ ".")
     = Throw (McpError UNSUPPORTED_OPERATION unsupported_message)
  /\ forall description,
       (forall p, In p supportedPatterns ->
                  matches_of p description = None) ->
       buildQueryFromDescriptionLogic contract description
       = Throw (McpError UNSUPPORTED_OPERATION unsupported_message).
Proof.
  intros Hn. split; [|split].
  - apply buildQuery_unsupported, parse_without_query_patterns.
    + no_match pattern_show "s"%char.
    + no_match pattern_which "w"%char.
    + no_match pattern_list "l"%char.
    + no_match pattern_name "w"%char.
  - apply buildQuery_unsupported, parse_without_query_patterns.
    + no_match pattern_show "s"%char.
    + no_match pattern_which "w"%char.
    + no_match pattern_list "l"%char.
    + no_match pattern_name "w"%char.
  - intros description Hnone. apply buildQuery_unsupported. left.
    unfold parseDescription, supportedPatterns. simpl.
    rewrite !Hnone; simpl; tauto.
Qed.

Lemma unsupported_questions_witness :
  buildQueryFromDescriptionLogic plain_contract
    "What was the quantity of each product sold in order number 1001?"
  = Throw (McpError UNSUPPORTED_OPERATION unsupported_message)
  /\ buildQueryFromDescriptionLogic plain_contract
       "Find the name of the customer who placed order number 1004."
     = Throw (McpError UNSUPPORTED_OPERATION unsupported_message)
  /\ buildQueryFromDescriptionLogic plain_contract
       "gibberish with no structure"
     = Throw (McpError UNSUPPORTED_OPERATION unsupported_message).
Proof.
  destruct (unsupported_questions plain_contract "1001" eq_refl)
    as (H1 & _ & H3).
  destruct (unsupported_questions plain_contract "1004" eq_refl)
    as (_ & H2 & _).
  split; [exact H1|]. split; [exact H2|].
  apply H3. intros p Hp. simpl in Hp.
  repeat (destruct Hp as [<- | Hp]; [vm_compute; reflexivity|]).
  destruct Hp.
Defined.

(** The second join-shaped question, as the challenge list writes it,
    ends with a full stop, which the expression of its pattern does not
    admit: it reaches the error through the end of the loop. *)
Remark placed_question_matches_no_pattern :
  Forall (fun p => matches_of p (placed_question "1004") = None)
    supportedPatterns
  /\ matches_of pattern_quantity (quantity_question "1001")
     = Some [(0, "What was the quantity of each product sold in order number 1001?");
             (1, "1001")].
Proof. split; [repeat constructor | vm_compute; reflexivity]. Qed.

Lemma names_table_message target :
  names ("Could not find a table matching '" ++ target ++ "'.") target.
Proof. now exists "Could not find a table matching '", "'.". Qed.

Lemma names_column_message colName physicalName :
  names ("Could not find a column matching '" ++ colName ++ "' in table '"
         ++ physicalName ++ "'.") colName
  /\ names ("Could not find a column matching '" ++ colName ++ "' in table '"
            ++ physicalName ++ "'.") physicalName.
Proof.
  split.
  - now exists "Could not find a column matching '",
               ("' in table '" ++ physicalName ++ "'.").
  - exists ("Could not find a column matching '" ++ colName
            ++ "' in table '"), "'.".
    now rewrite !append_assoc.
Qed.

(** C8, as the claim states it, fails: the error for an unresolved
    target names the target, and no table of the contract. *)
Lemma table_error_names_no_table :
  exists parsed message,
    parseDescription "List all things in the 'Zebra'." = Ok (Some parsed)
    /\ target parsed = "Zebra"
    /\ findTableByBusinessName plain_contract (target parsed) = None
    /\ buildQueryFromDescriptionLogic plain_contract
         "List all things in the 'Zebra'."
       = Throw (McpError INVALID_INPUT message)
    /\ message = "Could not find a table matching 'Zebra'."
    /\ forall tableName, In tableName (keys (tables plain_contract)) ->
                         ~ names message tableName.
Proof.
  eexists. eexists. split; [vm_compute; reflexivity|].
  split; [reflexivity|]. split; [vm_compute; reflexivity|].
  split; [vm_compute; reflexivity|]. split; [reflexivity|].
  intros tableName Hin Hnames. apply includes_spec in Hnames.
  simpl in Hin. destruct Hin as [<- | [<- | []]];
    vm_compute in Hnames; discriminate.
Qed.

(** C8, amended. When the target of a parsed description resolves to no
    table, the call raises InvalidInput with a message that names the
    target (there is no table to name).  When the target resolves and a
    requested column other than the wildcard, or a filter column,
    resolves to no column of that table, the call raises InvalidInput
    with a message that names such an unresolved term and the physical
    name of the table.  In both cases the outcome is the error alone. *)
Theorem unresolved_name_is_invalid_input contract description parsed :
  parseDescription description = Ok (Some parsed) ->
  (findTableByBusinessName contract (target parsed) = None ->
   buildQueryFromDescriptionLogic contract description
   = Throw (McpError INVALID_INPUT
              ("Could not find a table matching '" ++ target parsed ++ "'."))
   /\ names ("Could not find a table matching '" ++ target parsed ++ "'.")
        (target parsed))
  /\ (forall tableInfo,
        findTableByBusinessName contract (target parsed) = Some tableInfo ->
        (exists name, unresolved (snd tableInfo) parsed name) ->
        exists name message,
          unresolved (snd tableInfo) parsed name
          /\ buildQueryFromDescriptionLogic contract description
             = Throw (McpError INVALID_INPUT message)
          /\ message
             = "Could not find a column matching '" ++ name
               ++ "' in table '" ++ fst tableInfo ++ "'."
          /\ names message name
          /\ names message (fst tableInfo)).
Proof.
  intros Hp. unfold buildQueryFromDescriptionLogic. rewrite Hp. simpl.
  split.
  - intros Ht. split; [|apply names_table_message].
    unfold assembleQuery. now rewrite Ht.
  - intros ti Ht [name Hname].
    destruct (assembleQuery contract parsed) as [out|e] eqn:E.
    + exfalso. eapply unresolved_not_Ok; eauto.
    + apply assembleQuery_Throw in E.
      destruct E as [[Hnone _] | (ti' & name' & Ht' & Hun & ->)];
        [congruence|].
      rewrite Ht in Ht'. inversion Ht'; subst ti'; clear Ht'.
      exists name'. eexists. split; [exact Hun|].
      split; [reflexivity|]. split; [reflexivity|].
      apply names_column_message.
Qed.

Lemma unresolved_name_is_invalid_input_witness :
  buildQueryFromDescriptionLogic plain_contract
    "List all things in the 'Zebra'."
  = Throw (McpError INVALID_INPUT "Could not find a table matching 'Zebra'.")
  /\ exists name message,
       unresolved (Table.mk "Customer" ""
                     [("c_id", Column.mk "id" "" "" None);
                      ("c_name", Column.mk "Customer Name" "" "" None)])
         {| target := "customer"; columns := ["Foo"];
            filters := [{| column := "id"; operator := "="; value := "4" |}] |}
         name
       /\ buildQueryFromDescriptionLogic plain_contract
            "Show me the Foo for the customer with ID 4."
          = Throw (McpError INVALID_INPUT message)
       /\ message
          = "Could not find a column matching '" ++ name
            ++ "' in table 'cust_mst'."
       /\ names message name
       /\ names message "cust_mst".
Proof.
  split.
  - refine (proj1 (proj1 (unresolved_name_is_invalid_input plain_contract
                     "List all things in the 'Zebra'."
                     {| target := "Zebra"; columns := ["*"]; filters := [] |}
                     _) _)); vm_compute; reflexivity.
  - refine (proj2 (unresolved_name_is_invalid_input plain_contract
                     "Show me the Foo for the customer with ID 4."
                     {| target := "customer"; columns := ["Foo"];
                        filters := [{| column := "id"; operator := "=";
                                       value := "4" |}] |}
                     _)
              ("cust_mst",
               Table.mk "Customer" ""
                 [("c_id", Column.mk "id" "" "" None);
                  ("c_name", Column.mk "Customer Name" "" "" None)])
              _ _).
    + vm_compute. reflexivity.
    + vm_compute. reflexivity.
    + exists "Foo". split; [|vm_compute; reflexivity].
      left. split; [now left | discriminate].
Defined.

(* ================================================================== *)
(** ** Calls and the store                                             *)
(* ================================================================== *)

Lemma bindM_Ok {A B} (x : Stateful.M A) (f : A -> Stateful.M B) h a h' :
  x h = (Ok a, h') -> Stateful.bindM x f h = f a h'.
Proof. intros H. unfold Stateful.bindM. now rewrite H. Qed.

Lemma bindM_Throw {A B} (x : Stateful.M A) (f : A -> Stateful.M B) h e h' :
  x h = (Throw e, h') -> Stateful.bindM x f h = (Throw e, h').
Proof. intros H. unfold Stateful.bindM. now rewrite H. Qed.

(** A step without objects followed by a step without objects. *)
Lemma bindM_lift {A B} (r : result A) (f : A -> result B) h :
  Stateful.bindM (Stateful.lift r) (fun a => Stateful.lift (f a)) h
  = (bind r f, h).
Proof. now destruct r. Qed.

Lemma nth_error_new {A} (h rest : list A) (o : A) :
  nth_error (h ++ o :: rest) (List.length h) = Some o.
Proof.
  rewrite nth_error_app2 by lia. now rewrite Nat.sub_diag.
Qed.

Lemma nth_error_set_lastIndex : forall h R e o,
  nth_error h R = Some o ->
  nth_error (Stateful.set_lastIndex R e h) R
  = Some {| Stateful.source := Stateful.source o;
            Stateful.flag_i := Stateful.flag_i o;
            Stateful.flag_g := Stateful.flag_g o;
            Stateful.lastIndex := e |}.
Proof.
  induction h as [|o' h IH]; intros [|R] e o H; simpl in *;
    try discriminate.
  - now inversion H.
  - now apply IH.
Qed.

(** An expression without the [g] flag: [exec] is the search from the
    start of the text, whatever [lastIndex] is, and writes nothing. *)
Lemma String_match_pure h R o str :
  nth_error h R = Some o -> Stateful.flag_g o = false ->
  Stateful.String_match str R h
  = (Ok (str_match (Stateful.flag_i o) (Stateful.source o) str), h).
Proof.
  intros Ho Hg. unfold Stateful.String_match, Stateful.RegExp_exec.
  rewrite Ho, Hg. unfold exec_g, str_match. cbn [Nat.ltb Nat.leb drop].
  now destruct (search (Stateful.flag_i o) (Stateful.source o) str)
    as [[[n rest] c]|].
Qed.

(** The loop over the matches of a rule, on the object of its own
    expression, is the loop on that object's [lastIndex]. *)
Lemma Stateful_exec_loop rule lowerValue R : forall fuel h lastIndex,
  nth_error h R = Some (rule_object lastIndex) ->
  exists h',
    Stateful.exec_loop fuel R rule lowerValue h
    = (exec_loop fuel rule lastIndex lowerValue, h').
Proof.
  induction fuel as [|fuel IH]; intros h lastIndex Ho.
  - now exists h.
  - cbn [Stateful.exec_loop exec_loop].
    assert (Hexec : Stateful.RegExp_exec R rule h
                    = (Ok (fst (exec_g false rule_regex rule lastIndex)),
                       Stateful.set_lastIndex R
                         (snd (exec_g false rule_regex rule lastIndex)) h)).
    { unfold Stateful.RegExp_exec. rewrite Ho. unfold rule_object.
      cbn [Stateful.flag_g Stateful.flag_i Stateful.source
           Stateful.lastIndex].
      now destruct (exec_g false rule_regex rule lastIndex). }
    rewrite (bindM_Ok _ _ _ _ _ Hexec).
    pose proof (nth_error_set_lastIndex h R
                  (snd (exec_g false rule_regex rule lastIndex)) _ Ho) as Hset.
    change (nth_error
              (Stateful.set_lastIndex R
                 (snd (exec_g false rule_regex rule lastIndex)) h) R
            = Some (rule_object (snd (exec_g false rule_regex rule lastIndex))))
      in Hset.
    destruct (exec_g false rule_regex rule lastIndex) as [[matches|] e];
      cbn [fst snd] in *; [|eexists; reflexivity].
    destruct (group matches 2) as [label|err]; cbn;
      [|eexists; reflexivity].
    destruct (Js.toLowerCase label =? lowerValue).
    + destruct (group matches 1) as [code|err]; cbn; eexists; reflexivity.
    + apply IH. exact Hset.
Qed.

Lemma Stateful_rules_loop lowerValue : forall rules h,
  exists h',
    Stateful.rules_loop rules lowerValue h = (rules_loop rules lowerValue, h').
Proof.
  induction rules as [|rule rules IH]; intros h; [now exists h|].
  cbn [Stateful.rules_loop rules_loop].
  rewrite (bindM_Ok _ _ h (List.length h) (h ++ [rule_object 0])%list)
    by reflexivity.
  destruct (Stateful_exec_loop rule lowerValue (List.length h)
              (S (String.length rule)) (h ++ [rule_object 0])%list 0
              (nth_error_new h [] _)) as (h1 & H1).
  destruct (exec_loop (S (String.length rule)) rule 0 lowerValue)
    as [[n|]|err] eqn:E.
  - rewrite (bindM_Ok _ _ _ _ _ H1). now exists h1.
  - rewrite (bindM_Ok _ _ _ _ _ H1). apply IH.
  - rewrite (bindM_Throw _ _ _ _ _ H1). now exists h1.
Qed.

Lemma Stateful_filterValue column value h :
  exists h',
    Stateful.filterValue column value h = (filterValue column value, h').
Proof.
  unfold Stateful.filterValue, filterValue,
    Stateful.findColumnValueFromBusinessRule, findColumnValueFromBusinessRule.
  destruct (Column.businessRules column) as [[|rule rules]|];
    try (now exists h).
  destruct (Stateful_rules_loop (Js.toLowerCase value) (rule :: rules) h)
    as (h1 & H1).
  destruct (rules_loop (rule :: rules) (Js.toLowerCase value))
    as [[n|]|err] eqn:E.
  - rewrite (bindM_Ok _ _ _ _ _ H1). now exists h1.
  - rewrite (bindM_Ok _ _ _ _ _ H1). now exists h1.
  - rewrite (bindM_Throw _ _ _ _ _ H1). now exists h1.
Qed.

Lemma Stateful_forEach_filter tableInfo : forall fs whereClauses params h,
  exists h',
    Stateful.forEach_filter tableInfo fs whereClauses params h
    = (forEach_filter tableInfo fs whereClauses params, h').
Proof.
  induction fs as [|filter fs IH]; intros whereClauses params h;
    [now exists h|].
  cbn [Stateful.forEach_filter forEach_filter].
  destruct (findColumnByBusinessName (snd tableInfo) (column filter))
    as [colInfo|]; [|now exists h].
  destruct (Stateful_filterValue (snd colInfo) (value filter) h) as (h1 & H1).
  destruct (filterValue (snd colInfo) (value filter)) as [v|err].
  - rewrite (bindM_Ok _ _ _ _ _ H1). apply IH.
  - rewrite (bindM_Throw _ _ _ _ _ H1). now exists h1.
Qed.

Lemma Stateful_assembleQuery contract parsed h :
  exists h',
    Stateful.assembleQuery contract parsed h
    = (assembleQuery contract parsed, h').
Proof.
  unfold Stateful.assembleQuery, assembleQuery.
  destruct (findTableByBusinessName contract (target parsed))
    as [tableInfo|]; [|now exists h].
  destruct (mapM (selectColumn tableInfo) (columns parsed))
    as [selectColumns|err]; [|now exists h].
  rewrite (bindM_Ok _ _ h selectColumns h) by reflexivity.
  destruct (Stateful_forEach_filter tableInfo (filters parsed) [] [] h)
    as (h1 & H1).
  destruct (forEach_filter tableInfo (filters parsed) [] []) as [wp|err].
  - rewrite (bindM_Ok _ _ _ _ _ H1). now exists h1.
  - rewrite (bindM_Throw _ _ _ _ _ H1). now exists h1.
Qed.

(** The array literal adds the objects of its expressions to the store
    and refers to them. *)
Lemma Stateful_array_literal : forall ps h,
  exists l,
    Stateful.array_literal ps h = (Ok l, (h ++ map object_of ps)%list)
    /\ Forall2 (fun p (e : Stateful.ref * (captures -> result ParsedIntent)) =>
                  snd e = entities p
                  /\ forall rest,
                       nth_error (h ++ map object_of ps ++ rest)%list (fst e)
                       = Some (object_of p))
         ps l.
Proof.
  induction ps as [|p ps IH]; intros h.
  - exists []. split; [cbn; now rewrite app_nil_r | constructor].
  - cbn [Stateful.array_literal map].
    rewrite (bindM_Ok _ _ h (List.length h) (h ++ [object_of p])%list)
      by reflexivity.
    destruct (IH (h ++ [object_of p])%list) as (l & Hl & Hall).
    rewrite (bindM_Ok _ _ _ _ _ Hl).
    exists ((List.length h, entities p) :: l). split.
    + cbn. now rewrite <- app_assoc.
    + constructor.
      * split; [reflexivity|]. intros rest. cbn [fst app].
        apply nth_error_new.
      * eapply Forall2_impl; [|exact Hall].
        intros q e (He & Hnth). split; [exact He|]. intros rest.
        specialize (Hnth rest). rewrite <- app_assoc in Hnth. exact Hnth.
Qed.

(** The loop over the patterns on a store that holds their objects. *)
Lemma Stateful_parse_loop description h : forall ps l,
  Forall2 (fun p (e : Stateful.ref * (captures -> result ParsedIntent)) =>
             snd e = entities p /\ nth_error h (fst e) = Some (object_of p))
    ps l ->
  Stateful.parse_loop l description h = (parse_loop ps description, h).
Proof.
  induction 1 as [|p [R ent] ps l [He Hnth] Hall IH]; [reflexivity|].
  cbn [fst snd] in He, Hnth. subst ent.
  cbn [Stateful.parse_loop parse_loop].
  rewrite (bindM_Ok _ _ _ _ _
             (String_match_pure h R (object_of p) description Hnth eq_refl)).
  change (str_match (Stateful.flag_i (object_of p))
            (Stateful.source (object_of p)) description)
    with (matches_of p description).
  destruct (matches_of p description) as [matches|]; [|exact IH].
  now destruct (entities p matches).
Qed.

Lemma Stateful_parseDescription description h :
  exists h',
    Stateful.parseDescription description h
    = (parseDescription description, h').
Proof.
  unfold Stateful.parseDescription, parseDescription.
  destruct (Stateful_array_literal supportedPatterns h) as (l & Hl & Hall).
  rewrite (bindM_Ok _ _ _ _ _ Hl). eexists. apply Stateful_parse_loop.
  eapply Forall2_impl; [|exact Hall].
  intros p e (He & Hnth). split; [exact He|].
  specialize (Hnth []). now rewrite app_nil_r in Hnth.
Qed.

(** In every store a call has the outcome of the function of contract
    and description that the other theorems are about. *)
Lemma Stateful_buildQuery contract description h :
  fst (Stateful.buildQueryFromDescriptionLogic contract description h)
  = buildQueryFromDescriptionLogic contract description.
Proof.
  unfold Stateful.buildQueryFromDescriptionLogic,
    buildQueryFromDescriptionLogic.
  destruct (Stateful_parseDescription description h) as (h1 & H1).
  destruct (parseDescription description) as [[parsed|]|err].
  - rewrite (bindM_Ok _ _ _ _ _ H1).
    destruct (Stateful_assembleQuery contract parsed h1) as (h2 & H2).
    now rewrite H2.
  - now rewrite (bindM_Ok _ _ _ _ _ H1).
  - now rewrite (bindM_Throw _ _ _ _ _ H1).
Qed.

Lemma session_outcomes : forall calls h,
  fst (Stateful.session calls h)
  = map (fun call => buildQueryFromDescriptionLogic (fst call) (snd call))
      calls.
Proof.
  induction calls as [|[contract description] calls IH]; intros h;
    [reflexivity|].
  cbn [Stateful.session map fst snd].
  pose proof (Stateful_buildQuery contract description h) as H.
  destruct (Stateful.buildQueryFromDescriptionLogic contract description h)
    as [outcome h1].
  specialize (IH h1). destruct (Stateful.session calls h1) as [outcomes h2].
  cbn [fst] in *. now rewrite H, IH.
Qed.

(** C9. Two calls with the same contract and the same description have
    the same outcome: the same sql_query and params, or the same
    exception.  The state a call can see is the store of regular
    expression objects, whose [lastIndex] is read by every [exec]: the
    outcome of a call is the same in every store, and in a sequence of
    calls on one store, each starting where the calls before it ended,
    any two calls with the same inputs return the same outcome, that of
    [buildQueryFromDescriptionLogic] above. *)
Theorem buildQuery_deterministic contract description :
  (forall h1 h2 : Stateful.store,
     fst (Stateful.buildQueryFromDescriptionLogic contract description h1)
     = fst (Stateful.buildQueryFromDescriptionLogic contract description h2))
  /\ forall calls h i j,
       nth_error calls i = Some (contract, description) ->
       nth_error calls j = Some (contract, description) ->
       exists outcome,
         nth_error (fst (Stateful.session calls h)) i = Some outcome
         /\ nth_error (fst (Stateful.session calls h)) j = Some outcome
         /\ outcome = buildQueryFromDescriptionLogic contract description.
Proof.
  split.
  - intros h1 h2. now rewrite !Stateful_buildQuery.
  - intros calls h i j Hi Hj.
    exists (buildQueryFromDescriptionLogic contract description).
    rewrite session_outcomes. split; [|split; [|reflexivity]].
    + now rewrite nth_error_map, Hi.
    + now rewrite nth_error_map, Hj.
Qed.

Lemma buildQuery_deterministic_witness :
  exists outcome,
    let outcomes :=
      fst (Stateful.session
             [(plain_contract, cancelled_question);
              (mockContract, customer_question);
              (plain_contract, "Which sales orders are open?");
              (plain_contract, cancelled_question)]
             used_store) in
    nth_error outcomes 0 = Some outcome
    /\ nth_error outcomes 3 = Some outcome
    /\ outcome
       = Ok {| sql_query := "SELECT ord_id FROM so_hdr WHERE ord_stat = ?;";
               params := [JNum 5] |}.
Proof.
  apply (proj2 (buildQuery_deterministic plain_contract cancelled_question)
           _ used_store 0 3); reflexivity.
Defined.

(* ================================================================== *)
(** ** Further properties of buildQueryFromDescriptionLogic            *)
(* ================================================================== *)

(** X1. A call returns a query or throws one of three errors: the
    UnsupportedOperation error with its fixed message, the InvalidInput
    error for the target of the parsed description, or the InvalidInput
    error for a name of the parsed description that the resolved table
    does not resolve.  It throws no other error code and no TypeError. *)
Theorem buildQuery_outcomes contract description :
  (exists out, buildQueryFromDescriptionLogic contract description = Ok out)
  \/ buildQueryFromDescriptionLogic contract description
     = Throw (McpError UNSUPPORTED_OPERATION unsupported_message)
  \/ (exists parsed,
        parseDescription description = Ok (Some parsed)
        /\ findTableByBusinessName contract (target parsed) = None
        /\ buildQueryFromDescriptionLogic contract description
           = Throw (McpError INVALID_INPUT
                      ("Could not find a table matching '"
                       ++ target parsed ++ "'.")))
  \/ (exists parsed tableInfo name,
        parseDescription description = Ok (Some parsed)
        /\ findTableByBusinessName contract (target parsed) = Some tableInfo
        /\ unresolved (snd tableInfo) parsed name
        /\ buildQueryFromDescriptionLogic contract description
           = Throw (McpError INVALID_INPUT
                      ("Could not find a column matching '" ++ name
                       ++ "' in table '" ++ fst tableInfo ++ "'."))).
Proof.
  unfold buildQueryFromDescriptionLogic.
  destruct (parseDescription_outcomes description)
    as [H | [H | (parsed & H & _)]]; rewrite H; simpl.
  - right; left. reflexivity.
  - right; left. reflexivity.
  - destruct (assembleQuery contract parsed) as [out|e] eqn:E.
    + left. now exists out.
    + right; right. apply assembleQuery_Throw in E.
      destruct E as [[Hnone ->] | (ti & name & Ht & Hun & ->)].
      * left. exists parsed. auto.
      * right. exists parsed, ti, name. auto.
Qed.

Lemma mapM_all_Ok {A B} (f : A -> result B) : forall l,
  (forall a, In a l -> exists b, f a = Ok b) -> exists bs, mapM f l = Ok bs.
Proof.
  induction l as [|a l IH]; intros H; simpl; [now exists []|].
  destruct (H a (or_introl eq_refl)) as [b ->].
  destruct IH as [bs ->]; [intros a' Ha'; apply H; now right|].
  simpl. now exists (b :: bs).
Qed.

Lemma forEach_filter_all_Ok tableInfo : forall fs w p,
  (forall f, In f fs ->
     findColumnByBusinessName (snd tableInfo) (column f) <> None) ->
  exists wp, forEach_filter tableInfo fs w p = Ok wp.
Proof.
  induction fs as [|f fs IH]; intros w p H; simpl; [now eexists|].
  destruct (findColumnByBusinessName (snd tableInfo) (column f)) as [ci|] eqn:E.
  - rewrite filterValue_mapValue. simpl. apply IH.
    intros f' Hf'. apply H. now right.
  - exfalso. apply (H f); [now left | assumption].
Qed.

(** X2. A parsed description yields a query exactly when its target
    resolves to a table and that table resolves every requested column
    other than the wildcard and every filter column: resolution
    failures are the only way the assembly can fail. *)
Theorem buildQuery_succeeds_iff contract description parsed :
  parseDescription description = Ok (Some parsed) ->
  ((exists out, buildQueryFromDescriptionLogic contract description = Ok out)
   <-> exists tableInfo,
         findTableByBusinessName contract (target parsed) = Some tableInfo
         /\ all_resolved (snd tableInfo) parsed).
Proof.
  intros Hp. unfold buildQueryFromDescriptionLogic. rewrite Hp. simpl. split.
  - intros [out Hout].
    destruct (findTableByBusinessName contract (target parsed))
      as [ti|] eqn:Ht.
    + exists ti. split; [reflexivity|]. intros name Hun.
      eapply unresolved_not_Ok; eassumption.
    + unfold assembleQuery in Hout. rewrite Ht in Hout. discriminate.
  - intros (ti & Ht & Hall). unfold assembleQuery. rewrite Ht.
    destruct (mapM_all_Ok (selectColumn ti) (columns parsed)) as [sel ->].
    { intros a Ha. destruct (selectColumn ti a) as [b|e] eqn:E;
        [now exists b|].
      apply selectColumn_Throw in E. destruct E as (Hne & Hnone & _).
      exfalso. apply (Hall a). split; [left; auto | assumption]. }
    destruct (forEach_filter_all_Ok ti (filters parsed) [] []) as [wp ->].
    { intros f Hf Hnone. apply (Hall (column f)).
      split; [right; now apply in_map | assumption]. }
    simpl. eexists. reflexivity.
Qed.

Lemma buildQuery_succeeds_iff_witness :
  (exists out,
     buildQueryFromDescriptionLogic plain_contract customer_question = Ok out)
  <-> exists tableInfo,
        findTableByBusinessName plain_contract "customer" = Some tableInfo
        /\ all_resolved (snd tableInfo)
             {| target := "customer"; columns := ["Customer Name"];
                filters := [{| column := "id"; operator := "=";
                               value := "4" |}] |}.
Proof.
  apply (buildQuery_succeeds_iff plain_contract customer_question
           {| target := "customer"; columns := ["Customer Name"];
              filters := [{| column := "id"; operator := "=";
                             value := "4" |}] |}).
  vm_compute. reflexivity.
Defined.

Lemma sql_text_none tableName item :
  sql_text tableName [item] []
  = "SELECT " ++ item ++ " FROM " ++ tableName ++ ";".
Proof.
  unfold sql_text. simpl. repeat (rewrite append_assoc; simpl). reflexivity.
Qed.

Lemma sql_text_one tableName item c :
  sql_text tableName [item] [equality_clause c]
  = "SELECT " ++ item ++ " FROM " ++ tableName ++ " WHERE " ++ c ++ " = ?;".
Proof.
  unfold sql_text, equality_clause. simpl.
  repeat (rewrite append_assoc; simpl). reflexivity.
Qed.

(** X3. A successful call selects one expression and has at most one
    filter: its statement is [SELECT item FROM table;] with no
    parameter, or [SELECT item FROM table WHERE column = ?;] with one
    parameter, where table is a key of contract.tables and column a key
    of the columns of that table. *)
Theorem buildQuery_statement_forms contract description out :
  buildQueryFromDescriptionLogic contract description = Ok out ->
  exists tableInfo item,
    In tableInfo (tables contract)
    /\ ((sql_query out = "SELECT " ++ item ++ " FROM " ++ fst tableInfo ++ ";"
         /\ params out = [])
        \/ exists colInfo v,
             In colInfo (Table.columns (snd tableInfo))
             /\ sql_query out
                = "SELECT " ++ item ++ " FROM " ++ fst tableInfo
                  ++ " WHERE " ++ fst colInfo ++ " = ?;"
             /\ params out = [v]).
Proof.
  intros H. apply buildQuery_text in H.
  destruct H as (parsed & ti & sel & resolved & Hp & Hshape & Ht & Hsel
                 & Hres & Hsql & Hpar).
  exists ti.
  assert (Hone : exists item, sel = [item]).
  { destruct Hshape; simpl in Hsel; inversion Hsel as [|? ? ? ? ? Hnil];
      subst; inversion Hnil; subst; eauto. }
  destruct Hone as [item ->]. exists item.
  split; [eapply findTableByBusinessName_In; eassumption|].
  assert (Hfs : filters parsed = []
                \/ exists f, filters parsed = [f])
    by (destruct Hshape; simpl; eauto).
  destruct Hfs as [Hfs | [f Hfs]]; rewrite Hfs in Hres, Hpar.
  - left. inversion Hres; subst. split; [|exact Hpar].
    rewrite Hsql. apply sql_text_none.
  - right. inversion Hres as [|? ci ? ? Hci Hnil]; subst.
    inversion Hnil; subst. exists ci. eexists.
    split; [eapply findColumnByBusinessName_In; exact Hci|].
    split; [|exact Hpar]. rewrite Hsql. apply sql_text_one.
Qed.

Lemma buildQuery_statement_forms_witness :
  exists tableInfo item,
    In tableInfo (tables plain_contract)
    /\ (("SELECT ord_id FROM so_hdr WHERE ord_stat = ?;"
         = "SELECT " ++ item ++ " FROM " ++ fst tableInfo ++ ";"
         /\ [JNum 5] = [])
        \/ exists colInfo v,
             In colInfo (Table.columns (snd tableInfo))
             /\ "SELECT ord_id FROM so_hdr WHERE ord_stat = ?;"
                = "SELECT " ++ item ++ " FROM " ++ fst tableInfo
                  ++ " WHERE " ++ fst colInfo ++ " = ?;"
             /\ [JNum 5] = [v]).
Proof.
  apply (buildQuery_statement_forms plain_contract cancelled_question
           {| sql_query := "SELECT ord_id FROM so_hdr WHERE ord_stat = ?;";
              params := [JNum 5] |}).
  vm_compute. reflexivity.
Defined.

(* ================================================================== *)
(** ** What the parser extracts                                        *)
(* ================================================================== *)

Lemma run_consumes ic r s c s' c' :
  run ic r s c s' c' -> exists w, s = w ++ s'.
Proof.
  induction 1;
    try (now exists ""); try (now exists (String x ""));
    try assumption.
  - destruct IHrun1 as [w1 ->]. destruct IHrun2 as [w2 ->].
    exists (w1 ++ w2). now rewrite append_assoc.
  - destruct IHrun1 as [w1 ->]. destruct IHrun2 as [w2 ->].
    exists (w1 ++ w2). now rewrite append_assoc.
Qed.

(** A run keeps the property of a group's capture when every group of
    that number matches texts with the property only. *)
Lemma run_cap_inv ic (P : string -> Prop) i r s c s' c' :
  run ic r s c s' c' ->
  groups_satisfy ic P i r ->
  (forall t, cap i c = Some t -> P t) ->
  forall t, cap i c' = Some t -> P t.
Proof.
  induction 1; simpl; intros Hg Hc; try assumption.
  - destruct Hg as [Hg1 Hg2]. auto.
  - destruct Hg as [Hg1 _]. auto.
  - destruct Hg as [_ Hg2]. auto.
  - auto.
  - destruct Hg as [Hhere Hg]. intros t. simpl.
    destruct (Nat.eqb_spec i i0) as [->|Hne].
    + intros Ht. inversion Ht; subst. eapply Hhere; eauto.
    + now apply IHrun.
Qed.

(** The search with all its captures: the part skipped, the match, and
    the whole match as group 0. *)
Lemma search_run_caps ic r : forall s n rest c,
  search ic r s = Some (n, rest, c) ->
  exists skipped from c0,
    s = skipped ++ from /\ run ic r from [] rest c0
    /\ c = (0, substring 0 (String.length from - String.length rest) from)
           :: c0.
Proof.
  induction s as [|x s IH]; intros n rest c H; simpl in H.
  - destruct (match_at ic r "") as [[rest0 c0]|] eqn:E; [|discriminate].
    inversion H; subst; clear H. apply match_at_run in E.
    now exists "", "", c0.
  - destruct (match_at ic r (String x s)) as [[rest0 c0]|] eqn:E.
    + inversion H; subst; clear H. apply match_at_run in E.
      now exists "", (String x s), c0.
    + destruct (search ic r s) as [[[n0 rest0] c0]|] eqn:E0; [|discriminate].
      inversion H; subst; clear H.
      destruct (IH _ _ _ eq_refl) as (skipped & from & c1 & -> & Hrun & ->).
      now exists (String x skipped), from, c1.
Qed.

(** After a match, a group other than group 0 holds a text with the
    property that all its occurrences in the expression guarantee. *)
Lemma str_match_cap ic (P : string -> Prop) i r s c t :
  i <> 0 ->
  groups_satisfy ic P i r ->
  str_match ic r s = Some c -> cap i c = Some t -> P t.
Proof.
  intros Hi Hg. unfold str_match.
  destruct (search ic r s) as [[[n rest] c1]|] eqn:E; [|discriminate].
  intros H Ht. inversion H; subst; clear H.
  apply search_run_caps in E.
  destruct E as (skipped & from & c0 & -> & Hrun & ->).
  simpl in Ht. destruct (Nat.eqb_spec i 0) as [|_]; [contradiction|].
  eapply (run_cap_inv ic P i); eauto. simpl. discriminate.
Qed.

(** The expression [\d+] matches non-empty strings of digits. *)
Lemma run_digits ic s c s' c' :
  run ic digits s c s' c' ->
  decimal (substring 0 (String.length s - String.length s') s).
Proof.
  unfold digits, Plus. intros H.
  inversion H as [| | | | | |? ? ? ? s1 c1 ? ? Hd Hds| | | | |]; subst.
  apply run_Digit_inv in Hd. destruct Hd as (d & -> & Hdig & ->).
  apply (run_Star_class ic true Digit Js.is_digit (run_Digit_inv ic)) in Hds.
  destruct Hds as (ds & -> & Hdsd & ->).
  change (String d (ds ++ s')) with (String d ds ++ s').
  rewrite substring_prefix. split; [discriminate|].
  simpl. now rewrite Hdig, Hdsd.
Qed.

(** Whatever pattern produced it, a parsed intent is the extraction of
    a match of one of the patterns. *)
Lemma parseDescription_extraction description parsed :
  parseDescription description = Ok (Some parsed) ->
  exists p matches,
    In p supportedPatterns
    /\ matches_of p description = Some matches
    /\ entities p matches = Ok parsed.
Proof.
  unfold parseDescription.
  induction supportedPatterns as [|p ps IH]; simpl; [discriminate|].
  destruct (matches_of p description) as [matches|] eqn:E.
  - destruct (entities p matches) as [parsed'|e] eqn:Ee; simpl;
      [|discriminate].
    intros H. inversion H; subst. exists p, matches. auto.
  - intros H. destruct (IH H) as (p' & matches & Hin & Hm & He).
    exists p', matches. auto.
Qed.

Lemma group_Ok_inv matches i s :
  group matches i = Ok s -> cap i matches = Some s.
Proof. unfold group. destruct (cap i matches); congruence. Qed.

Lemma head_clean_trimStart s : head_clean (Js.trimStart s).
Proof.
  induction s as [|x s IH]; simpl; [exact I|].
  destruct (Js.is_space x) eqn:E; [assumption | exact E].
Qed.

Lemma head_clean_trimEnd s : head_clean s -> head_clean (Js.trimEnd s).
Proof.
  destruct s as [|x s]; simpl; [auto|]. intros Hx.
  destruct (Js.trimEnd s); [rewrite Hx|]; exact Hx.
Qed.

Lemma trimStart_head_clean s : head_clean s -> Js.trimStart s = s.
Proof. destruct s as [|x s]; simpl; [auto | now intros ->]. Qed.

Lemma trimEnd_idempotent s : Js.trimEnd (Js.trimEnd s) = Js.trimEnd s.
Proof.
  induction s as [|x s IH]; [reflexivity|]. simpl.
  destruct (Js.trimEnd s) as [|y t] eqn:E.
  - destruct (Js.is_space x) eqn:Ex; [reflexivity|]. simpl. now rewrite Ex.
  - change (Js.trimEnd (String x (String y t)))
      with (match Js.trimEnd (String y t) with
            | EmptyString =>
                if Js.is_space x then EmptyString else String x EmptyString
            | u => String x u
            end).
    now rewrite IH.
Qed.

(** [trim] is idempotent: a trimmed text has no white space left at
    either end. *)
Lemma trim_idempotent s : Js.trim (Js.trim s) = Js.trim s.
Proof.
  unfold Js.trim.
  rewrite (trimStart_head_clean (Js.trimEnd (Js.trimStart s))).
  - apply trimEnd_idempotent.
  - apply head_clean_trimEnd, head_clean_trimStart.
Qed.

Lemma trimEnd_no_space s :
  all_chars (fun x => negb (Js.is_space x)) s = true -> Js.trimEnd s = s.
Proof.
  induction s as [|x s IH]; [reflexivity|]. simpl. intros H.
  apply andb_true_iff in H. destruct H as [Hx Hs].
  apply negb_true_iff in Hx. rewrite (IH Hs), Hx. now destruct s.
Qed.

Lemma digit_not_space x : Js.is_digit x = true -> Js.is_space x = false.
Proof.
  unfold Js.is_digit, Js.is_space, Js.between.
  generalize (Js.code x). intros n H. bool_N.
Qed.

(** Trimming leaves a string of digits as it is. *)
Lemma trim_decimal s : decimal s -> Js.trim s = s.
Proof.
  intros [_ Hd].
  assert (Hns : all_chars (fun x => negb (Js.is_space x)) s = true).
  { eapply all_chars_impl; [|exact Hd].
    intros x Hx. now rewrite (digit_not_space x Hx). }
  unfold Js.trim. rewrite trimStart_head_clean.
  - now apply trimEnd_no_space.
  - destruct s as [|x s]; simpl; [exact I|]. simpl in Hns.
    apply andb_true_iff in Hns. destruct Hns as [Hx _].
    now apply negb_true_iff.
Qed.

Ltac groups_ok :=
  simpl; repeat split; try exact I; try discriminate;
  match goal with
  | H : run _ digits _ _ _ _ |- _ =>
      apply run_digits in H; destruct H; assumption
  end.

Lemma pattern_show_digits : groups_satisfy true decimal 3 (regex pattern_show).
Proof. groups_ok. Qed.

Lemma pattern_name_digits : groups_satisfy true decimal 2 (regex pattern_name).
Proof. groups_ok. Qed.

(** The number a match of the first pattern captures. *)
Lemma show_capture_decimal description matches m3 :
  matches_of pattern_show description = Some matches ->
  group matches 3 = Ok m3 -> decimal m3.
Proof.
  unfold matches_of. simpl. intros Hm H3. apply group_Ok_inv in H3.
  eapply (str_match_cap true decimal 3); eauto using pattern_show_digits.
Qed.

(** The number a match of the fourth pattern captures. *)
Lemma name_capture_decimal description matches m2 :
  matches_of pattern_name description = Some matches ->
  group matches 2 = Ok m2 -> decimal m2.
Proof.
  unfold matches_of. simpl. intros Hm H2. apply group_Ok_inv in H2.
  eapply (str_match_cap true decimal 2); eauto using pattern_name_digits.
Qed.

(** X4. Every filter of a parsed intent on the logical column id
    carries a non-empty string of decimal digits as its value: the
    digits the pattern captured, which trimming leaves unchanged. *)
Theorem id_filter_is_decimal description parsed :
  parseDescription description = Ok (Some parsed) ->
  Forall (fun f => column f = "id" -> decimal (value f)) (filters parsed).
Proof.
  intros H. apply parseDescription_extraction in H.
  destruct H as (p & matches & Hin & Hm & He). simpl in Hin.
  destruct Hin as [<- | [<- | [<- | [<- | [<- | [<- | []]]]]]];
    simpl in He.
  - destruct (group matches 1) as [m1|]; [|discriminate].
    destruct (group matches 2) as [m2|]; [|discriminate].
    destruct (group matches 3) as [m3|] eqn:E3; [|discriminate].
    simpl in He. inversion He; subst; simpl.
    constructor; [|constructor]. intros _. simpl.
    eapply show_capture_decimal; eassumption.
  - destruct (group matches 1) as [m1|]; [|discriminate].
    simpl in He. inversion He; subst; simpl.
    constructor; [|constructor]. simpl. discriminate.
  - destruct (group matches 2) as [m2|]; [|discriminate].
    simpl in He. inversion He; subst; simpl. constructor.
  - destruct (group matches 1) as [m1|]; [|discriminate].
    destruct (group matches 2) as [m2|] eqn:E2; [|discriminate].
    simpl in He. inversion He; subst; simpl.
    constructor; [|constructor]. intros _. simpl.
    rewrite (trim_decimal m2); eapply name_capture_decimal; eassumption.
  - discriminate.
  - discriminate.
Qed.

Lemma id_filter_is_decimal_witness :
  Forall (fun f => column f = "id" -> decimal (value f))
    [{| column := "id"; operator := "="; value := "4" |}].
Proof.
  apply (id_filter_is_decimal customer_question
           {| target := "customer"; columns := ["Customer Name"];
              filters := [{| column := "id"; operator := "=";
                             value := "4" |}] |}).
  vm_compute. reflexivity.
Defined.

(** X5. Everything the parser extracts is trimmed: the target, every
    requested column and every filter value of a parsed intent have no
    white space at either end. *)
Theorem parsed_texts_are_trimmed description parsed :
  parseDescription description = Ok (Some parsed) ->
  Js.trim (target parsed) = target parsed
  /\ Forall (fun c => Js.trim c = c) (columns parsed)
  /\ Forall (fun f => Js.trim (value f) = value f) (filters parsed).
Proof.
  intros H. apply parseDescription_extraction in H.
  destruct H as (p & matches & Hin & Hm & He). simpl in Hin.
  destruct Hin as [<- | [<- | [<- | [<- | [<- | [<- | []]]]]]];
    simpl in He;
    repeat match type of He with
           | context [group matches ?i] =>
               let E := fresh "E" in
               destruct (group matches i) eqn:E; simpl in He
           end;
    try discriminate; inversion He; subst; simpl;
    repeat split; repeat constructor; simpl;
    try apply trim_idempotent; try reflexivity.
  apply trim_decimal. eapply show_capture_decimal; eassumption.
Qed.

Lemma parsed_texts_are_trimmed_witness :
  Js.trim "sales orders" = "sales orders"
  /\ Forall (fun c => Js.trim c = c) ["id"]
  /\ Forall (fun f => Js.trim (value f) = value f)
       [{| column := "status"; operator := "="; value := "Open" |}].
Proof.
  apply (parsed_texts_are_trimmed "Which sales orders are   Open  ?"
           {| target := "sales orders"; columns := ["id"];
              filters := [{| column := "status"; operator := "=";
                             value := "Open" |}] |}).
  vm_compute. reflexivity.
Defined.

(* ================================================================== *)
(** ** The patterns anchored to the end of the description             *)
(* ================================================================== *)

Lemma run_seqs_app ic : forall l1 l2 s c s' c',
  run ic (seqs (l1 ++ l2)) s c s' c' ->
  exists s1 c1, run ic (seqs l1) s c s1 c1 /\ run ic (seqs l2) s1 c1 s' c'.
Proof.
  induction l1 as [|r l1 IH]; intros l2 s c s' c' H; simpl in *.
  - exists s, c. split; [constructor | assumption].
  - inversion H as [| | | | | |? ? ? ? s1 c1 ? ? H1 H2| | | | |]; subst.
    apply IH in H2. destruct H2 as (s2 & c2 & H2 & H3).
    exists s2, c2. split; [|assumption]. econstructor; eassumption.
Qed.

(** Under the i flag a question mark matches itself only. *)
Lemma char_match_qmark x : char_match true "?" x = true -> x = "?"%char.
Proof.
  unfold char_match. intros H. apply N.eqb_eq in H.
  rewrite <- (ascii_N_embedding x).
  replace (N_of_ascii x) with 63%N; [reflexivity|].
  revert H. unfold Js.canonicalize, Js.is_lower, Js.between, Js.code. simpl.
  generalize (N_of_ascii x). intros n. bool_N.
Qed.

(** The end [(\d+)\??$] of an expression consumes digits and at most
    one question mark, up to the end of the input. *)
Lemma run_digits_to_end i s c s' c' :
  run true (seqs [Group i digits; opt_qmark; Eos]) s c s' c' ->
  exists n q, s = n ++ q /\ decimal n /\ (q = "" \/ q = "?").
Proof.
  unfold seqs, opt_qmark, Opt. intros H.
  inversion H as [| | | | | |? ? ? ? s1 c1 ? ? Hg H1| | | | |]; subst; clear H.
  inversion Hg as [| | | | | | | | | | |? ? ? ? ? c0 Hd]; subst; clear Hg.
  pose proof (run_digits _ _ _ _ _ Hd) as Hdec.
  destruct (run_consumes _ _ _ _ _ _ Hd) as [n ->].
  rewrite substring_prefix in Hdec.
  inversion H1 as [| | | | | |? ? ? ? s2 c2 ? ? Hq H2| | | | |]; subst; clear H1.
  inversion H2 as [| | | | | |? ? ? ? s3 c3 ? ? He H3| | | | |]; subst; clear H2.
  inversion He; subst; clear He. inversion H3; subst; clear H3.
  inversion Hq as [| | | | | | |? ? ? ? ? ? Hl|? ? ? ? ? ? Hr| | | ]; subst; clear Hq.
  - inversion Hl as [|? x ? ? Hx| | | | | | | | | |]; subst.
    apply char_match_qmark in Hx. subst x.
    exists n, "?". auto.
  - inversion Hr; subst. exists n, "". auto.
Qed.

Lemma last_char_eq : forall a b x y,
  a ++ String x "" = b ++ String y "" -> x = y.
Proof.
  induction a as [|u a IH]; intros b x y H.
  - destruct b as [|v b]; simpl in H; [now inversion H|].
    inversion H. destruct b; discriminate.
  - destruct b as [|v b]; simpl in H.
    + inversion H. destruct a; discriminate.
    + inversion H. eapply IH; eassumption.
Qed.

Lemma decimal_last n :
  decimal n -> exists n0 x, n = n0 ++ String x "" /\ Js.is_digit x = true.
Proof.
  intros [Hne Hd]. induction n as [|x n IH]; [congruence|].
  simpl in Hd. apply andb_true_iff in Hd. destruct Hd as [Hx Hn].
  destruct n as [|y n].
  - now exists "", x.
  - destruct IH as (n0 & z & Hz & Hdz); [discriminate | assumption|].
    exists (String x n0), z. simpl. now rewrite Hz.
Qed.

(** X6. The patterns for the name of an entity and the two join-shaped
    patterns are anchored to the end of the description: they match
    only a description that ends with the number, optionally followed
    by one question mark.  A description that ends with a full stop,
    like the example sentence in the comment of the last pattern,
    matches none of them. *)
Theorem number_ends_the_description (p : pattern) (description : string) :
  In p [pattern_name; pattern_quantity; pattern_placed] ->
  (forall matches,
     matches_of p description = Some matches ->
     exists body n q,
       description = body ++ n ++ q /\ decimal n /\ (q = "" \/ q = "?"))
  /\ matches_of p (description ++ ".") = None.
Proof.
  intros Hin.
  assert (Hdec : forall d matches,
            matches_of p d = Some matches ->
            exists body n q,
              d = body ++ n ++ q /\ decimal n /\ (q = "" \/ q = "?")).
  { intros d matches Hm. unfold matches_of, str_match in Hm.
    destruct (search (ignoreCase p) (regex p) d) as [[[k rest] c]|] eqn:E;
      [|discriminate].
    apply search_run_caps in E.
    destruct E as (skipped & from & c0 & -> & Hrun & _).
    assert (Htail : exists l i,
              ignoreCase p = true
              /\ regex p = seqs (l ++ [Group i digits; opt_qmark; Eos])).
    { simpl in Hin. destruct Hin as [<- | [<- | [<- | []]]].
      - exists [Lit "what is the name of the "; Group 1 lazy_any;
                Lit " with id "], 2. split; reflexivity.
      - exists [Lit "what was the quantity of each product sold in order number "],
               1. split; reflexivity.
      - exists [Lit "find the name of the customer who placed order number "],
               1. split; reflexivity. }
    destruct Htail as (l & i & Hic & Hr). rewrite Hic, Hr in Hrun.
    apply run_seqs_app in Hrun. destruct Hrun as (s1 & c1 & H1 & H2).
    apply run_consumes in H1. destruct H1 as [w ->].
    apply run_digits_to_end in H2. destruct H2 as (n & q & -> & Hn & Hq).
    exists (skipped ++ w), n, q. split; [|auto].
    now rewrite !append_assoc. }
  split; [apply Hdec|].
  destruct (matches_of p (description ++ ".")) as [matches|] eqn:E;
    [|reflexivity].
  exfalso. apply Hdec in E. destruct E as (body & n & q & Heq & Hn & Hq).
  destruct (decimal_last n Hn) as (n0 & x & -> & Hx).
  destruct Hq as [-> | ->].
  - rewrite append_nil_r, <- append_assoc in Heq.
    apply last_char_eq in Heq. subst x. discriminate.
  - change "?" with ("" ++ String "?" "") in Heq.
    rewrite <- !append_assoc in Heq.
    apply last_char_eq in Heq. discriminate.
Qed.

Lemma number_ends_the_description_witness :
  (forall matches,
     matches_of pattern_placed
       "Find the name of the customer who placed order number 1004"
     = Some matches ->
     exists body n q,
       "Find the name of the customer who placed order number 1004"
       = body ++ n ++ q /\ decimal n /\ (q = "" \/ q = "?"))
  /\ matches_of pattern_placed
       ("Find the name of the customer who placed order number 1004" ++ ".")
     = None.
Proof.
  apply (number_ends_the_description pattern_placed
           "Find the name of the customer who placed order number 1004").
  simpl. tauto.
Defined.

(* ================================================================== *)
(** ** The statement does not depend on the letter case                *)
(* ================================================================== *)

Lemma length_lower s : String.length (Js.toLowerCase s) = String.length s.
Proof. induction s as [|x s IH]; simpl; [reflexivity | now rewrite IH]. Qed.

Lemma substring_lower : forall s n k,
  substring n k (Js.toLowerCase s) = Js.toLowerCase (substring n k s).
Proof.
  induction s as [|x s IH]; intros n k.
  - destruct n, k; reflexivity.
  - destruct n as [|n]; [destruct k as [|k]|]; simpl;
      [reflexivity | now rewrite IH | apply IH].
Qed.

Lemma lower_state_orElse x y :
  lower_state (orElse x y) = orElse (lower_state x) (lower_state y).
Proof. now destruct x. Qed.

Lemma one_mirrors (p : ascii -> bool) k1 k2 :
  (forall x, p (Js.lower_char x) = p x) ->
  mirrors k1 k2 -> mirrors (one p k1) (one p k2).
Proof.
  intros Hp Hk [|x s] c; simpl; [reflexivity|].
  rewrite Hp. destruct (p x); [apply Hk | reflexivity].
Qed.

Lemma repeat_mirrors greedy (step : cont -> cont) :
  (forall k1 k2, mirrors k1 k2 -> mirrors (step k1) (step k2)) ->
  forall k1 k2, mirrors k1 k2 ->
  forall fuel, mirrors (repeat greedy step k1 fuel)
                       (repeat greedy step k2 fuel).
Proof.
  intros Hstep k1 k2 Hk fuel.
  induction fuel as [|fuel IH]; intros s c; simpl.
  - rewrite Hk. now destruct greedy, (k1 s c).
  - rewrite Hk.
    rewrite (Hstep
               (fun s' c' => if (String.length s' <? String.length s)%nat
                             then repeat greedy step k1 fuel s' c' else None)
               (fun s' c' =>
                  if (String.length s' <? String.length (Js.toLowerCase s))%nat
                  then repeat greedy step k2 fuel s' c' else None)).
    + destruct greedy; now rewrite lower_state_orElse.
    + intros s' c'. rewrite !length_lower.
      destruct (String.length s' <? String.length s)%nat;
        [apply IH | reflexivity].
Qed.

Lemma class_lower x :
  Js.is_digit (Js.lower_char x) = Js.is_digit x
  /\ Js.is_space (Js.lower_char x) = Js.is_space x
  /\ Js.is_line_terminator (Js.lower_char x) = Js.is_line_terminator x.
Proof. apply folding_classes, canonicalize_lower_char. Qed.

(** Under the i flag the matcher does on the lower-case text what it
    does on the text. *)
Lemma m_mirrors r : forall k1 k2,
  mirrors k1 k2 -> mirrors (m true r k1) (m true r k2).
Proof.
  induction r as [ |a| | | | |r1 IH1 r2 IH2|r1 IH1 r2 IH2|g r1 IH1|i r1 IH1];
    intros k1 k2 Hk; simpl.
  - assumption.
  - apply one_mirrors; [|assumption].
    intros x. unfold char_match. now rewrite canonicalize_lower_char.
  - apply one_mirrors; [|assumption].
    intros x. f_equal. apply class_lower.
  - apply one_mirrors; [|assumption]. intros x. apply class_lower.
  - apply one_mirrors; [|assumption]. intros x. apply class_lower.
  - intros [|x s] c; simpl; [apply (Hk "") | reflexivity].
  - apply IH1, IH2, Hk.
  - intros s c. rewrite (IH1 _ _ Hk), (IH2 _ _ Hk).
    now rewrite lower_state_orElse.
  - intros s c. rewrite length_lower. now apply repeat_mirrors.
  - intros s c. apply IH1. intros s' c'.
    rewrite !length_lower, substring_lower.
    exact (Hk s' ((i, substring 0 (String.length s - String.length s') s)
                  :: c')).
Qed.

Lemma search_unfold ic r s :
  search ic r s
  = match match_at ic r s with
    | Some (rest, c) =>
        Some (0, rest,
              (0, substring 0 (String.length s - String.length rest) s) :: c)
    | None =>
        match s with
        | EmptyString => None
        | String _ s' =>
            match search ic r s' with
            | Some (n, rest, c) => Some (S n, rest, c)
            | None => None
            end
        end
    end.
Proof. destruct s; reflexivity. Qed.

Lemma search_lower r : forall s,
  search true r (Js.toLowerCase s)
  = option_map (fun f => (fst (fst f), Js.toLowerCase (snd (fst f)),
                          lower_caps (snd f)))
      (search true r s).
Proof.
  assert (Hat : forall s, match_at true r (Js.toLowerCase s)
                          = lower_state (match_at true r s)).
  { intros s. unfold match_at.
    refine (m_mirrors r (fun s' c' => Some (s', c'))
              (fun s' c' => Some (s', c')) _ s []).
    intros s' c'. reflexivity. }
  induction s as [|x s IH];
    rewrite (search_unfold true r (Js.toLowerCase _)), (search_unfold true r),
            Hat.
  - destruct (match_at true r "") as [[rest c]|]; [|reflexivity].
    cbn [lower_state option_map fst snd].
    rewrite !length_lower, substring_lower. reflexivity.
  - destruct (match_at true r (String x s)) as [[rest c]|].
    + cbn [lower_state option_map fst snd].
      rewrite !length_lower, substring_lower. reflexivity.
    + cbn [lower_state option_map Js.toLowerCase]. rewrite IH.
      now destruct (search true r s) as [[[n rest] c]|].
Qed.

Lemma str_match_lower r s :
  str_match true r (Js.toLowerCase s)
  = option_map lower_caps (str_match true r s).
Proof.
  unfold str_match. rewrite search_lower.
  now destruct (search true r s) as [[[n rest] c]|].
Qed.

Lemma cap_lower i : forall c,
  cap i (lower_caps c) = option_map Js.toLowerCase (cap i c).
Proof.
  induction c as [|[j t] c IH]; simpl; [reflexivity|].
  now destruct (Nat.eqb i j).
Qed.

Lemma group_lower c i :
  group (lower_caps c) i
  = match group c i with
    | Ok s => Ok (Js.toLowerCase s)
    | Throw e => Throw e
    end.
Proof. unfold group. rewrite cap_lower. now destruct (cap i c). Qed.

Lemma trimStart_lower s :
  Js.trimStart (Js.toLowerCase s) = Js.toLowerCase (Js.trimStart s).
Proof.
  induction s as [|x s IH]; simpl; [reflexivity|].
  destruct (class_lower x) as (_ & -> & _).
  now destruct (Js.is_space x).
Qed.

Lemma trimEnd_lower s :
  Js.trimEnd (Js.toLowerCase s) = Js.toLowerCase (Js.trimEnd s).
Proof.
  induction s as [|x s IH]; simpl; [reflexivity|]. rewrite IH.
  destruct (class_lower x) as (_ & -> & _).
  destruct (Js.trimEnd s); simpl; [now destruct (Js.is_space x) | reflexivity].
Qed.

(** Trimming and lower-casing commute. *)
Lemma trim_lower s : Js.trim (Js.toLowerCase s) = Js.toLowerCase (Js.trim s).
Proof. unfold Js.trim. now rewrite trimStart_lower, trimEnd_lower. Qed.

Lemma lower_char_lower_char x :
  Js.lower_char (Js.lower_char x) = Js.lower_char x.
Proof.
  assert (C : lower_char_idempotent = true) by (vm_compute; reflexivity).
  unfold lower_char_idempotent in C. rewrite forallb_forall in C.
  apply Ascii.eqb_eq, C, In_all_ascii.
Qed.

(** [toLowerCase] is idempotent. *)
Lemma toLowerCase_idempotent s :
  Js.toLowerCase (Js.toLowerCase s) = Js.toLowerCase s.
Proof.
  induction s as [|x s IH]; simpl; [reflexivity|].
  now rewrite lower_char_lower_char, IH.
Qed.

(** A text is the wildcard exactly when its lower case is. *)
Lemma lower_is_star s : (Js.toLowerCase s =? "*") = (s =? "*").
Proof.
  assert (C : lower_char_star = true) by (vm_compute; reflexivity).
  unfold lower_char_star in C. rewrite forallb_forall in C.
  destruct s as [|x s]; [reflexivity|]. simpl.
  specialize (C x (In_all_ascii x)). apply Bool.eqb_prop in C. rewrite C.
  destruct (Ascii.eqb x "*"); [|reflexivity]. now destruct s.
Qed.

Lemma entities_lower p c :
  In p supportedPatterns ->
  entities p (lower_caps c)
  = match entities p c with
    | Ok parsed => Ok (lower_intent parsed)
    | Throw e => Throw e
    end.
Proof.
  intros Hin. simpl in Hin.
  destruct Hin as [<- | [<- | [<- | [<- | [<- | [<- | []]]]]]]; simpl;
    rewrite ?group_lower;
    repeat match goal with
           | |- context [group c ?i] => destruct (group c i); simpl
           end;
    try reflexivity;
    unfold lower_intent; simpl; now rewrite ?trim_lower.
Qed.

(** The parser on the description in lower case returns the intent of
    the description, in lower case. *)
Lemma parseDescription_lower description :
  parseDescription (Js.toLowerCase description)
  = lower_parse (parseDescription description).
Proof.
  unfold parseDescription.
  assert (Hic : forall p, In p supportedPatterns -> ignoreCase p = true).
  { intros p Hp. simpl in Hp.
    destruct Hp as [<- | [<- | [<- | [<- | [<- | [<- | []]]]]]];
      reflexivity. }
  assert (Hloop : forall ps, incl ps supportedPatterns ->
            parse_loop ps (Js.toLowerCase description)
            = lower_parse (parse_loop ps description)).
  { induction ps as [|p ps IH]; intros Hincl; [reflexivity|].
    assert (Hin : In p supportedPatterns) by (apply Hincl; now left).
    simpl. unfold matches_of. rewrite (Hic p Hin), str_match_lower.
    destruct (str_match true (regex p) description) as [c|]; simpl.
    - rewrite (entities_lower p c Hin). now destruct (entities p c).
    - apply IH. intros q Hq. apply Hincl. now right. }
  apply Hloop, incl_refl.
Qed.

Lemma findTableByBusinessName_lower contract name :
  findTableByBusinessName contract (Js.toLowerCase name)
  = findTableByBusinessName contract name.
Proof.
  unfold findTableByBusinessName.
  induction (tables contract) as [|[k t] ts IH]; simpl; [reflexivity|].
  now rewrite toLowerCase_idempotent, IH.
Qed.

Lemma findColumnByBusinessName_lower table name :
  findColumnByBusinessName table (Js.toLowerCase name)
  = findColumnByBusinessName table name.
Proof.
  unfold findColumnByBusinessName. now rewrite toLowerCase_idempotent.
Qed.

Lemma same_error_refl e : same_error e e.
Proof. now destruct e. Qed.

Lemma selectColumn_lower tableInfo colName :
  result_rel eq (selectColumn tableInfo colName)
    (selectColumn tableInfo (Js.toLowerCase colName)).
Proof.
  unfold selectColumn.
  rewrite lower_is_star, findColumnByBusinessName_lower.
  destruct (colName =? "*"); [reflexivity|].
  now destruct (findColumnByBusinessName (snd tableInfo) colName).
Qed.

Lemma mapM_rel {A B} (f g : A -> result B) :
  (forall a, result_rel eq (f a) (g a)) ->
  forall l, result_rel eq (mapM f l) (mapM g l).
Proof.
  intros Hfg. induction l as [|a l IH]; simpl; [reflexivity|].
  specialize (Hfg a).
  destruct (f a) as [b|e], (g a) as [b'|e']; simpl in *;
    try contradiction; try assumption.
  subst b'.
  destruct (mapM f l) as [bs|e], (mapM g l) as [bs'|e']; simpl in *;
    try contradiction; try assumption.
  now subst.
Qed.

Lemma mapM_map {A B C} (f : B -> result C) (h : A -> B) : forall l,
  mapM f (map h l) = mapM (fun a => f (h a)) l.
Proof.
  induction l as [|a l IH]; simpl; [reflexivity | now rewrite IH].
Qed.

Lemma find_pointwise {A} (f g : A -> bool) :
  (forall a, f a = g a) -> forall l, find f l = find g l.
Proof.
  intros Hfg. induction l as [|a l IH]; simpl; [reflexivity|].
  now rewrite Hfg, IH.
Qed.

(** The mapped value of a raw value and of its lower case: the same
    number, or the two raw values. *)
Lemma mapValue_lower column rawValue :
  same_param (mapValue column rawValue)
    (mapValue column (Js.toLowerCase rawValue)).
Proof.
  unfold mapValue.
  rewrite (find_pointwise (label_is (Js.toLowerCase rawValue))
             (label_is rawValue)).
  - destruct (find _ _) as [[code label]|]; simpl; [reflexivity|].
    now rewrite toLowerCase_idempotent.
  - intros occ. unfold label_is. now rewrite toLowerCase_idempotent.
Qed.

Lemma Forall2_app_one {A} (R : A -> A -> Prop) l1 l2 a b :
  Forall2 R l1 l2 -> R a b -> Forall2 R (l1 ++ [a]) (l2 ++ [b]).
Proof. intros H Hab. apply Forall2_app; [assumption | now constructor]. Qed.

Lemma forEach_filter_lower tableInfo : forall fs w p p',
  Forall2 same_param p p' ->
  result_rel (fun wp1 wp2 =>
                fst wp1 = fst wp2 /\ Forall2 same_param (snd wp1) (snd wp2))
    (forEach_filter tableInfo fs w p)
    (forEach_filter tableInfo (map lower_filter fs) w p').
Proof.
  induction fs as [|f fs IH]; intros w p p' Hp; simpl; [auto|].
  destruct (findColumnByBusinessName (snd tableInfo) (column f)) as [ci|];
    [|reflexivity].
  rewrite !filterValue_mapValue. simpl. apply IH.
  apply Forall2_app_one; [assumption | apply mapValue_lower].
Qed.

(** The assembly of an intent and of the intent in lower case. *)
Lemma assembleQuery_lower contract parsed :
  same_statement (assembleQuery contract parsed)
    (assembleQuery contract (lower_intent parsed)).
Proof.
  unfold same_statement, assembleQuery.
  cbn [lower_intent target columns filters].
  rewrite findTableByBusinessName_lower.
  destruct (findTableByBusinessName contract (target parsed)) as [ti|];
    [|reflexivity].
  rewrite mapM_map.
  pose proof (mapM_rel (selectColumn ti)
                (fun a => selectColumn ti (Js.toLowerCase a))
                (selectColumn_lower ti) (columns parsed)) as Hsel.
  destruct (mapM (selectColumn ti) (columns parsed)) as [sel|e],
           (mapM (fun a => selectColumn ti (Js.toLowerCase a))
              (columns parsed)) as [sel'|e'];
    simpl in *; try contradiction; try assumption.
  subst sel'.
  pose proof (forEach_filter_lower ti (filters parsed) [] [] []
                (Forall2_nil _)) as Hf.
  change (map (fun f => {| column := column f; operator := operator f;
                           value := Js.toLowerCase (value f) |})
            (filters parsed))
    with (map lower_filter (filters parsed)).
  destruct (forEach_filter ti (filters parsed) [] []) as [[w p]|e],
           (forEach_filter ti (map lower_filter (filters parsed)) [] [])
             as [[w' p']|e'];
    simpl in *; try contradiction; try assumption.
  destruct Hf as [-> Hp]. split; [reflexivity | assumption].
Qed.

Lemma same_param_sym v1 v2 : same_param v1 v2 -> same_param v2 v1.
Proof. destruct v1, v2; simpl; auto. Qed.

Lemma same_param_trans v1 v2 v3 :
  same_param v1 v2 -> same_param v2 v3 -> same_param v1 v3.
Proof. destruct v1, v2, v3; simpl; try tauto; congruence. Qed.

Lemma Forall2_sym {A} (R : A -> A -> Prop) :
  (forall a b, R a b -> R b a) ->
  forall l1 l2, Forall2 R l1 l2 -> Forall2 R l2 l1.
Proof. intros HR l1 l2 H. induction H; constructor; auto. Qed.

Lemma Forall2_trans {A} (R : A -> A -> Prop) :
  (forall a b c, R a b -> R b c -> R a c) ->
  forall l1 l2 l3, Forall2 R l1 l2 -> Forall2 R l2 l3 -> Forall2 R l1 l3.
Proof.
  intros HR l1 l2 l3 H. revert l3.
  induction H; intros l3 H3; inversion H3; subst; constructor; eauto.
Qed.

Lemma same_statement_sym r1 r2 : same_statement r1 r2 -> same_statement r2 r1.
Proof.
  unfold same_statement, result_rel.
  destruct r1 as [o1|[c1 m1|]], r2 as [o2|[c2 m2|]]; simpl; auto.
  intros [Hs Hp]. split; [auto|].
  apply (Forall2_sym same_param same_param_sym). assumption.
Qed.

Lemma same_statement_trans r1 r2 r3 :
  same_statement r1 r2 -> same_statement r2 r3 -> same_statement r1 r3.
Proof.
  unfold same_statement, result_rel.
  destruct r1 as [o1|[c1 m1|]], r2 as [o2|[c2 m2|]], r3 as [o3|[c3 m3|]];
    simpl; try tauto; try congruence.
  intros [Hs Hp] [Hs' Hp']. split; [congruence|].
  eapply (Forall2_trans same_param same_param_trans); eassumption.
Qed.

Lemma buildQuery_lower contract description :
  same_statement (buildQueryFromDescriptionLogic contract description)
    (buildQueryFromDescriptionLogic contract (Js.toLowerCase description)).
Proof.
  unfold buildQueryFromDescriptionLogic. rewrite parseDescription_lower.
  destruct (parseDescription description) as [[parsed|]|e]; simpl.
  - apply assembleQuery_lower.
  - reflexivity.
  - apply same_error_refl.
Qed.

Lemma toLowerCase_ascii_lower s :
  Js.toLowerCase (ascii_lower s) = Js.toLowerCase s.
Proof.
  induction s as [|x s IH]; [reflexivity|]. cbn [ascii_lower Js.toLowerCase].
  rewrite IH. f_equal.
  assert (H : lower_char_after_ascii = true) by (vm_compute; reflexivity).
  unfold lower_char_after_ascii in H. rewrite forallb_forall in H.
  apply Ascii.eqb_eq, H, In_all_ascii.
Qed.

(** X7. The statement does not depend on the case of the letters A-Z
    and a-z of the description: two descriptions that differ in the
    case of such letters only give two queries with the same sql_query
    and with parameters that are the same numbers or strings equal up
    to letter case, or two errors with the same code. *)
Theorem statement_ignores_letter_case contract description1 description2 :
  ascii_lower description1 = ascii_lower description2 ->
  same_statement (buildQueryFromDescriptionLogic contract description1)
    (buildQueryFromDescriptionLogic contract description2).
Proof.
  intros H.
  assert (Hlower : Js.toLowerCase description1 = Js.toLowerCase description2).
  { rewrite <- (toLowerCase_ascii_lower description1), H.
    apply toLowerCase_ascii_lower. }
  eapply same_statement_trans; [apply buildQuery_lower|].
  rewrite Hlower. apply same_statement_sym, buildQuery_lower.
Qed.

Lemma statement_ignores_letter_case_witness :
  same_statement
    (buildQueryFromDescriptionLogic plain_contract
       "WHICH Sales Orders are CANCELLED?")
    (buildQueryFromDescriptionLogic plain_contract
       "which sales orders are Cancelled?").
Proof.
  apply statement_ignores_letter_case. vm_compute. reflexivity.
Defined.

(* ================================================================== *)
(** ** Rules the value mapper understands                              *)
(* ================================================================== *)

(** A greedy repetition of a character class runs through a text of the
    class and hands over at the first character outside it, when the
    continuation succeeds there. *)
Lemma repeat_greedy_class (p : ascii -> bool) k rest c res :
  head_outside p rest ->
  k rest c = Some res ->
  forall w fuel,
    all_chars p w = true -> String.length w <= fuel ->
    repeat true (one p) k fuel (w ++ rest) c = Some res.
Proof.
  intros Hrest Hk. induction w as [|x w IH]; intros fuel Hw Hfuel.
  - simpl (EmptyString ++ rest). destruct fuel as [|fuel]; simpl.
    + now rewrite Hk.
    + rewrite Hk. destruct rest as [|y rest]; simpl; [reflexivity|].
      simpl in Hrest. now rewrite Hrest.
  - destruct fuel as [|fuel]; [simpl in Hfuel; lia|].
    simpl in Hw. apply andb_true_iff in Hw. destruct Hw as [Hx Hw].
    change (String x w ++ rest) with (String x (w ++ rest)).
    cbn [repeat one]. rewrite Hx.
    destruct (Nat.ltb_spec (String.length (w ++ rest))
                (String.length (String x (w ++ rest)))) as [_|Hle];
      [|simpl in Hle; lia].
    rewrite IH; [reflexivity | assumption | simpl in Hfuel; lia].
Qed.

(** A lazy repetition of a character class stops at the first position
    where the continuation succeeds. *)
Lemma repeat_lazy_class (p q : ascii -> bool) k rest c res :
  (forall x t c', q x = true -> k (String x t) c' = None) ->
  k rest c = Some res ->
  forall w fuel,
    all_chars (fun x => p x && q x) w = true -> String.length w <= fuel ->
    repeat false (one p) k fuel (w ++ rest) c = Some res.
Proof.
  intros Hfail Hk. induction w as [|x w IH]; intros fuel Hw Hfuel.
  - simpl (EmptyString ++ rest). destruct fuel; simpl; now rewrite Hk.
  - destruct fuel as [|fuel]; [simpl in Hfuel; lia|].
    simpl in Hw. apply andb_true_iff in Hw. destruct Hw as [Hx Hw].
    apply andb_true_iff in Hx. destruct Hx as [Hp Hq].
    change (String x w ++ rest) with (String x (w ++ rest)).
    cbn [repeat one]. rewrite (Hfail x _ _ Hq), Hp. simpl orElse.
    match goal with
    | |- context [(?a <? ?b)%nat] =>
        replace (a <? b)%nat with true
          by (symmetry; apply Nat.ltb_lt; simpl; lia)
    end.
    apply IH; [assumption | simpl in Hfuel; lia].
Qed.

(** At a well-formed entry the expression of the rules matches the
    entry, with the code and the label in its groups. *)
Lemma rule_regex_entry code ws label after :
  decimal code ->
  all_chars Js.is_space ws = true ->
  all_chars label_char label = true ->
  match_at false rule_regex
    (code ++ ":" ++ ws ++ "'" ++ label ++ "'" ++ after)
  = Some (after, [(2, label); (1, code)]).
Proof.
  intros [Hne Hcode] Hws Hlabel.
  destruct code as [|d code]; [congruence|].
  simpl in Hcode. apply andb_true_iff in Hcode. destruct Hcode as [Hd Hcode].
  unfold match_at, rule_regex, seqs, digits, lazy_any, Plus.
  change (String d code ++ ":" ++ ws ++ "'" ++ label ++ "'" ++ after)
    with (String d (code ++ ":" ++ ws ++ "'" ++ label ++ "'" ++ after)).
  cbn [m one]. rewrite Hd.
  change (m false Digit) with (one Js.is_digit).
  change (m false Space) with (one Js.is_space).
  change (m false Any) with (one (fun x => negb (Js.is_line_terminator x))).
  apply repeat_greedy_class; [reflexivity | | assumption | ].
  2: { rewrite length_append. lia. }
  cbn [append one char_match]. rewrite Ascii.eqb_refl.
  apply repeat_greedy_class; [reflexivity | | assumption | ].
  2: { rewrite length_append. lia. }
  cbn [append one char_match]. rewrite Ascii.eqb_refl.
  apply (repeat_lazy_class _ (fun x => negb (Ascii.eqb x "'"))).
  - intros x t c' Hx. cbn [one char_match].
    apply negb_true_iff in Hx. rewrite Ascii.eqb_sym, Hx. reflexivity.
  - cbn [append one char_match]. rewrite Ascii.eqb_refl.
    f_equal. f_equal. f_equal; [f_equal|f_equal; f_equal].
    + change (label ++ String "'" after) with (label ++ "'" ++ after).
      apply substring_prefix.
    + change (String d (code ++ String ":" (ws ++ String "'" (label ++ String "'" after))))
        with (String d code ++ String ":" (ws ++ String "'" (label ++ String "'" after))).
      apply substring_prefix.
  - exact Hlabel.
  - rewrite length_append. lia.
Qed.

Lemma rule_regex_needs_digit x s :
  Js.is_digit x = false -> match_at false rule_regex (String x s) = None.
Proof.
  intros Hx. unfold match_at, rule_regex, seqs, digits, Plus.
  cbn [m one]. now rewrite Hx.
Qed.

(** The first match in a rule that starts with text without digits and
    a well-formed entry is that entry. *)
Lemma search_entry code ws label after :
  decimal code ->
  all_chars Js.is_space ws = true ->
  all_chars label_char label = true ->
  forall before,
    all_chars (fun x => negb (Js.is_digit x)) before = true ->
    exists n whole,
      search false rule_regex (entry_rule before code ws label after)
      = Some (n, after, [(0, whole); (2, label); (1, code)]).
Proof.
  intros Hcode Hws Hlabel. unfold entry_rule.
  induction before as [|x before IH]; intros Hb.
  - change ("" ++ code ++ ":" ++ ws ++ "'" ++ label ++ "'" ++ after)
      with (code ++ ":" ++ ws ++ "'" ++ label ++ "'" ++ after).
    rewrite search_unfold.
    rewrite (rule_regex_entry code ws label after Hcode Hws Hlabel).
    eexists. eexists. reflexivity.
  - simpl in Hb. apply andb_true_iff in Hb. destruct Hb as [Hx Hb].
    apply negb_true_iff in Hx.
    change (String x before ++ code ++ ":" ++ ws ++ "'" ++ label ++ "'" ++ after)
      with (String x (before ++ code ++ ":" ++ ws ++ "'" ++ label ++ "'" ++ after)).
    rewrite search_unfold, (rule_regex_needs_digit x _ Hx).
    destruct (IH Hb) as (n & whole & ->). eexists. eexists. reflexivity.
Qed.

(** X8. A rule that consists of text without digits, the digits of a
    code, a colon, optional white space, a label between single quotes
    (without quote or line break) and any further text maps the label:
    for a column whose first business rule it is, a raw value equal to
    the label up to letter case becomes the number [parseInt] returns
    for the code, the integer the digits denote when it is below
    2^53. *)
Theorem entry_rule_maps_label column before code ws label after others
    rawValue :
  all_chars (fun x => negb (Js.is_digit x)) before = true ->
  decimal code ->
  all_chars Js.is_space ws = true ->
  all_chars label_char label = true ->
  Column.businessRules column
  = Some (entry_rule before code ws label after :: others) ->
  Js.toLowerCase rawValue = Js.toLowerCase label ->
  filterValue column rawValue = Ok (JNum (Js.parseInt code))
  /\ ((Js.digits_value 0 code < 2 ^ 53)%N ->
      filterValue column rawValue = Ok (JNum (Js.digits_value 0 code))).
Proof.
  intros Hb Hcode Hws Hlabel Hrules Hv.
  assert (H : filterValue column rawValue = Ok (JNum (Js.parseInt code))).
  { rewrite filterValue_mapValue. f_equal.
    unfold mapValue, rules_of. rewrite Hrules. cbn [flat_map].
    destruct (search_entry code ws label after Hcode Hws Hlabel before Hb)
      as (n & whole & Hs).
    unfold occurrences at 1. cbn [scan]. rewrite Hs. cbn [cap Nat.eqb].
    cbn [app find]. unfold label_is at 1. cbn [snd].
    now rewrite Hv, String.eqb_refl. }
  split; [exact H|].
  intros Hsmall. rewrite H. unfold Js.parseInt.
  now rewrite Number_of_exact.
Qed.

Lemma entry_rule_maps_label_witness :
  filterValue
    (Column.mk "Order status" "" "INTEGER"
       (Some ["Status codes: 5:  'Cancelled' (the order was withdrawn)";
              "1: 'open'"]))
    "CANCELLED"
  = Ok (JNum 5).
Proof.
  apply (entry_rule_maps_label _ "Status codes: " "5" "  " "Cancelled"
           " (the order was withdrawn)" ["1: 'open'"] "CANCELLED");
    try reflexivity.
  split; [discriminate | reflexivity].
Defined.

(* ================================================================== *)
(** ** The empty name                                                  *)
(* ================================================================== *)

Lemma includes_empty s : Js.includes s "" = true.
Proof. apply includes_spec. now exists "", s. Qed.

(** X9. The empty name resolves to the first table of the contract and
    to the first column of a table, whatever their business names.  So
    a list request whose quoted qualifier is empty or white space only
    selects all columns of the first table of the contract. *)
Theorem empty_name_resolves_first contract tableName table rest :
  tables contract = (tableName, table) :: rest ->
  findTableByBusinessName contract "" = Some (tableName, table)
  /\ findColumnByBusinessName table "" = hd_error (Table.columns table)
  /\ forall description,
       parseDescription description
       = Ok (Some {| target := ""; columns := ["*"]; filters := [] |}) ->
       buildQueryFromDescriptionLogic contract description
       = Ok {| sql_query :=
                 "SELECT " ++ Js.join ", " (keys (Table.columns table))
                 ++ " FROM " ++ tableName ++ ";";
               params := [] |}.
Proof.
  intros Ht.
  assert (Hfirst : findTableByBusinessName contract ""
                   = Some (tableName, table)).
  { unfold findTableByBusinessName. rewrite Ht. simpl.
    now rewrite includes_empty. }
  split; [exact Hfirst|]. split.
  - unfold findColumnByBusinessName. simpl.
    destruct (Table.columns table) as [|[k c] cols]; [reflexivity|].
    simpl. unfold name_test. now rewrite includes_empty.
  - intros description Hp.
    unfold buildQueryFromDescriptionLogic. rewrite Hp. simpl.
    unfold assembleQuery. cbn [target columns filters]. rewrite Hfirst.
    simpl. now rewrite !append_assoc.
Qed.

Lemma empty_name_resolves_first_witness :
  buildQueryFromDescriptionLogic plain_contract "List all rows in the '  '."
  = Ok {| sql_query := "SELECT c_id, c_name FROM cust_mst;"; params := [] |}.
Proof.
  destruct (empty_name_resolves_first plain_contract "cust_mst"
              (Table.mk "Customer" ""
                 [("c_id", Column.mk "id" "" "" None);
                  ("c_name", Column.mk "Customer Name" "" "" None)])
              [("so_hdr",
                Table.mk "sales orders" ""
                  [("ord_stat",
                    Column.mk "" "" "" (Some ["5: 'cancelled'"]));
                   ("ord_id", Column.mk "" "" "" None)])]
              eq_refl) as (_ & _ & H).
  apply (H "List all rows in the '  '."). vm_compute. reflexivity.
Defined.

(* ================================================================== *)
(** ** The lookup tools                                                *)
(* ================================================================== *)

Lemma own_In {A} (d : dict A) k v : own d k = Some v -> In (k, v) d.
Proof.
  induction d as [|[k' v'] d IH]; simpl; [discriminate|].
  destruct (String.eqb_spec k' k) as [->|Hne].
  - intros H. inversion H. now left.
  - intros H. right. auto.
Qed.

(** In a dictionary, whose keys are distinct, the own property of a key
    is the value of its entry. *)
Lemma In_own {A} (d : dict A) k v :
  NoDup (keys d) -> In (k, v) d -> own d k = Some v.
Proof.
  induction d as [|[k' v'] d IH]; simpl; intros Hnd Hin; [destruct Hin|].
  inversion Hnd as [|? ? Hnotin Hnd']; subst.
  destruct Hin as [Heq | Hin].
  - inversion Heq; subst. now rewrite String.eqb_refl.
  - destruct (String.eqb_spec k' k) as [->|Hne]; [|auto].
    exfalso. apply Hnotin. unfold keys.
    change k with (fst (k, v)). now apply in_map.
Qed.

Lemma In_lookup {A} (d : dict A) k v :
  NoDup (keys d) -> In (k, v) d -> lookup d k = Own v.
Proof. intros Hnd Hin. unfold lookup. now rewrite (In_own d k v). Qed.

(** X10. What the query builder resolves, explain_column_meaning
    explains: in a contract with distinct table names, for a table with
    distinct column names, the physical names that name resolution
    returns for a table and a column of it lead
    explainColumnMeaningLogic to that column's business name,
    description and rules (none when the column has no rules). *)
Theorem resolved_column_is_explained contract name colName tableInfo colInfo :
  NoDup (keys (tables contract)) ->
  NoDup (keys (Table.columns (snd tableInfo))) ->
  findTableByBusinessName contract name = Some tableInfo ->
  findColumnByBusinessName (snd tableInfo) colName = Some colInfo ->
  explainColumnMeaningLogic contract (fst tableInfo) (fst colInfo)
  = Ok (Explain.mk (Some (Column.businessName (snd colInfo)))
          (Some (Column.description (snd colInfo)))
          (rules_of (snd colInfo))).
Proof.
  intros Hnt Hnc Ht Hc.
  apply findTableByBusinessName_In in Ht.
  apply findColumnByBusinessName_In in Hc.
  destruct tableInfo as [tn table], colInfo as [cn col]. simpl in *.
  unfold explainColumnMeaningLogic.
  rewrite (In_lookup _ _ _ Hnt Ht), (In_lookup _ _ _ Hnc Hc).
  reflexivity.
Qed.

Lemma resolved_column_is_explained_witness :
  explainColumnMeaningLogic plain_contract "so_hdr" "ord_stat"
  = Ok (Explain.mk (Some "") (Some "") ["5: 'cancelled'"]).
Proof.
  apply (resolved_column_is_explained plain_contract "sales orders" "status"
           ("so_hdr",
            Table.mk "sales orders" ""
              [("ord_stat", Column.mk "" "" "" (Some ["5: 'cancelled'"]));
               ("ord_id", Column.mk "" "" "" None)])
           ("ord_stat", Column.mk "" "" "" (Some ["5: 'cancelled'"]))).
  - repeat constructor; simpl; intuition discriminate.
  - repeat constructor; simpl; intuition discriminate.
  - vm_compute. reflexivity.
  - vm_compute. reflexivity.
Defined.

(** X11. The wildcard select list is the list of columns that
    explore_table_structure reports: in a contract with distinct table
    names, for the table that name resolution returns,
    exploreTableStructureLogic succeeds under the physical name, with
    the table's business name, and the select list of [*] is the
    comma-joined names of the columns it lists, in the same order. *)
Theorem wildcard_lists_explored_columns contract name tableInfo :
  NoDup (keys (tables contract)) ->
  findTableByBusinessName contract name = Some tableInfo ->
  exists out,
    exploreTableStructureLogic contract (fst tableInfo) = Ok out
    /\ Explore.tableName out = fst tableInfo
    /\ Explore.businessName out = Table.businessName (snd tableInfo)
    /\ List.length (Explore.columns out)
       = List.length (Table.columns (snd tableInfo))
    /\ selectColumn tableInfo "*"
       = Ok (Js.join ", " (map ExploreColumn.name (Explore.columns out))).
Proof.
  intros Hnt Ht. apply findTableByBusinessName_In in Ht.
  destruct tableInfo as [tn table]. simpl in *.
  unfold exploreTableStructureLogic. rewrite (In_lookup _ _ _ Hnt Ht).
  eexists. split; [reflexivity|]. simpl.
  split; [reflexivity|]. split; [reflexivity|].
  split; [apply length_map|].
  unfold selectColumn, keys. simpl. now rewrite map_map.
Qed.

Lemma wildcard_lists_explored_columns_witness :
  exists out,
    exploreTableStructureLogic plain_contract "cust_mst" = Ok out
    /\ Explore.tableName out = "cust_mst"
    /\ Explore.businessName out = "Customer"
    /\ List.length (Explore.columns out) = 2
    /\ Ok "c_id, c_name"
       = Ok (Js.join ", " (map ExploreColumn.name (Explore.columns out))).
Proof.
  apply (wildcard_lists_explored_columns plain_contract "customer"
           ("cust_mst",
            Table.mk "Customer" ""
              [("c_id", Column.mk "id" "" "" None);
               ("c_name", Column.mk "Customer Name" "" "" None)])).
  - repeat constructor; simpl; intuition discriminate.
  - vm_compute. reflexivity.
Defined.

Lemma lookup_cases {A} (d : dict A) k :
  (exists v, In (k, v) d /\ lookup d k = Own v)
  \/ (~ In k (keys d) /\ In k object_prototype_keys /\ lookup d k = Inherited)
  \/ (~ In k (keys d) /\ ~ In k object_prototype_keys
      /\ lookup d k = Undefined).
Proof.
  unfold lookup. destruct (own d k) as [v|] eqn:E.
  - left. exists v. split; [now apply own_In | reflexivity].
  - right.
    assert (Hnot : ~ In k (keys d)).
    { clear - E. induction d as [|[k' v'] d IH]; simpl; [tauto|].
      simpl in E. destruct (String.eqb_spec k' k) as [->|Hne];
        [discriminate|].
      intros [Heq | Hin]; [congruence | now apply IH]. }
    destruct (existsb (String.eqb k) object_prototype_keys) eqn:Ex.
    + left. split; [assumption|]. split; [|reflexivity].
      apply existsb_exists in Ex. destruct Ex as (k' & Hin & Heq).
      apply String.eqb_eq in Heq. now subst.
    + right. split; [assumption|]. split; [|reflexivity].
      intros Hin.
      assert (existsb (String.eqb k) object_prototype_keys = true).
      { apply existsb_exists. exists k. split; [assumption|].
        apply String.eqb_refl. }
      congruence.
Qed.

(** X12. expandAbbreviationsLogic returns the expansion of an entry of
    contract.abbreviations, unless the expansion is the empty string,
    which it reports as not found, like a missing abbreviation and a
    contract without abbreviations.  The not-found error is NOT_FOUND
    with the abbreviation in its message; a missing abbreviation that
    is a property name of Object.prototype is not reported as missing:
    the call returns the inherited member. *)
Theorem expandAbbreviations_outcomes contract abbreviation :
  (abbreviations contract = None ->
   expandAbbreviationsLogic contract abbreviation
   = Throw (McpError NOT_FOUND ("Abbreviation not found: " ++ abbreviation)))
  /\ forall d,
       abbreviations contract = Some d ->
       NoDup (keys d) ->
       (forall expansion,
          In (abbreviation, expansion) d ->
          expandAbbreviationsLogic contract abbreviation
          = if expansion =? ""
            then Throw (McpError NOT_FOUND
                          ("Abbreviation not found: " ++ abbreviation))
            else Ok (ExpansionString expansion))
       /\ (~ In abbreviation (keys d) ->
           expandAbbreviationsLogic contract abbreviation
           = if existsb (String.eqb abbreviation) object_prototype_keys
             then Ok ExpansionInherited
             else Throw (McpError NOT_FOUND
                           ("Abbreviation not found: " ++ abbreviation))).
Proof.
  unfold expandAbbreviationsLogic. split; [now intros ->|].
  intros d -> Hnd. split.
  - intros expansion Hin. rewrite (In_lookup _ _ _ Hnd Hin).
    now destruct expansion.
  - intros Hnot.
    destruct (lookup_cases d abbreviation)
      as [(v & Hin & _) | [(_ & Hp & ->) | (_ & Hp & ->)]].
    + exfalso. apply Hnot. unfold keys.
      change abbreviation with (fst (abbreviation, v)). now apply in_map.
    + replace (existsb (String.eqb abbreviation) object_prototype_keys)
        with true; [reflexivity|].
      symmetry. apply existsb_exists. exists abbreviation.
      split; [assumption | apply String.eqb_refl].
    + destruct (existsb (String.eqb abbreviation) object_prototype_keys)
        eqn:Ex; [|reflexivity].
      exfalso. apply Hp. apply existsb_exists in Ex.
      destruct Ex as (k' & Hin & Heq). apply String.eqb_eq in Heq.
      now subst.
Qed.

Lemma expandAbbreviations_outcomes_witness :
  expandAbbreviationsLogic
    {| tables := [];
       abbreviations := Some [("CUST", "Customer"); ("TBD", "")] |}
    "TBD"
  = Throw (McpError NOT_FOUND "Abbreviation not found: TBD")
  /\ expandAbbreviationsLogic
       {| tables := [];
          abbreviations := Some [("CUST", "Customer"); ("TBD", "")] |}
       "CUST"
     = Ok (ExpansionString "Customer").
Proof.
  destruct (expandAbbreviations_outcomes
              {| tables := [];
                 abbreviations := Some [("CUST", "Customer"); ("TBD", "")] |}
              "TBD") as [_ H1].
  destruct (expandAbbreviations_outcomes
              {| tables := [];
                 abbreviations := Some [("CUST", "Customer"); ("TBD", "")] |}
              "CUST") as [_ H2].
  split.
  - refine (proj1 (H1 _ eq_refl _) "" _).
    + repeat constructor; simpl; intuition discriminate.
    + simpl. tauto.
  - refine (proj1 (H2 _ eq_refl _) "Customer" _).
    + repeat constructor; simpl; intuition discriminate.
    + simpl. tauto.
Defined.

(* ================================================================== *)
(** ** One statement                                                   *)
(* ================================================================== *)

Lemma count_semicolon_sql_text tableName sel cols :
  Js.count_char ";" tableName = 0 ->
  Forall (fun item => Js.count_char ";" item = 0) sel ->
  Forall (fun k => Js.count_char ";" k = 0) cols ->
  Js.count_char ";" (sql_text tableName sel (map equality_clause cols)) = 1.
Proof.
  intros Ht Hsel Hcols. unfold sql_text.
  assert (Hs : Js.count_char ";" (Js.join ", " sel) = 0).
  { rewrite count_char_join by reflexivity.
    rewrite (list_sum_const _ 0) by assumption. lia. }
  assert (Hc : Js.count_char ";" (Js.join " AND " (map equality_clause cols))
               = 0).
  { rewrite count_char_join by reflexivity.
    rewrite (list_sum_const _ 0); [lia|].
    apply Forall_map. eapply Forall_impl; [|exact Hcols].
    intros k Hk. unfold equality_clause.
    rewrite count_char_append, Hk. reflexivity. }
  destruct (map equality_clause cols) as [|cl cls] eqn:E.
  - cbv beta iota zeta. rewrite !count_char_append, Hs, Ht. reflexivity.
  - cbv beta iota zeta.
    rewrite !count_char_append, Hs, Ht, Hc. reflexivity.
Qed.

(** X13. The output is one statement: when no physical table or column
    name of the contract contains a semicolon, the sql_query of a
    successful call contains exactly one semicolon, its last character,
    whatever the description says. *)
Theorem one_statement contract description out :
  identifiers_without ";" contract = true ->
  buildQueryFromDescriptionLogic contract description = Ok out ->
  Js.count_char ";" (sql_query out) = 1
  /\ ends_with (sql_query out) ";".
Proof.
  intros Hid H. apply buildQuery_text in H.
  destruct H as (parsed & ti & sel & resolved & Hp & Hshape & Ht & Hsel
                 & Hres & Hsql & Hpar).
  pose proof (findTableByBusinessName_In _ _ _ Ht) as Hin.
  destruct (identifiers_without_table _ _ _ Hid Hin) as [Hname Hkeys].
  rewrite Forall_forall in Hkeys. rewrite Hsql. split.
  - apply count_semicolon_sql_text.
    + assumption.
    + clear - Hsel Hkeys. induction Hsel as [|a b l l' Hab Hsel IH];
        constructor; [|assumption].
      destruct (select_item_In _ _ _ Hab) as [Hb | ->]; [now apply Hkeys|].
      rewrite count_char_join by reflexivity.
      rewrite (list_sum_const _ 0); [lia|].
      apply Forall_forall. exact Hkeys.
    + pose proof (resolved_In _ _ _ Hres) as HF.
      eapply Forall_impl; [|exact HF]. intros k Hk. now apply Hkeys.
  - unfold sql_text. eexists. reflexivity.
Qed.

Lemma one_statement_witness :
  Js.count_char ";" "SELECT ord_id FROM so_hdr WHERE ord_stat = ?;" = 1
  /\ ends_with "SELECT ord_id FROM so_hdr WHERE ord_stat = ?;" ";".
Proof.
  apply (one_statement plain_contract
           "Which sales orders are cancelled; DROP TABLE so_hdr?"
           {| sql_query := "SELECT ord_id FROM so_hdr WHERE ord_stat = ?;";
              params := [JStr "cancelled; DROP TABLE so_hdr"] |});
    vm_compute; reflexivity.
Defined.

(** X14. A table name that is no key of contract.tables makes
    explainColumnMeaningLogic and exploreTableStructureLogic fail: with
    NOT_FOUND and the message [Table not found: <name>], unless the name
    is a property name of Object.prototype (constructor, toString, ...),
    which the lookup finds on the prototype: then both calls end in a
    TypeError instead. *)
Theorem missing_table_outcomes contract tableName columnName :
  ~ In tableName (keys (tables contract)) ->
  (In tableName object_prototype_keys ->
   explainColumnMeaningLogic contract tableName columnName = Throw TypeError
   /\ exploreTableStructureLogic contract tableName = Throw TypeError)
  /\ (~ In tableName object_prototype_keys ->
      explainColumnMeaningLogic contract tableName columnName
      = Throw (McpError NOT_FOUND ("Table not found: " ++ tableName))
      /\ exploreTableStructureLogic contract tableName
         = Throw (McpError NOT_FOUND ("Table not found: " ++ tableName))).
Proof.
  intros Hnot.
  unfold explainColumnMeaningLogic, exploreTableStructureLogic.
  destruct (lookup_cases (tables contract) tableName)
    as [(v & Hin & _) | [(_ & Hp & ->) | (_ & Hp & ->)]].
  - exfalso. apply Hnot. unfold keys.
    change tableName with (fst (tableName, v)). now apply in_map.
  - split; [auto | contradiction].
  - split; [contradiction | auto].
Qed.

Lemma missing_table_outcomes_witness :
  (explainColumnMeaningLogic plain_contract "constructor" "c_id"
   = Throw TypeError
   /\ exploreTableStructureLogic plain_contract "constructor"
      = Throw TypeError)
  /\ (explainColumnMeaningLogic plain_contract "orders" "c_id"
      = Throw (McpError NOT_FOUND "Table not found: orders")
      /\ exploreTableStructureLogic plain_contract "orders"
         = Throw (McpError NOT_FOUND "Table not found: orders")).
Proof.
  split.
  - apply (missing_table_outcomes plain_contract "constructor" "c_id").
    + simpl. intuition discriminate.
    + simpl. tauto.
  - apply (missing_table_outcomes plain_contract "orders" "c_id").
    + simpl. intuition discriminate.
    + simpl. intuition discriminate.
Defined.
